(** * AT Protocol resolution engine of the ATPI browser extension

    A shallow embedding of the resolution engine: the AT-URL parser, the
    three handle strategies (DNS-over-HTTPS, well-known, XRPC directory), the
    unified handle resolver with its cache, the DID resolver, the
    resolution facade and the message listener of the service worker,
    followed by the properties proved about them.

    Conventions.
    - A JavaScript string is a [string]: the sequence of its UTF-8 bytes.
      Every delimiter the code looks for (['/'], [':'], the prefixes
      ["at://"], ["did:plc:"], ...) is ASCII, so the byte-wise operations
      below cut a string at the same places as the UTF-16 ones of the source.
    - [async] functions are run to completion one after the other; network,
      clock and random number generator are oracles of the environment
      ([Env]), and every call to [fetch] is recorded in a trace.
    - [console.debug] / [console.log] calls are not modelled. *)

From Stdlib Require Import String Ascii List ZArith Bool Arith Lia.
From Stdlib Require Import Permutation Sorted DecimalString.
Import ListNotations.

Local Open Scope list_scope.
Local Open Scope string_scope.

Set Implicit Arguments.
Set Warnings "-register-all".

(* ------------------------------------------------------------------ *)
(** ** JavaScript string primitives *)
(* ------------------------------------------------------------------ *)

Module JsString.

(** The double-quote character, as a string *)
Definition dquote : string := String (ascii_of_nat 34) EmptyString.

(** [s.startsWith(p)] *)
Definition startsWith (s p : string) : bool := String.prefix p s.

(** [s.substring(n)] for [0 <= n] *)
Fixpoint substring_from (n : nat) (s : string) : string :=
  match n, s with
  | O, _ => s
  | S _, EmptyString => EmptyString
  | S k, String _ r => substring_from k r
  end.

(** [s.endsWith(p)] *)
Definition endsWith (s p : string) : bool :=
  (String.length p <=? String.length s)%nat &&
  String.eqb (substring_from (String.length s - String.length p) s) p.

(** [s.includes(p)] *)
Fixpoint includes (s p : string) : bool :=
  String.prefix p s ||
  match s with
  | EmptyString => false
  | String _ r => includes r p
  end.

(** [s.split(c)] for a one-character separator [c] *)
Fixpoint split (c : ascii) (s : string) : list string :=
  match s with
  | EmptyString => [EmptyString]
  | String a r =>
      if Ascii.eqb a c then EmptyString :: split c r
      else match split c r with
           | h :: t => String a h :: t
           | [] => [String a EmptyString]
           end
  end.

(** [s.replace(/c/g, d)] for characters [c] and [d] *)
Fixpoint replaceAll (c d : ascii) (s : string) : string :=
  match s with
  | EmptyString => EmptyString
  | String a r => String (if Ascii.eqb a c then d else a) (replaceAll c d r)
  end.

(** [l.join(sep)] *)
Definition join (sep : string) (l : list string) : string :=
  String.concat sep l.

(** [s.slice(1, -1)] *)
Fixpoint drop_last (s : string) : string :=
  match s with
  | EmptyString => EmptyString
  | String a EmptyString => EmptyString
  | String a r => String a (drop_last r)
  end.

Definition slice_1_m1 (s : string) : string :=
  match s with
  | EmptyString => EmptyString
  | String _ r => drop_last r
  end.

(** White space and line terminators removed by [trim], as UTF-8 byte
    sequences: U+0009..U+000D, U+0020, U+00A0, U+1680, U+2000..U+200A,
    U+2028, U+2029, U+202F, U+205F, U+3000 and U+FEFF. *)
Definition bytes (l : list nat) : string :=
  string_of_list_ascii (map ascii_of_nat l).

Definition white_space : list string :=
  map bytes
    (([[9]; [10]; [11]; [12]; [13]; [32]; [194; 160]; [225; 154; 128]] ++
      map (fun b => [226; 128; b]) (seq 128 11) ++
      [[226; 128; 168]; [226; 128; 169]; [226; 128; 175]; [226; 129; 159];
       [227; 128; 128]; [239; 187; 191]])%list)%nat.

(** The rest of [s] after one leading white-space character, if any *)
Definition strip_space (s : string) : option string :=
  match find (fun w => String.prefix w s) white_space with
  | Some w => Some (substring_from (String.length w) s)
  | None => None
  end.

Fixpoint trimStart_fuel (fuel : nat) (s : string) : string :=
  match fuel with
  | O => s
  | S f => match strip_space s with
           | Some r => trimStart_fuel f r
           | None => s
           end
  end.

Definition trimStart (s : string) : string :=
  trimStart_fuel (String.length s) s.

Definition rev_string (s : string) : string :=
  string_of_list_ascii (rev (list_ascii_of_string s)).

Definition strip_space_end (s : string) : option string :=
  match find (fun w => String.prefix (rev_string w) s) white_space with
  | Some w => Some (substring_from (String.length w) s)
  | None => None
  end.

Fixpoint trimEnd_fuel (fuel : nat) (s : string) : string :=
  match fuel with
  | O => s
  | S f => match strip_space_end s with
           | Some r => trimEnd_fuel f r
           | None => s
           end
  end.

(** [trimEnd] works on the reversed string *)
Definition trimEnd (s : string) : string :=
  rev_string (trimEnd_fuel (String.length s) (rev_string s)).

Definition trim (s : string) : string := trimEnd (trimStart s).

(** [String(n)] for an integer [n] *)
Definition of_Z (n : Z) : string := NilZero.string_of_int (Z.to_int n).

(** Truthiness of a string: every string but the empty one *)
Definition truthy (s : string) : bool := negb (String.eqb s EmptyString).

End JsString.

(* ------------------------------------------------------------------ *)
(** ** Exceptions and completions *)
(* ------------------------------------------------------------------ *)

(** A thrown value: the [name] and [message] of the error object. *)
Record Exn : Type := mkExn { name : string; message : string }.

(** [new Error(msg)] *)
Definition Error (msg : string) : Exn := mkExn "Error" msg.
(** A [TypeError] raised by the engine itself (messages as V8 words them) *)
Definition TypeError (msg : string) : Exn := mkExn "TypeError" msg.

(** How a piece of code completes: normally, by a throw, or not at all
    ([Spin]: a loop that was still running when the fuel ran out). *)
Inductive Res (A : Type) : Type :=
| Ok (a : A)
| Throw (e : Exn)
| Spin.
Arguments Ok {A} a.
Arguments Throw {A} e.
Arguments Spin {A}.

(** Sequencing of pure code that may throw *)
Definition and_then {A B : Type} (r : Res A) (k : A -> Res B) : Res B :=
  match r with
  | Ok a => k a
  | Throw e => Throw e
  | Spin => Spin
  end.

Declare Scope js_scope.
Delimit Scope js_scope with js.
Notation "x <~ r ;; k" := (and_then r (fun x => k))
  (at level 100, r at next level, right associativity) : js_scope.

(* ------------------------------------------------------------------ *)
(** ** AT-URL parsing (atpi-resolver.js) *)
(* ------------------------------------------------------------------ *)

(** The object returned by [validateUrl]; [None] is [null]. *)
Record ParsedUrl : Type := mkParsed {
  identifier : string;
  collection : option string;
  rkey : option string
}.

(** [parts[i] || null]: [null] when the element is missing ([undefined]) and
    also when it is the empty string, which is falsy. *)
Definition part_or_null (parts : list string) (i : nat) : option string :=
  match nth_error parts i with
  | Some s => if JsString.truthy s then Some s else None
  | None => None
  end.

(** [parts[0]]; an array without a first element cannot get past the length
    check of [validateUrl], the default only makes the function total. *)
Definition part0 (parts : list string) : string := nth 0 parts EmptyString.

Definition validateUrl (url : string) : Res ParsedUrl :=
  if negb (JsString.startsWith url "at://") then
    Throw (Error "URL must start with at://")
  else
    let parts := JsString.split "/" (JsString.substring_from 5 url) in
    if (List.length parts <? 1)%nat then
      Throw (Error "Invalid AT URL format")
    else
      Ok {| identifier := part0 parts;
            collection := part_or_null parts 1;
            rkey := part_or_null parts 2 |}.

Inductive IdentifierType : Type := TDid | THandle.

Record Identifier : Type := mkIdentifier {
  id_type : IdentifierType;
  id_value : string
}.

Definition parseIdentifier (identifier : string) : Identifier :=
  if JsString.startsWith identifier "did:" then mkIdentifier TDid identifier
  else mkIdentifier THandle identifier.

(* ------------------------------------------------------------------ *)
(** ** JSON values *)
(* ------------------------------------------------------------------ *)

(** The values [JSON.parse] produces.  Numbers are integers here: the code
    only compares them with [0], [3] and [16] and prints them.  An object
    lists its own properties, each key once. *)
Inductive JSON : Type :=
| JNull
| JBool (b : bool)
| JNum (n : Z)
| JStr (s : string)
| JArr (items : list JSON)
| JObj (fields : list (string * JSON)).

Module JsValue.

Definition truthy (v : JSON) : bool :=
  match v with
  | JNull => false
  | JBool b => b
  | JNum n => negb (n =? 0)%Z
  | JStr s => JsString.truthy s
  | JArr _ | JObj _ => true
  end.

(** Truthiness of a value that may be [undefined] ([None]) *)
Definition truthy_opt (v : option JSON) : bool :=
  match v with
  | Some v => truthy v
  | None => false
  end.

Fixpoint lookup (k : string) (fields : list (string * JSON)) : option JSON :=
  match fields with
  | [] => None
  | (k', v) :: r => if String.eqb k' k then Some v else lookup k r
  end.

(** [v.k] for one of the property names the code reads ([Status],
    [Answer], [type], [data], [provider], [did], [error], [service],
    [serviceEndpoint]): none of them is inherited, so only an object can
    have it; reading a property of [null] or [undefined] throws. *)
Definition prop (v : option JSON) (k : string) : Res (option JSON) :=
  match v with
  | None =>
      Throw (TypeError ("Cannot read properties of undefined (reading '" ++ k ++ "')"))
  | Some JNull =>
      Throw (TypeError ("Cannot read properties of null (reading '" ++ k ++ "')"))
  | Some (JObj fields) => Ok (lookup k fields)
  | Some _ => Ok None
  end.

(** String conversion of a template literal, [`${v}`] *)
Fixpoint to_string (v : JSON) : string :=
  match v with
  | JNull => "null"
  | JBool true => "true"
  | JBool false => "false"
  | JNum n => JsString.of_Z n
  | JStr s => s
  | JArr items =>
      JsString.join ","
        (map (fun x => match x with JNull => EmptyString | _ => to_string x end) items)
  | JObj _ => "[object Object]"
  end.

Definition to_string_opt (v : option JSON) : string :=
  match v with
  | Some v => to_string v
  | None => "undefined"
  end.

(** [v === s] for a string literal [s] *)
Definition is_string (v : option JSON) (s : string) : bool :=
  match v with
  | Some (JStr s') => String.eqb s' s
  | _ => false
  end.

(** [v === n] for a number literal [n] *)
Definition is_number (v : option JSON) (n : Z) : bool :=
  match v with
  | Some (JNum n') => (n' =? n)%Z
  | _ => false
  end.

End JsValue.

(* ------------------------------------------------------------------ *)
(** ** Insertion-ordered maps ([Map]) *)
(* ------------------------------------------------------------------ *)

Module JsMap.

(** A [Map] with string keys: its entries in insertion order. *)
Definition t (V : Type) : Type := list (string * V).

Definition empty {V} : t V := [].

Fixpoint get {V} (k : string) (m : t V) : option V :=
  match m with
  | [] => None
  | (k', v) :: r => if String.eqb k' k then Some v else get k r
  end.

Definition has {V} (k : string) (m : t V) : bool :=
  match get k m with Some _ => true | None => false end.

(** [m.set(k, v)]: an existing key keeps its place, a new one goes last *)
Fixpoint set {V} (k : string) (v : V) (m : t V) : t V :=
  match m with
  | [] => [(k, v)]
  | (k', v') :: r =>
      if String.eqb k' k then (k', v) :: r else (k', v') :: set k v r
  end.

(** [m.delete(k)] *)
Fixpoint delete {V} (k : string) (m : t V) : t V :=
  match m with
  | [] => []
  | (k', v') :: r =>
      if String.eqb k' k then r else (k', v') :: delete k r
  end.

Definition size {V} (m : t V) : nat := List.length m.

(** [Array.from(m.entries())] *)
Definition entries {V} (m : t V) : list (string * V) := m.

Definition keys {V} (m : t V) : list string := map fst m.

(** The keys of a [Map] are pairwise distinct. *)
Definition wf {V} (m : t V) : Prop := NoDup (keys m).

End JsMap.

(** A [Set] of strings, as the list of its members in insertion order *)
Module JsSet.
Definition t : Type := list string.
Definition empty : t := [].
Definition has (x : string) (s : t) : bool :=
  existsb (String.eqb x) s.
Definition add (x : string) (s : t) : t :=
  if has x s then s else (s ++ [x])%list.
Definition size (s : t) : nat := List.length s.
End JsSet.

(* ------------------------------------------------------------------ *)
(** ** The environment, the state and the monad of the engine *)
(* ------------------------------------------------------------------ *)

(** What a call of [fetch] is given. *)
Record Request : Type := mkRequest {
  req_url : string;
  req_accept : option string;      (* the [Accept] header *)
  req_redirect_manual : bool;      (* [redirect: 'manual'] *)
  req_timeout : Z                  (* delay of the abort timer, in ms *)
}.

(** The body of a response as [response.json()] sees it *)
Inductive ParsedBody : Type :=
| IsJson (v : JSON)
| NotJson (syntax_error : string).

Record Response : Type := mkResponse {
  status : Z;
  body_text : string;
  body_json : ParsedBody
}.

(** [response.ok] *)
Definition ok (r : Response) : bool :=
  ((200 <=? status r) && (status r <=? 299))%Z.

(** How a [fetch] ends: with a response, with the abort timer firing first,
    or with a transport failure (a [TypeError] of the given message). *)
Inductive FetchOutcome : Type :=
| Fetched (r : Response)
| Aborted
| Failed (msg : string).

(** The outside world: the answer to the [i]-th [fetch], the [i]-th value of
    [Math.random] (as the number that [Math.floor(Math.random() * n)] is
    taken from, modulo [n]) and the [i]-th reading of [Date.now()]. *)
Record Env : Type := mkEnv {
  net : nat -> Request -> FetchOutcome;
  random : nat -> nat;
  clock : nat -> Z
}.

(** Result of a handle strategy: [{did, method, endpoint?, provider?}] *)
Record HandleResult : Type := mkHandleResult {
  did : string;
  method : string;
  endpoint : option string;
  provider : option JSON
}.

(** A cache entry: the cached value ([data] in the handle cache,
    [serviceEndpoint] in the DID cache) and the time it was stored. *)
Record CacheEntry (T : Type) : Type := mkEntry {
  value : T;
  timestamp : Z
}.

Inductive Event : Type :=
| EvFetch (r : Request)          (* a call of [fetch] *)
| EvLocal (url : string)         (* [resolveLocal] entered *)
| EvRemote (url : string).       (* [resolveRemote] entered *)

Record State : Type := mkState {
  trace : list Event;                          (* oldest first *)
  n_fetch : nat;                               (* calls of [fetch] so far *)
  n_random : nat;                              (* calls of [Math.random] *)
  n_clock : nat;                               (* calls of [Date.now] *)
  handleCache : JsMap.t (CacheEntry HandleResult);  (* [handleResolver.cache] *)
  didCache : JsMap.t (CacheEntry JSON)              (* [didCache] *)
}.

Definition initial_state : State :=
  mkState [] 0 0 0 JsMap.empty JsMap.empty.

Definition M (A : Type) : Type := Env -> State -> Res A * State.

Definition ret {A} (a : A) : M A := fun _ s => (Ok a, s).

Definition bind {A B} (m : M A) (k : A -> M B) : M B :=
  fun env s =>
    match m env s with
    | (Ok a, s') => k a env s'
    | (Throw e, s') => (Throw e, s')
    | (Spin, s') => (Spin, s')
    end.

Definition throw {A} (e : Exn) : M A := fun _ s => (Throw e, s).

(** [try { m } catch (error) { handler(error) }] *)
Definition try_catch {A} (m : M A) (handler : Exn -> M A) : M A :=
  fun env s =>
    match m env s with
    | (Throw e, s') => handler e env s'
    | r => r
    end.

(** A completion of pure code, as a computation *)
Definition lift {A} (r : Res A) : M A := fun _ s => (r, s).

Notation "x <- m ;; k" := (bind m (fun x => k))
  (at level 100, m at next level, right associativity) : js_scope.
Notation "m ;;; k" := (bind m (fun _ => k))
  (at level 100, right associativity) : js_scope.
Local Open Scope js_scope.

Definition get_state : M State := fun _ s => (Ok s, s).
Definition emit (ev : Event) : M unit :=
  fun _ s => (Ok tt, mkState (trace s ++ [ev])%list (n_fetch s) (n_random s)
                             (n_clock s) (handleCache s) (didCache s)).

(** [Date.now()] *)
Definition Date_now : M Z :=
  fun env s => (Ok (clock env (n_clock s)),
                mkState (trace s) (n_fetch s) (n_random s) (S (n_clock s))
                        (handleCache s) (didCache s)).

(** [Math.floor(Math.random() * n)] for [0 < n] *)
Definition random_index (n : nat) : M nat :=
  fun env s => (Ok (random env (n_random s) mod n),
                mkState (trace s) (n_fetch s) (S (n_random s)) (n_clock s)
                        (handleCache s) (didCache s)).

(** The state once one more request has left *)
Definition after_fetch (r : Request) (s : State) : State :=
  mkState (trace s ++ [EvFetch r])%list (S (n_fetch s)) (n_random s)
          (n_clock s) (handleCache s) (didCache s).

(** [fetch(url, {signal, ...})] with an abort timer of [req_timeout] *)
Definition fetch (r : Request) : M Response :=
  fun env s =>
    let s' := after_fetch r s in
    match net env (n_fetch s) r with
    | Fetched resp => (Ok resp, s')
    | Aborted => (Throw (mkExn "AbortError" "The operation was aborted."), s')
    | Failed msg => (Throw (TypeError msg), s')
    end.

(** [response.json()] *)
Definition json (r : Response) : M JSON :=
  match body_json r with
  | IsJson v => ret v
  | NotJson msg => throw (mkExn "SyntaxError" msg)
  end.

(** [response.text()] *)
Definition text (r : Response) : M string := ret (body_text r).

(** A mutation of the handle cache, of the DID cache *)
Definition update_handleCache
           (f : JsMap.t (CacheEntry HandleResult) -> JsMap.t (CacheEntry HandleResult))
  : M unit :=
  fun _ s => (Ok tt, mkState (trace s) (n_fetch s) (n_random s) (n_clock s)
                             (f (handleCache s)) (didCache s)).

Definition update_didCache
           (f : JsMap.t (CacheEntry JSON) -> JsMap.t (CacheEntry JSON))
  : M unit :=
  fun _ s => (Ok tt, mkState (trace s) (n_fetch s) (n_random s) (n_clock s)
                             (handleCache s) (f (didCache s))).

(* ------------------------------------------------------------------ *)
(** ** URL encoding *)
(* ------------------------------------------------------------------ *)

Module Url.

Definition hex_digit (n : nat) : ascii :=
  nth n (list_ascii_of_string "0123456789ABCDEF") "0"%char.

(** [%XX] for one byte *)
Definition percent (a : ascii) : string :=
  let n := nat_of_ascii a in
  String "%" (String (hex_digit (n / 16)) (String (hex_digit (n mod 16)) EmptyString)).

Definition is_alnum (a : ascii) : bool :=
  let n := nat_of_ascii a in
  ((48 <=? n) && (n <=? 57) || (65 <=? n) && (n <=? 90) ||
   (97 <=? n) && (n <=? 122))%nat.

Definition one_of (chars : string) (a : ascii) : bool :=
  existsb (Ascii.eqb a) (list_ascii_of_string chars).

Fixpoint encode_with (keep : ascii -> bool) (plus_for_space : bool)
         (s : string) : string :=
  match s with
  | EmptyString => EmptyString
  | String a r =>
      (if keep a then String a EmptyString
       else if plus_for_space && Ascii.eqb a " " then "+"
       else percent a) ++ encode_with keep plus_for_space r
  end.

(** [encodeURIComponent(s)]: everything but letters, digits and
    [- _ . ! ~ * ' ( )] is percent-encoded, byte by byte. *)
Definition encodeURIComponent (s : string) : string :=
  encode_with (fun a => is_alnum a || one_of "-_.!~*'()" a) false s.

(** The serialization of one [URLSearchParams] name or value
    (application/x-www-form-urlencoded). *)
Definition form_encode (s : string) : string :=
  encode_with (fun a => is_alnum a || one_of "*-._" a) true s.

End Url.

(* ------------------------------------------------------------------ *)
(** ** PDS endpoint catalogue (lib/config/pds-endpoints.js) *)
(* ------------------------------------------------------------------ *)

Record PdsEndpoints : Type := mkPdsEndpoints {
  primary : string;
  regions : list (string * list string);   (* in property order *)
  custom : list string
}.

Definition bsky_hosts (region : string) (names : list string) : list string :=
  map (fun n => n ++ "." ++ region ++ ".host.bsky.network") names.

Definition PDS_ENDPOINTS : PdsEndpoints :=
  {| primary := "https://public.api.bsky.app";
     regions :=
       [("usEast", bsky_hosts "us-east"
           ["amanita"; "blusher"; "coral"; "earthstar"; "elfcup"; "enoki";
            "helvella"; "inkcap"; "lionsmane"; "lobster"; "meadow"; "morel";
            "oyster"; "panthercap"; "parasol"; "porcini"; "puffball";
            "reishi"; "scarletina"; "shiitake"; "shimeji"; "splitgill";
            "truffle"; "velvetfoot"]);
        ("usWest", bsky_hosts "us-west"
           ["agaric"; "agrocybe"; "bankera"; "blewit"; "boletus"; "bracket";
            "brittlegill"; "button"; "calocybe"; "chaga"; "chanterelle";
            "conocybe"; "cordyceps"; "cortinarius"; "cremini"; "dapperling";
            "entoloma"; "fibercap"; "fuzzyfoot"; "ganoderma"; "goldenear";
            "gomphidius"; "gomphus"; "grisette"; "hebeloma"; "hedgehog";
            "hollowfoot"; "hydnum"; "hygrophorus"; "leccinum"; "lepista";
            "magic"; "maitake"; "matsutake"; "mazegill"; "milkcap";
            "mottlegill"; "mycena"; "oysterling"; "panus"; "pholiota";
            "pioppino"; "poisonpie"; "polypore"; "psathyrella"; "rooter";
            "russula"; "scalycap"; "shaggymane"; "stinkhorn"; "suillus";
            "verpa"; "waxcap"; "witchesbutter"; "woodear"; "woodtuft";
            "yellowfoot"])];
     custom := [] |}.

Section Endpoints.

(** The catalogue the three functions read (the global [PDS_ENDPOINTS]) *)
Variable cfg : PdsEndpoints.

Definition region_servers (region : string) : option (list string) :=
  match find (fun r => String.eqb (fst r) region) (regions cfg) with
  | Some r => Some (snd r)
  | None => None
  end.

(** A random server of one region, [null] for an unknown or empty one *)
Definition getRandomServer (region : string) : M (option string) :=
  match region_servers region with
  | None => ret None
  | Some servers =>
      if (List.length servers =? 0)%nat then ret None
      else (i <- random_index (List.length servers) ;;
            ret (nth_error servers i))
  end.

(** All servers of all regions, region after region *)
Definition getAllServers : list string :=
  concat (map snd (regions cfg)).

(** A random server among all, [null] when there is none *)
Definition getRandomServerFromAll : M (option string) :=
  let allServers := getAllServers in
  if (List.length allServers =? 0)%nat then ret None
  else (i <- random_index (List.length allServers) ;;
        ret (nth_error allServers i)).

End Endpoints.

(* ------------------------------------------------------------------ *)
(** ** Handle strategies *)
(* ------------------------------------------------------------------ *)

(** [isValidDid(did)], the same in the three strategies:
    [did && (did.startsWith('did:plc:') || did.startsWith('did:web:'))],
    as the condition it is used for. *)
Definition isValidDid (did : option JSON) : Res bool :=
  if negb (JsValue.truthy_opt did) then Ok false
  else match did with
       | Some (JStr s) =>
           Ok (JsString.startsWith s "did:plc:" || JsString.startsWith s "did:web:")
       | _ => Throw (TypeError "did.startsWith is not a function")
       end.

(** The [catch] clause shared by every timed fetch: an abort becomes an
    [Error] with the given message, anything else is thrown again. *)
Definition on_abort {A} (msg : string) (error : Exn) : M A :=
  if String.eqb (name error) "AbortError" then throw (Error msg)
  else throw error.

(** [options.timeout || dflt] *)
Definition timeout_or (t : option Z) (dflt : Z) : Z :=
  match t with
  | Some t => if (t =? 0)%Z then dflt else t
  | None => dflt
  end.

(** *** DNS-over-HTTPS (dns-resolver.js) *)

Module DnsHandleResolver.

Record Provider : Type := mkProvider {
  provider_name : string;
  provider_url : string;
  acceptHeader : string
}.

Definition DOH_PROVIDERS : list Provider :=
  [ mkProvider "Google" "https://dns.google/resolve" "application/dns-json";
    mkProvider "Cloudflare" "https://cloudflare-dns.com/dns-query"
               "application/dns-json" ].

Definition ATPROTO_PREFIX : string := "_atproto.".
Definition DID_PREFIX : string := "did=".

Record t : Type := new_ {
  timeout : Z;
  providers : list Provider
}.

(** The constructor *)
Definition new (timeout : option Z) (providers : option (list Provider)) : t :=
  new_ (timeout_or timeout 3000)
       (match providers with Some l => l | None => DOH_PROVIDERS end).

(** One turn of the loop over the answers: [Ok (Some r)] is [return r],
    [Ok None] goes on to the next answer. *)
Definition check_answer (data answer : JSON) : Res (option HandleResult) :=
  (ty <~ JsValue.prop (Some answer) "type" ;;
   if negb (JsValue.is_number ty 16) then Ok None
   else
     txt <~ JsValue.prop (Some answer) "data" ;;
     match txt with
     | Some (JStr txt) =>
         (* Remove quotes if present *)
         let txtData :=
           if JsString.startsWith txt JsString.dquote && JsString.endsWith txt JsString.dquote
           then JsString.slice_1_m1 txt else txt in
         (* Check for did= prefix *)
         if JsString.startsWith txtData DID_PREFIX then
           let did := JsString.substring_from (String.length DID_PREFIX) txtData in
           valid <~ isValidDid (Some (JStr did)) ;;
           if valid then
             p <~ JsValue.prop (Some data) "provider" ;;
             let provider := if JsValue.truthy_opt p
                             then match p with Some v => v | None => JNull end
                             else JStr "unknown" in
             Ok (Some (mkHandleResult did "dns" None (Some provider)))
           else Ok None
         else Ok None
     | None =>
         Throw (TypeError "Cannot read properties of undefined (reading 'startsWith')")
     | Some JNull =>
         Throw (TypeError "Cannot read properties of null (reading 'startsWith')")
     | Some _ => Throw (TypeError "txtData.startsWith is not a function")
     end)%js.

Fixpoint scan_answers (data : JSON) (answers : list JSON) (handle : string)
  : Res HandleResult :=
  match answers with
  | [] => Throw (Error ("No valid DID found in DNS records for handle: " ++ handle))
  | answer :: rest =>
      (found <~ check_answer data answer ;;
       match found with
       | Some r => Ok r
       | None => scan_answers data rest handle
       end)%js
  end.

Definition parseDnsResponse (data : JSON) (handle : string) : Res HandleResult :=
  (st <~ JsValue.prop (Some data) "Status" ;;
   (* Check DNS response status *)
   if negb (JsValue.is_number st 0) then
     if JsValue.is_number st 3 then
       Throw (Error ("No DNS record found for handle: " ++ handle))
     else Throw (Error ("DNS error: " ++ JsValue.to_string_opt st))
   else
     a <~ JsValue.prop (Some data) "Answer" ;;
     (* [data.Answer || []], then [for (const answer of answers)] *)
     if negb (JsValue.truthy_opt a) then scan_answers data [] handle
     else match a with
          | Some (JArr items) => scan_answers data items handle
          | Some (JStr _) =>
              (* the characters of a string have no [type] *)
              scan_answers data [] handle
          | _ => Throw (TypeError "answers is not iterable")
          end)%js.

(** [url.toString()] after the two [searchParams.set] *)
Definition query_url (p : Provider) (handle : string) : string :=
  provider_url p ++ "?name=" ++ Url.form_encode (ATPROTO_PREFIX ++ handle)
                 ++ "&type=" ++ Url.form_encode "TXT".

Definition queryProvider (self : t) (p : Provider) (handle : string)
  : M HandleResult :=
  try_catch
    (response <- fetch (mkRequest (query_url p handle) (Some (acceptHeader p))
                                  false (timeout self)) ;;
     if negb (ok response) then
       throw (Error ("DNS query failed: " ++ JsString.of_Z (status response)))
     else
       (data <- json response ;;
        lift (parseDnsResponse data handle)))
    (on_abort "DNS query timeout").

(** [providers.map(p => this.queryProvider(p, handle).catch(() => null))]
    followed by [Promise.allSettled]: every provider is queried, the
    requests leaving in the order of the list. *)
Fixpoint query_all (self : t) (ps : list Provider) (handle : string)
  : M (list (option HandleResult)) :=
  match ps with
  | [] => ret []
  | p :: rest =>
      r <- try_catch (x <- queryProvider self p handle ;; ret (Some x))
                     (fun _ => ret None) ;;
      rs <- query_all self rest handle ;;
      ret (r :: rs)
  end.

Definition first_value (results : list (option HandleResult))
  : option HandleResult :=
  match find (fun r => match r with Some _ => true | None => false end) results with
  | Some r => r
  | None => None
  end.

Definition resolve (self : t) (handle : string) : M HandleResult :=
  results <- query_all self (providers self) handle ;;
  match first_value results with
  | Some r => ret r
  | None => throw (Error ("DNS resolution failed for handle: " ++ handle))
  end.

End DnsHandleResolver.

(** *** Well-known (wellknown-resolver.js) *)

Module WellKnownHandleResolver.

Record t : Type := new_ { timeout : Z }.

Definition new (timeout : option Z) : t := new_ (timeout_or timeout 3000).

Definition parseResponse (text handle : string) : Res string :=
  (* Response should be a single line with the DID *)
  let did := nth 0 (JsString.split "010"%char (JsString.trim text)) EmptyString in
  if negb (JsString.truthy did) then
    Throw (Error ("Empty well-known response for handle: " ++ handle))
  else
    (valid <~ isValidDid (Some (JStr did)) ;;
     if valid then Ok did
     else Throw (Error ("Invalid DID in well-known response: " ++ did)))%js.

Definition resolve (self : t) (handle : string) : M HandleResult :=
  try_catch
    (let url := "https://" ++ handle ++ "/.well-known/atproto-did" in
     response <- fetch (mkRequest url (Some "text/plain") true (timeout self)) ;;
     if ((300 <=? status response) && (status response <? 400))%Z then
       throw (Error "Redirects not allowed for well-known resolution")
     else if negb (ok response) then
       if (status response =? 404)%Z then
         throw (Error ("No well-known record found for handle: " ++ handle))
       else
         throw (Error ("HTTP " ++ JsString.of_Z (status response)
                               ++ ": Failed to fetch well-known"))
     else
       (txt <- text response ;;
        did <- lift (parseResponse txt handle) ;;
        ret (mkHandleResult did "wellknown" None None)))
    (on_abort "Well-known fetch timeout").

End WellKnownHandleResolver.

(** *** XRPC directory with regional fall-back (xrpc-resolver.js) *)

Module XrpcHandleResolver.

(** [getAllServers] and [getRandomServerFromAll] are the global functions
    of the catalogue, which read the same object as [pdsEndpoints]. *)
Record t : Type := new_ {
  timeout : Z;
  pdsEndpoints : PdsEndpoints
}.

Definition new (timeout : option Z) (pdsEndpoints : option PdsEndpoints) : t :=
  new_ (timeout_or timeout 5000)
       (match pdsEndpoints with Some c => c | None => PDS_ENDPOINTS end).

Definition parseResponse (data : JSON) (handle : string) : Res string :=
  match data with
  | JArr _ | JObj _ =>
      (did <~ JsValue.prop (Some data) "did" ;;
       if negb (JsValue.truthy_opt did) then
         Throw (Error ("No DID in XRPC response for handle: " ++ handle))
       else
         valid <~ isValidDid did ;;
         if valid then
           match did with
           | Some (JStr s) => Ok s
           | _ => Throw (TypeError "did.startsWith is not a function")
           end
         else
           Throw (Error ("Invalid DID in XRPC response: "
                           ++ JsValue.to_string_opt did)))%js
  | _ =>
      (* [!data || typeof data !== 'object'] *)
      Throw (Error ("Invalid XRPC response for handle: " ++ handle))
  end.

Definition query_url (baseUrl handle : string) : string :=
  baseUrl ++ "/xrpc/com.atproto.identity.resolveHandle?handle="
          ++ Url.encodeURIComponent handle.

Definition queryEndpoint (self : t) (baseUrl handle : string) : M HandleResult :=
  try_catch
    (response <- fetch (mkRequest (query_url baseUrl handle)
                                  (Some "application/json") false (timeout self)) ;;
     if negb (ok response) then
       if (status response =? 400)%Z then
         (* [await response.json().catch(() => ({}))] *)
         (error <- try_catch (json response) (fun _ => ret (JObj [])) ;;
          code <- lift (JsValue.prop (Some error) "error") ;;
          if JsValue.is_string code "InvalidHandle" then
            throw (Error ("Invalid handle format: " ++ handle))
          else
            throw (Error ("Handle not found: " ++ handle)))
       else
         throw (Error ("HTTP " ++ JsString.of_Z (status response)
                               ++ ": XRPC query failed"))
     else
       (data <- json response ;;
        did <- lift (parseResponse data handle) ;;
        ret (mkHandleResult did "xrpc" (Some baseUrl) None)))
    (on_abort "XRPC query timeout").

(** [try { const result = await query; if (result) return result; }
     catch (error) { }]: [Some] is the [return], [None] falls through
    (a result object is always truthy). *)
Definition attempt (query : M HandleResult) : M (option HandleResult) :=
  try_catch (result <- query ;; ret (Some result)) (fun _ => ret None).

(** [triedServers.has(server)], where [server] may be [null] *)
Definition tried_has (server : option string) (tried : JsSet.t) : bool :=
  match server with
  | Some sv => JsSet.has sv tried
  | None => false
  end.

(** The [do ... while] that draws a server not tried yet.  It runs as long
    as the generator returns servers already tried, so it takes fuel. *)
Fixpoint draw_untried (fuel : nat) (self : t) (tried : JsSet.t)
  : M (option string) :=
  match fuel with
  | O => lift Spin
  | S fuel' =>
      server <- getRandomServerFromAll (pdsEndpoints self) ;;
      if tried_has server tried &&
         (JsSet.size tried <? List.length (getAllServers (pdsEndpoints self)))%nat
      then draw_untried fuel' self tried
      else ret server
  end.

Definition failed {A} (handle : string) : M A :=
  throw (Error ("XRPC resolution failed for handle: " ++ handle)).

(** The [for] loop, with [remaining = attempts - i] turns to go *)
Fixpoint pool_loop (fuel : nat) (self : t) (handle : string)
         (remaining : nat) (tried : JsSet.t) : M HandleResult :=
  match remaining with
  | O => failed handle
  | S remaining' =>
      server <- draw_untried fuel self tried ;;
      match server with
      | None => failed handle                                  (* [break] *)
      | Some sv =>
          if negb (JsString.truthy sv) || JsSet.has sv tried then
            failed handle                                      (* [break] *)
          else
            let tried' := JsSet.add sv tried in
            r <- attempt (queryEndpoint self ("https://" ++ sv) handle) ;;
            match r with
            | Some result => ret result
            | None => pool_loop fuel self handle remaining' tried'
            end
      end
  end.

(** What follows the primary endpoint *)
Definition try_pool (fuel : nat) (self : t) (handle : string) : M HandleResult :=
  let allServers := getAllServers (pdsEndpoints self) in
  if (List.length allServers =? 0)%nat then
    throw (Error "No PDS servers available")
  else
    let attempts := Nat.min 5 (List.length allServers) in
    pool_loop fuel self handle attempts JsSet.empty.

Definition resolve (fuel : nat) (self : t) (handle : string) : M HandleResult :=
  r <- attempt (queryEndpoint self (primary (pdsEndpoints self)) handle) ;;
  match r with
  | Some result => ret result
  | None => try_pool fuel self handle
  end.

End XrpcHandleResolver.

(* ------------------------------------------------------------------ *)
(** ** Unified handle resolver (handle-resolvers/index.js) *)
(* ------------------------------------------------------------------ *)

(** Of the two versions of the file this is the later one, which skips DNS
    and well-known for the handles of [.bsky.social]; the earlier one is
    the same code without [isBskyHandle]. *)
Module UnifiedHandleResolver.

(** The resolver object; its [cache] is [handleCache] of the state. *)
Record t : Type := new_ {
  dnsResolver : DnsHandleResolver.t;
  wellKnownResolver : WellKnownHandleResolver.t;
  xrpcResolver : XrpcHandleResolver.t;
  cacheTTL : Z
}.

(** The constructor, from the [timeout] of each strategy and [cacheTTL] *)
Definition new (dns wellKnown xrpc cacheTTL : option Z) : t :=
  new_ (DnsHandleResolver.new dns None)
       (WellKnownHandleResolver.new wellKnown)
       (XrpcHandleResolver.new xrpc None)
       (timeout_or cacheTTL (5 * 60 * 1000)).

Definition getFromCache (self : t) (handle : string) : M (option HandleResult) :=
  s <- get_state ;;
  match JsMap.get handle (handleCache s) with
  | None => ret None
  | Some cached =>
      now <- Date_now ;;
      if (cacheTTL self <? now - timestamp cached)%Z then
        (update_handleCache (JsMap.delete handle) ;;;
         ret None)
      else ret (Some (value cached))
  end.

(** [entries.sort((a, b) => a[1].timestamp - b[1].timestamp)]: ascending
    by time stamp, entries of equal time stamp keeping their order. *)
Fixpoint insert_by_timestamp {T} (e : string * CacheEntry T)
         (l : list (string * CacheEntry T)) : list (string * CacheEntry T) :=
  match l with
  | [] => [e]
  | x :: r =>
      if (timestamp (snd e) <=? timestamp (snd x))%Z then e :: x :: r
      else x :: insert_by_timestamp e r
  end.

Fixpoint sort_by_timestamp {T} (l : list (string * CacheEntry T))
  : list (string * CacheEntry T) :=
  match l with
  | [] => []
  | e :: r => insert_by_timestamp e (sort_by_timestamp r)
  end.

(** [Math.floor(n * 0.2)].  For every [n] a cache can hold the double
    [n * 0.2] lies in [[n/5, n/5 + 1)], so its floor is the quotient. *)
Definition floor_20_percent (n : nat) : nat := n / 5.

(** [for (i = 0; i < toRemove; i++) cache.delete(entries[i][0])] *)
Definition delete_all {T} (victims : list (string * CacheEntry T))
           (cache : JsMap.t (CacheEntry T)) : JsMap.t (CacheEntry T) :=
  fold_left (fun c e => JsMap.delete (fst e) c) victims cache.

(** The entries evicted from a cache that has grown past its limit *)
Definition evicted {T} (cache : JsMap.t (CacheEntry T))
  : list (string * CacheEntry T) :=
  let entries := sort_by_timestamp (JsMap.entries cache) in
  let toRemove := floor_20_percent (List.length entries) in
  firstn toRemove entries.

(** [if (this.cache.size > 1000) { ... }] *)
Definition limit_size {T} (cache : JsMap.t (CacheEntry T)) : JsMap.t (CacheEntry T) :=
  if (1000 <? JsMap.size cache)%nat then delete_all (evicted cache) cache
  else cache.

Definition cacheResult (handle : string) (result : HandleResult) : M unit :=
  now <- Date_now ;;
  update_handleCache (JsMap.set handle (mkEntry result now)) ;;;
  (* Limit cache size to prevent memory issues *)
  update_handleCache limit_size.

Definition clearCache : M unit := update_handleCache (fun _ => JsMap.empty).

(** One strategy inside its [try]/[catch]: the result, or the entry pushed
    on [errors]. *)
Definition strategy (method : string) (m : M HandleResult)
  : M (HandleResult + string * string) :=
  try_catch (r <- m ;; ret (inl r))
            (fun error => ret (inr (method, message error))).

(** [errors.map(e => `${e.method}: ${e.error}`).join(', ')] *)
Definition errorDetails (errors : list (string * string)) : string :=
  JsString.join ", " (map (fun e => fst e ++ ": " ++ snd e) errors).

Definition resolve (fuel : nat) (self : t) (handle : string) : M HandleResult :=
  cached <- getFromCache self handle ;;
  match cached with
  | Some c => ret c
  | None =>
      let isBskyHandle := JsString.endsWith handle ".bsky.social" in
      (* DNS, skipped for bsky.social *)
      st1 <- (if negb isBskyHandle then
                r <- strategy "dns" (DnsHandleResolver.resolve (dnsResolver self) handle) ;;
                match r with
                | inl res => ret (Some res, [])
                | inr e => ret (None, [e])
                end
              else ret (None, [])) ;;
      (* well-known, also skipped for bsky.social *)
      st2 <- (match st1 with
              | (None, errors) =>
                  if negb isBskyHandle then
                    r <- strategy "wellknown"
                           (WellKnownHandleResolver.resolve (wellKnownResolver self) handle) ;;
                    match r with
                    | inl res => ret (Some res, errors)
                    | inr e => ret (None, (errors ++ [e])%list)
                    end
                  else ret st1
              | _ => ret st1
              end) ;;
      (* XRPC as last resort *)
      st3 <- (match st2 with
              | (None, errors) =>
                  r <- strategy "xrpc"
                         (XrpcHandleResolver.resolve fuel (xrpcResolver self) handle) ;;
                  match r with
                  | inl res => ret (Some res, errors)
                  | inr e => ret (None, (errors ++ [e])%list)
                  end
              | _ => ret st2
              end) ;;
      match st3 with
      | (None, errors) =>
          throw (Error ("Failed to resolve handle " ++ JsString.dquote ++ handle ++ JsString.dquote ++ " - "
                          ++ errorDetails errors))
      | (Some result, _) =>
          cacheResult handle result ;;;
          ret result
      end
  end.

End UnifiedHandleResolver.

(* ------------------------------------------------------------------ *)
(** ** The resolver (atpi-resolver.js) *)
(* ------------------------------------------------------------------ *)

Definition DEFAULT_TIMEOUT : Z := 30000.
Definition DEFAULT_BASE_URL : string := "https://atpi.".
Definition CACHE_TTL : Z := 5 * 60 * 1000.

(** The unified handle resolver the module creates when it is loaded *)
Definition handleResolver : UnifiedHandleResolver.t :=
  UnifiedHandleResolver.new (Some 3000%Z) (Some 3000%Z) (Some 5000%Z)
                            (Some (5 * 60 * 1000)%Z).

(** The [options] of [resolve]; [None] is a property that is absent. *)
Record Options : Type := mkOptions {
  mode : option string;
  timeout : option Z;
  baseUrl : option string
}.

(** [const { timeout = DEFAULT_TIMEOUT } = options] *)
Definition timeout_of (options : Options) : Z :=
  match timeout options with
  | Some t => t
  | None => DEFAULT_TIMEOUT
  end.

Definition resolveHandle (fuel : nat) (handle : string) (timeout : Z) : M string :=
  try_catch
    (result <- UnifiedHandleResolver.resolve fuel handleResolver handle ;;
     ret (did result))
    (fun error =>
       if JsString.includes (message error) "Failed to resolve handle" then
         throw (Error ("Handle " ++ JsString.dquote ++ handle ++ JsString.dquote
                                 ++ " not found - user may not exist"))
       else throw error).

(** [fetchWithTimeout(url, { timeout, ...fetchOptions })] *)
Definition fetchWithTimeout (url : string) (timeout : Z) (accept : option string)
  : M Response :=
  try_catch (fetch (mkRequest url accept false timeout))
            (on_abort "Request timeout").

(** [data.service?.find(s => s.type === 'AtprotoPersonalDataServer')] *)
Fixpoint find_pds (services : list JSON) : Res (option JSON) :=
  match services with
  | [] => Ok None
  | s :: rest =>
      (ty <~ JsValue.prop (Some s) "type" ;;
       if JsValue.is_string ty "AtprotoPersonalDataServer" then Ok (Some s)
       else find_pds rest)%js
  end.

Definition find_service (data : JSON) : Res (option JSON) :=
  (service <~ JsValue.prop (Some data) "service" ;;
   match service with
   | None | Some JNull => Ok None
   | Some (JArr services) => find_pds services
   | Some _ => Throw (TypeError "data.service?.find is not a function")
   end)%js.

(** [service?.serviceEndpoint] *)
Definition service_endpoint (service : option JSON) : Res (option JSON) :=
  match service with
  | None => Ok None
  | Some s => JsValue.prop (Some s) "serviceEndpoint"
  end.

Definition resolveDid (did : string) (timeout : Z) : M JSON :=
  s <- get_state ;;
  (* Check cache *)
  hit <- (match JsMap.get did (didCache s) with
          | None => ret None
          | Some cached =>
              now <- Date_now ;;
              if (now - timestamp cached <? CACHE_TTL)%Z
              then ret (Some (value cached)) else ret None
          end) ;;
  match hit with
  | Some serviceEndpoint => ret serviceEndpoint
  | None =>
      if JsString.startsWith did "did:plc:" then
        (* For plc DIDs, use plc.directory *)
        response <- fetchWithTimeout ("https://plc.directory/" ++ did) timeout None ;;
        if negb (ok response) then
          throw (Error ("DID " ++ JsString.dquote ++ did ++ JsString.dquote
                               ++ " not found or inaccessible"))
        else
          (data <- json response ;;
           service <- lift (find_service data) ;;
           ep <- lift (service_endpoint service) ;;
           match ep with
           | Some serviceEndpoint =>
               if JsValue.truthy serviceEndpoint then
                 (now <- Date_now ;;
                  update_didCache (JsMap.set did (mkEntry serviceEndpoint now)) ;;;
                  ret serviceEndpoint)
               else throw (Error "No AT Protocol server found for this DID")
           | None => throw (Error "No AT Protocol server found for this DID")
           end)
      else if JsString.startsWith did "did:web:" then
        (* For web DIDs, extract from the DID itself *)
        let domain := JsString.replaceAll ":" "/" (JsString.substring_from 8 did) in
        ret (JStr ("https://" ++ domain))
      else
        throw (Error ("Unsupported DID method: " ++ did))
  end.

(** The error thrown for a response that is not [ok]; [server_error] is the
    message for a status of 500 and more. *)
Definition status_error (server_error : string) (st : Z) : Exn :=
  if (st =? 400)%Z then Error "Invalid AT Protocol URL or record not found"
  else if (st =? 404)%Z then Error "Record not found at this AT Protocol URL"
  else if ((st =? 401) || (st =? 403))%Z then
    Error "Access denied - this record may be private"
  else if (500 <=? st)%Z then Error server_error
  else Error ("Failed to resolve URL (HTTP " ++ JsString.of_Z st ++ ")").

(** Truthiness of [parsed.collection] and [parsed.rkey] *)
Definition truthy_part (p : option string) : bool :=
  match p with
  | Some s => JsString.truthy s
  | None => false
  end.

Definition part_text (p : option string) : string :=
  match p with
  | Some s => s
  | None => "null"
  end.

(** The XRPC URL of the record, of the listing or of the repository *)
Definition xrpcUrl (serviceEndpoint : JSON) (did : string) (parsed : ParsedUrl)
  : string :=
  let base := JsValue.to_string serviceEndpoint in
  if truthy_part (collection parsed) && truthy_part (rkey parsed) then
    base ++ "/xrpc/com.atproto.repo.getRecord?repo=" ++ did
         ++ "&collection=" ++ part_text (collection parsed)
         ++ "&rkey=" ++ part_text (rkey parsed)
  else if truthy_part (collection parsed) then
    base ++ "/xrpc/com.atproto.repo.listRecords?repo=" ++ did
         ++ "&collection=" ++ part_text (collection parsed) ++ "&limit=50"
  else
    base ++ "/xrpc/com.atproto.repo.describeRepo?repo=" ++ did.

Definition resolveLocal (fuel : nat) (url : string) (options : Options) : M JSON :=
  emit (EvLocal url) ;;;
  let timeout := timeout_of options in
  parsed <- lift (validateUrl url) ;;
  let identifier := parseIdentifier (identifier parsed) in
  (* Resolve handle to DID if needed *)
  did <- (match id_type identifier with
          | THandle => resolveHandle fuel (id_value identifier) timeout
          | TDid => ret (id_value identifier)
          end) ;;
  (* Resolve DID to service endpoint *)
  serviceEndpoint <- resolveDid did timeout ;;
  response <- fetchWithTimeout (xrpcUrl serviceEndpoint did parsed) timeout None ;;
  if negb (ok response) then
    throw (status_error "Server error - the AT Protocol service is unavailable"
                        (status response))
  else json response.

(** The replacement text of [url.replace(/^at:\/\//, replacement)]: there is
    no capture group, so only [$$], [$&], [$`] and [$'] are special. *)
Fixpoint substitution (replacement matched rest : string) : string :=
  match replacement with
  | EmptyString => EmptyString
  | String "$" (String "$" r) => "$" ++ substitution r matched rest
  | String "$" (String "&" r) => matched ++ substitution r matched rest
  | String "$" (String "`" r) => substitution r matched rest
  | String "$" (String "'" r) => rest ++ substitution r matched rest
  | String a r => String a (substitution r matched rest)
  end.

Definition transformUrl (url base : string) : string :=
  if JsString.startsWith url "at://" then
    let rest := JsString.substring_from 5 url in
    substitution (base ++ "at://") "at://" rest ++ rest
  else url.

Definition resolveRemote (url : string) (options : Options) : M JSON :=
  emit (EvRemote url) ;;;
  let timeout := timeout_of options in
  let baseUrl := match baseUrl options with
                 | Some b => b
                 | None => DEFAULT_BASE_URL
                 end in
  (* Transform at:// to https://atpi.at:// *)
  let transformedUrl := transformUrl url baseUrl in
  response <- fetchWithTimeout transformedUrl timeout (Some "application/json") ;;
  if negb (ok response) then
    throw (status_error "ATPI service error - please try again later"
                        (status response))
  else json response.

(** Main resolver function *)
Definition resolve (fuel : nat) (url : string) (options : Options) : M JSON :=
  let mode := match mode options with
              | Some m => m
              | None => "local"
              end in
  if String.eqb mode "remote" then resolveRemote url options
  else if String.eqb mode "local" then
    (* In local mode, never fall back to remote *)
    resolveLocal fuel url options
  else
    (* Auto mode: try local first, fallback to remote *)
    try_catch (resolveLocal fuel url options)
              (fun _ => resolveRemote url options).

Definition clearCaches : M unit :=
  update_didCache (fun _ => JsMap.empty) ;;;
  UnifiedHandleResolver.clearCache.

(* ------------------------------------------------------------------ *)
(** ** Sample environments and states *)
(* ------------------------------------------------------------------ *)

Definition quote (s : string) : string := JsString.dquote ++ s ++ JsString.dquote.

(** A server that answers 500 with an empty body *)
Definition server_error : Response :=
  mkResponse 500 EmptyString (NotJson "Unexpected end of JSON input").

(** The answer of a directory to a handle it finds malformed *)
Definition invalid_handle_body : JSON :=
  JObj [("error", JStr "InvalidHandle"); ("message", JStr "Invalid handle")].

(** [JSON.stringify(v)], for values whose strings need no escaping *)
Fixpoint stringify (v : JSON) : string :=
  match v with
  | JNull => "null"
  | JBool true => "true"
  | JBool false => "false"
  | JNum n => JsString.of_Z n
  | JStr s => quote s
  | JArr items => "[" ++ JsString.join "," (map stringify items) ++ "]"
  | JObj fields =>
      "{" ++ JsString.join ","
               (map (fun kv : string * JSON =>
                       let (k, x) := kv in quote k ++ ":" ++ stringify x)
                    fields)
          ++ "}"
  end.

(** A response whose body is the text of a JSON value *)
Definition json_response (st : Z) (v : JSON) : Response :=
  mkResponse st (stringify v) (IsJson v).

Definition invalid_handle : Response := json_response 400 invalid_handle_body.

(** Every request fails with a 500; the [i]-th random draw is [i]. *)
Definition env_all_fail : Env :=
  mkEnv (fun _ _ => Fetched server_error) (fun i => i) (fun i => Z.of_nat i).

(** Every directory rejects the handle as invalid. *)
Definition env_invalid_handle : Env :=
  mkEnv (fun _ _ => Fetched invalid_handle) (fun i => i) (fun i => Z.of_nat i).

(** A world in which [alice.test] resolves: its DNS record names a DID, the
    directory names the server of that DID, and the server has the record. *)
Definition alice_dns : JSON :=
  JObj [("Status", JNum 0);
        ("Answer", JArr [JObj [("name", JStr "_atproto.alice.test");
                               ("type", JNum 16);
                               ("data", JStr (quote "did=did:plc:abc123"))]])].

Definition alice_did_document : JSON :=
  JObj [("id", JStr "did:plc:abc123");
        ("service", JArr [JObj [("id", JStr "#atproto_pds");
                                ("type", JStr "AtprotoPersonalDataServer");
                                ("serviceEndpoint", JStr "https://pds.alice.test")]])].

Definition alice_record : JSON :=
  JObj [("uri", JStr "at://did:plc:abc123/app.bsky.feed.post/xyz");
        ("value", JObj [("text", JStr "hello")])].

Definition env_alice : Env :=
  mkEnv (fun _ r =>
           let url := req_url r in
           if JsString.startsWith url "https://dns.google/resolve?name=_atproto.alice.test"
           then Fetched (json_response 200 alice_dns)
           else if JsString.startsWith url "https://plc.directory/did:plc:abc123"
           then Fetched (json_response 200 alice_did_document)
           else if JsString.startsWith url "https://pds.alice.test/xrpc/com.atproto.repo.getRecord"
           then Fetched (json_response 200 alice_record)
           else Fetched server_error)
        (fun i => i) (fun i => Z.of_nat (1000 * i)).

(** A result to fill caches with *)
Definition sample_result : HandleResult :=
  mkHandleResult "did:plc:abc123" "dns" None (Some (JStr "unknown")).

(** A cache of [n] handles, the [i]-th one stored at time [ts i] *)
Definition numbered_cache (ts : nat -> Z) (n : nat)
  : JsMap.t (CacheEntry HandleResult) :=
  map (fun i => ("user" ++ JsString.of_Z (Z.of_nat i) ++ ".test",
                 mkEntry sample_result (ts i)))
      (seq 0 n).

Definition with_handleCache (c : JsMap.t (CacheEntry HandleResult)) (s : State)
  : State :=
  mkState (trace s) (n_fetch s) (n_random s) (n_clock s) c (didCache s).

Definition options_of_mode (m : option string) : Options :=
  mkOptions m None None.

(** A full handle cache: 1000 handles, stored one per millisecond *)
Definition full_cache : JsMap.t (CacheEntry HandleResult) :=
  numbered_cache Z.of_nat 1000.

Definition full_state : State := with_handleCache full_cache initial_state.

(* ------------------------------------------------------------------ *)
(** ** Vocabulary of the properties *)
(* ------------------------------------------------------------------ *)

(** The steps of a computation stay inside the relation [T]: whatever the
    environment and the state it starts from, the state it ends in is
    related to the one it started from. *)
Definition steps (T : State -> State -> Prop) {A : Type} (m : M A) : Prop :=
  forall env s r s', m env s = (r, s') -> T s s'.

(** [k] is the key of one of the entries [l] *)
Definition mem_key {V : Type} (k : string) (l : list (string * V)) : bool :=
  existsb (fun e => String.eqb (fst e) k) l.

(** [a] was stored no later than [b] *)
Definition older {V : Type} (a b : string * CacheEntry V) : Prop :=
  (timestamp (snd a) <= timestamp (snd b))%Z.

(** The strings of a list are pairwise distinct *)
Fixpoint distinct (l : list string) : bool :=
  match l with
  | [] => true
  | x :: r => negb (existsb (String.eqb x) r) && distinct r
  end.

Definition is_remote (ev : Event) : bool :=
  match ev with
  | EvRemote _ => true
  | _ => false
  end.

(** From [s] to [s'] the trace grew, and by no entry into [resolveRemote]. *)
Definition local_only (s s' : State) : Prop :=
  exists evs, trace s' = (trace s ++ evs)%list /\
              forallb (fun ev => negb (is_remote ev)) evs = true.

(** Every key of the DID cache is a [did:plc:] identifier. *)
Definition didCache_plc (s : State) : Prop :=
  Forall (fun k => JsString.startsWith k "did:plc:" = true)
         (JsMap.keys (didCache s)).

(** The caches between two calls of the engine: maps with distinct keys, the
    handle cache within its limit, the DID cache holding [did:plc:] keys. *)
Definition caches_wf (s : State) : Prop :=
  didCache_plc s /\ JsMap.wf (didCache s) /\
  JsMap.wf (handleCache s) /\ (JsMap.size (handleCache s) <= 1000)%nat.

Definition keeps_caches_wf (s s' : State) : Prop := caches_wf s -> caches_wf s'.

(** The request [queryEndpoint] sends to a host *)
Definition xrpc_request (self : XrpcHandleResolver.t) (baseUrl handle : string)
  : Request :=
  mkRequest (XrpcHandleResolver.query_url baseUrl handle)
            (Some "application/json") false (XrpcHandleResolver.timeout self).

(** The requests sent to the servers of the pool, one after the other *)
Definition pool_requests (self : XrpcHandleResolver.t) (handle : string)
           (servers : list string) : list Event :=
  map (fun sv => EvFetch (xrpc_request self ("https://" ++ sv) handle)) servers.

(** A 400 whose body signals an invalid handle *)
Definition invalid_handle_response (r : Response) : Prop :=
  status r = 400%Z /\
  exists v, body_json r = IsJson v /\
            JsValue.prop (Some v) "error" = Ok (Some (JStr "InvalidHandle")).

(** The directory strategy stops at a primary endpoint that reports an
    invalid handle: it throws the error of that answer and no other host is
    queried. *)
Definition stops_on_invalid_handle (fuel : nat) (self : XrpcHandleResolver.t)
           (handle : string) (env : Env) (s : State) : Prop :=
  forall resp,
    net env (n_fetch s) (xrpc_request self (primary (XrpcHandleResolver.pdsEndpoints self)) handle)
    = Fetched resp ->
    invalid_handle_response resp ->
    XrpcHandleResolver.resolve fuel self handle env s =
    (Throw (Error ("Invalid handle format: " ++ handle)),
     after_fetch (xrpc_request self (primary (XrpcHandleResolver.pdsEndpoints self)) handle) s).

(** The state keeps its trace *)
Definition same_trace (s s' : State) : Prop := trace s' = trace s.

(* ------------------------------------------------------------------ *)
(** ** The service worker (background/service-worker.js) *)
(* ------------------------------------------------------------------ *)

(** The message a content script sends: [{type, url, mode}] *)
Record Message : Type := mkMessage {
  msg_type : string;
  msg_url : string;
  msg_mode : option string
}.

(** What [handleUrlResolution] returns: [{data, mode, timestamp}], the
    [mode] being the one of the message, absent if it was. *)
Record Resolution : Type := mkResolution {
  res_data : JSON;
  res_mode : option string;
  res_timestamp : Z
}.

(** What [sendResponse] is called with: a resolution or [{error}] *)
Inductive Reply : Type :=
| Resolved (r : Resolution)
| Failure (error : string).

(** [mode || 'local'] *)
Definition mode_or_local (mode : option string) : string :=
  match mode with
  | Some m => if JsString.truthy m then m else "local"
  | None => "local"
  end.

(** The later version of the worker, with a timeout of 10 seconds; the
    clock is read for the durations that are logged.  [log] itself does
    nothing while [DEBUG] is off, which it is unless the user turns it on. *)
Definition handleUrlResolution (fuel : nat) (url : string) (mode : option string)
  : M Resolution :=
  startTime <- Date_now ;;
  try_catch
    (data <- resolve fuel url (mkOptions (Some (mode_or_local mode))
                                         (Some 10000%Z) None) ;;
     now <- Date_now ;;
     timestamp <- Date_now ;;
     ret (mkResolution data mode timestamp))
    (fun error =>
       now <- Date_now ;;
       throw error).

(** The listener of [chrome.runtime.onMessage], with the resolver loaded:
    [None] when the message is not for it and nothing is sent back. *)
Definition onMessage (fuel : nat) (request : Message) : M (option Reply) :=
  if String.eqb (msg_type request) "RESOLVE_URL" then
    try_catch
      (result <- handleUrlResolution fuel (msg_url request) (msg_mode request) ;;
       ret (Some (Resolved result)))
      (fun error => ret (Some (Failure (message error))))
  else ret None.

(* ------------------------------------------------------------------ *)
(** ** More vocabulary *)
(* ------------------------------------------------------------------ *)

(** The state once the clock has been read once more *)
Definition after_clock (s : State) : State :=
  mkState (trace s) (n_fetch s) (n_random s) (S (n_clock s))
          (handleCache s) (didCache s).

(** One of the two DID methods the engine supports *)
Definition supported_did (d : string) : bool :=
  JsString.startsWith d "did:plc:" || JsString.startsWith d "did:web:".

(** Every result in the handle cache names a supported DID. *)
Definition handleCache_valid (s : State) : Prop :=
  Forall (fun e => supported_did (did (value (snd e))) = true) (handleCache s).

(** A computation sends at most [k] requests. *)
Definition fetches_at_most (k : nat) {A : Type} (m : M A) : Prop :=
  forall env s r s', m env s = (r, s') -> (n_fetch s' <= n_fetch s + k)%nat.

(** What a computation returns, when it returns, satisfies [P]. *)
Definition returns {A : Type} (P : A -> Prop) (m : M A) : Prop :=
  forall env s a s', m env s = (Ok a, s') -> P a.

(** The relations "same handle cache", "same DID cache", "same caches" *)
Definition same_handleCache (s s' : State) : Prop :=
  handleCache s' = handleCache s.

Definition same_caches (s s' : State) : Prop :=
  handleCache s' = handleCache s /\ didCache s' = didCache s.

(** The requests of the DNS strategy, one per provider *)
Definition dns_requests (self : DnsHandleResolver.t) (handle : string)
  : list Event :=
  map (fun p => EvFetch (mkRequest (DnsHandleResolver.query_url p handle)
                                   (Some (DnsHandleResolver.acceptHeader p))
                                   false (DnsHandleResolver.timeout self)))
      (DnsHandleResolver.providers self).

(** A world in which the primary endpoint of the directory knows every
    handle, and nothing else answers. *)
Definition env_directory : Env :=
  mkEnv (fun _ r =>
           if JsString.startsWith (req_url r) "https://public.api.bsky.app/xrpc/"
           then Fetched (json_response 200 (JObj [("did", JStr "did:plc:abc123")]))
           else Fetched server_error)
        (fun i => i) (fun i => Z.of_nat (1000 * i)).

(** A state whose caches hold [alice.test] and its DID, stored at time 0 *)
Definition alice_cached : State :=
  mkState [] 0 0 0
          [("alice.test", mkEntry sample_result 0%Z)]
          [("did:plc:abc123", mkEntry (JStr "https://pds.alice.test") 0%Z)].

(* ------------------------------------------------------------------ *)
(** ** Predicates on computations and further states *)
(* ------------------------------------------------------------------ *)

(** A result that names a DID of a supported method *)
Definition supported_result (r : HandleResult) : Prop :=
  supported_did (did r) = true.

(** [keeps_valid P m]: run from a handle cache whose DIDs are all of a
    supported method, [m] leaves such a cache and what it returns has [P]. *)
Definition keeps_valid {A} (P : A -> Prop) (m : M A) : Prop :=
  forall env s r s',
    handleCache_valid s -> m env s = (r, s') ->
    handleCache_valid s' /\ (forall a, r = Ok a -> P a).

(** The [result] and [errors] of the unified resolver between two
    strategies, the result naming a supported DID if there is one *)
Definition found_supported (st : option HandleResult * list (string * string))
  : Prop :=
  forall r, fst st = Some r -> supported_result r.

(** [throws P m]: an exception [m] ends with has [P]. *)
Definition throws {A} (P : Exn -> Prop) (m : M A) : Prop :=
  forall env s e s', m env s = (Throw e, s') -> P e.

(** The error of the unified resolver, whatever its details *)
Definition unresolved (handle : string) (e : Exn) : Prop :=
  exists details,
    e = Error ("Failed to resolve handle " ++ JsString.dquote ++ handle
                 ++ JsString.dquote ++ " - " ++ details).

(** The state once the requests of a list have left, in that order *)
Definition after_fetches (rs : list Request) (s : State) : State :=
  fold_left (fun s r => after_fetch r s) rs s.

(** The request [queryProvider] sends to a provider *)
Definition dns_request (self : DnsHandleResolver.t) (handle : string)
           (p : DnsHandleResolver.Provider) : Request :=
  mkRequest (DnsHandleResolver.query_url p handle)
            (Some (DnsHandleResolver.acceptHeader p))
            false (DnsHandleResolver.timeout self).


(** The state once an event has been recorded *)
Definition after_emit (ev : Event) (s : State) : State :=
  mkState (trace s ++ [ev])%list (n_fetch s) (n_random s) (n_clock s)
          (handleCache s) (didCache s).

(** The request of [resolveRemote] *)
Definition remote_request (url : string) (options : Options) : Request :=
  mkRequest (transformUrl url (match baseUrl options with
                               | Some b => b
                               | None => DEFAULT_BASE_URL
                               end))
            (Some "application/json") false (timeout_of options).

(** A string without a slash *)
Definition no_slash (s : string) : Prop :=
  forallb (fun a => negb (Ascii.eqb a "/")) (list_ascii_of_string s) = true.

(** What [resolveDid] does once the cache has missed *)
Definition resolveDid_miss (did : string) (timeout : Z) : M JSON :=
  if JsString.startsWith did "did:plc:" then
    response <- fetchWithTimeout ("https://plc.directory/" ++ did) timeout None ;;
    if negb (ok response) then
      throw (Error ("DID " ++ JsString.dquote ++ did ++ JsString.dquote
                           ++ " not found or inaccessible"))
    else
      (data <- json response ;;
       service <- lift (find_service data) ;;
       ep <- lift (service_endpoint service) ;;
       match ep with
       | Some serviceEndpoint =>
           if JsValue.truthy serviceEndpoint then
             (now <- Date_now ;;
              update_didCache (JsMap.set did (mkEntry serviceEndpoint now)) ;;;
              ret serviceEndpoint)
           else throw (Error "No AT Protocol server found for this DID")
       | None => throw (Error "No AT Protocol server found for this DID")
       end)
  else if JsString.startsWith did "did:web:" then
    let domain := JsString.replaceAll ":" "/" (JsString.substring_from 8 did) in
    ret (JStr ("https://" ++ domain))
  else
    throw (Error ("Unsupported DID method: " ++ did)).

(** No request has left. *)
Definition same_n_fetch (s s' : State) : Prop := n_fetch s' = n_fetch s.

(** What holds of the caches between two messages *)
Definition engine_invariant (s : State) : Prop :=
  caches_wf s /\ handleCache_valid s.


(** The state once a random number has been drawn *)
Definition after_random (s : State) : State :=
  mkState (trace s) (n_fetch s) (S (n_random s)) (n_clock s)
          (handleCache s) (didCache s).

(** No handle is resolved: the handle cache and the random generator are
    left alone. *)
Definition no_handle_work (s s' : State) : Prop :=
  handleCache s' = handleCache s /\ n_random s' = n_random s.

(** What [resolveLocal] does once it has the DID *)
Definition fetch_of_did (did : string) (parsed : ParsedUrl) (timeout : Z)
  : M JSON :=
  serviceEndpoint <- resolveDid did timeout ;;
  response <- fetchWithTimeout (xrpcUrl serviceEndpoint did parsed) timeout None ;;
  if negb (ok response) then
    throw (status_error "Server error - the AT Protocol service is unavailable"
                        (status response))
  else json response.


(* ================================================================== *)
(** * Properties *)
(* ================================================================== *)

Unset Implicit Arguments.

(* ------------------------------------------------------------------ *)
(** ** Strings *)
(* ------------------------------------------------------------------ *)

Lemma split_not_nil (c : ascii) (s : string) : JsString.split c s <> [].
Proof.
  destruct s as [|a r]; simpl.
  - discriminate.
  - destruct (Ascii.eqb a c); [discriminate|].
    destruct (JsString.split c r); discriminate.
Qed.

Lemma split_length (c : ascii) (s : string) :
  (1 <= List.length (JsString.split c s))%nat.
Proof.
  pose proof (split_not_nil c s) as H.
  destruct (JsString.split c s); [congruence | simpl; lia].
Qed.

Lemma startsWith_app (p s : string) : JsString.startsWith (p ++ s) p = true.
Proof.
  unfold JsString.startsWith.
  induction p as [|a p IH]; simpl.
  - destruct s; reflexivity.
  - destruct (ascii_dec a a); [exact IH | congruence].
Qed.

Lemma startsWith_split (s p : string) :
  JsString.startsWith s p = true ->
  s = p ++ JsString.substring_from (String.length p) s.
Proof.
  unfold JsString.startsWith.
  revert s; induction p as [|a p IH]; intros s H; simpl in *.
  - reflexivity.
  - destruct s as [|b s]; [discriminate|]. simpl in H.
    destruct (ascii_dec a b) as [->|]; [|discriminate].
    f_equal. apply IH, H.
Qed.

Lemma substring_from_app (p s : string) :
  JsString.substring_from (String.length p) (p ++ s) = s.
Proof. induction p; simpl; auto. Qed.

(** Two prefixes of one string, of the same length, are equal. *)
Lemma startsWith_same_length (s p q : string) :
  String.length p = String.length q ->
  JsString.startsWith s p = true -> JsString.startsWith s q = true -> p = q.
Proof.
  unfold JsString.startsWith.
  revert s q; induction p as [|a p IH]; intros s [|b q] L Hp Hq;
    simpl in *; try discriminate; auto.
  destruct s as [|c s]; [discriminate|]. simpl in Hp, Hq.
  destruct (ascii_dec a c) as [->|]; [|discriminate].
  destruct (ascii_dec b c) as [->|]; [|discriminate].
  f_equal. eapply IH; eauto.
Qed.

(** A string without the separator is one piece. *)
Lemma split_no_sep (c : ascii) (s : string) :
  forallb (fun a => negb (Ascii.eqb a c)) (list_ascii_of_string s) = true ->
  JsString.split c s = [s].
Proof.
  induction s as [|a r IH]; simpl; intros H; [reflexivity|].
  apply andb_true_iff in H as [Ha Hr].
  destruct (Ascii.eqb a c); [discriminate|].
  rewrite (IH Hr). reflexivity.
Qed.

Lemma split_app_sep (c : ascii) (s r : string) :
  forallb (fun a => negb (Ascii.eqb a c)) (list_ascii_of_string s) = true ->
  JsString.split c (s ++ String c r) = s :: JsString.split c r.
Proof.
  induction s as [|a s IH]; simpl; intros H.
  - rewrite Ascii.eqb_refl. reflexivity.
  - apply andb_true_iff in H as [Ha Hs].
    destruct (Ascii.eqb a c); [discriminate|].
    rewrite (IH Hs). reflexivity.
Qed.

(* ------------------------------------------------------------------ *)
(** ** The AT-URL parser *)
(* ------------------------------------------------------------------ *)

(** The parse of a string with the prefix: the pieces between the slashes,
    the length check never failing. *)
Lemma validateUrl_parts (url : string) :
  JsString.startsWith url "at://" = true ->
  validateUrl url =
    let parts := JsString.split "/" (JsString.substring_from 5 url) in
    Ok (mkParsed (part0 parts) (part_or_null parts 1) (part_or_null parts 2)).
Proof.
  intros H. unfold validateUrl. rewrite H. simpl negb. cbv iota.
  pose proof (split_length "/" (JsString.substring_from 5 url)) as L.
  destruct (Nat.ltb_spec (List.length (JsString.split "/" (JsString.substring_from 5 url))) 1);
    [lia | reflexivity].
Qed.

Lemma validateUrl_rejects (url : string) :
  JsString.startsWith url "at://" = false ->
  validateUrl url = Throw (Error "URL must start with at://").
Proof. intros H. unfold validateUrl. rewrite H. reflexivity. Qed.

(** An empty collection segment followed by a record key: the collection is
    dropped, the record key is kept. *)
Lemma validateUrl_empty_collection (id key : string) :
  forallb (fun a => negb (Ascii.eqb a "/")) (list_ascii_of_string id) = true ->
  forallb (fun a => negb (Ascii.eqb a "/")) (list_ascii_of_string key) = true ->
  key <> EmptyString ->
  validateUrl ("at://" ++ id ++ "//" ++ key) =
    Ok (mkParsed id None (Some key)).
Proof.
  intros Hid Hkey Hne.
  rewrite validateUrl_parts by apply startsWith_app.
  change 5%nat with (String.length "at://"). rewrite substring_from_app.
  change ("//" ++ key) with (String "/" (String "/" key)).
  cbv zeta. rewrite (split_app_sep _ _ _ Hid).
  change (JsString.split "/" (String "/" key))
    with (EmptyString :: JsString.split "/" key).
  rewrite (split_no_sep _ _ Hkey).
  unfold part0, part_or_null; simpl.
  unfold JsString.truthy.
  destruct (String.eqb_spec key EmptyString); [contradiction | reflexivity].
Qed.

(** C1: the parser does not keep the invariant that a record key comes with
    a collection: for ["at://id//xyz"] it returns the record key ["xyz"]
    together with a [null] collection. *)
Theorem validateUrl_rkey_without_collection :
  validateUrl "at://id//xyz" = Ok (mkParsed "id" None (Some "xyz")).
Proof. reflexivity. Qed.

(** What [resolveLocal] then asks the server for: the description of the
    repository, the record key being ignored. *)
Lemma xrpcUrl_rkey_without_collection (ep : string) :
  xrpcUrl (JStr ep) "did:web:id" (mkParsed "id" None (Some "xyz")) =
  ep ++ "/xrpc/com.atproto.repo.describeRepo?repo=did:web:id".
Proof. reflexivity. Qed.

(** C9: every string that starts with ["at://"] is parsed, whatever follows
    the prefix: no format error is raised, and ["at://"] alone gives the
    empty identifier. *)
Theorem validateUrl_accepts_every_at_url :
  (forall url : string,
      JsString.startsWith url "at://" = true ->
      exists p : ParsedUrl,
        validateUrl url = Ok p /\
        identifier p = part0 (JsString.split "/" (JsString.substring_from 5 url))) /\
  validateUrl "at://" = Ok (mkParsed EmptyString None None).
Proof.
  split; [|reflexivity].
  intros url H. rewrite (validateUrl_parts _ H). cbv zeta.
  eexists; split; reflexivity.
Qed.

Lemma validateUrl_accepts_every_at_url_witness :
  exists p : ParsedUrl,
    validateUrl "at://not a handle!/?/#" = Ok p /\
    identifier p = "not a handle!".
Proof.
  destruct (proj1 validateUrl_accepts_every_at_url "at://not a handle!/?/#" eq_refl)
    as [p [H1 H2]].
  exists p. split; [exact H1 | exact H2].
Defined.

(* ------------------------------------------------------------------ *)
(** ** State transitions of the engine *)
(* ------------------------------------------------------------------ *)

(** A relation [T] between the state before and the state after that is
    reflexive, transitive and kept by every primitive step is kept by the
    whole engine.  The section proves it once; trace properties and cache
    invariants are instances. *)
Create HintDb steps.

Section Steps.

Variable T : State -> State -> Prop.
Hypothesis T_refl : forall s, T s s.
Hypothesis T_trans : forall s1 s2 s3, T s1 s2 -> T s2 s3 -> T s1 s3.

Lemma steps_ret {A} (a : A) : steps T (ret a).
Proof. intros env s r s' H. inversion H; subst. apply T_refl. Qed.

Lemma steps_throw {A} (e : Exn) : steps T (@throw A e).
Proof. intros env s r s' H. inversion H; subst. apply T_refl. Qed.

Lemma steps_lift {A} (x : Res A) : steps T (lift x).
Proof. intros env s r s' H. inversion H; subst. apply T_refl. Qed.

Lemma steps_get_state : steps T get_state.
Proof. intros env s r s' H. inversion H; subst. apply T_refl. Qed.

Lemma steps_bind {A B} (m : M A) (k : A -> M B) :
  steps T m -> (forall a, steps T (k a)) -> steps T (bind m k).
Proof.
  intros Hm Hk env s r s' H. unfold bind in H.
  destruct (m env s) as [[a|e|] s1] eqn:E.
  - eapply T_trans; [eapply Hm | eapply Hk]; eauto.
  - inversion H; subst. eapply Hm; eauto.
  - inversion H; subst. eapply Hm; eauto.
Qed.

Lemma steps_try_catch {A} (m : M A) (h : Exn -> M A) :
  steps T m -> (forall e, steps T (h e)) -> steps T (try_catch m h).
Proof.
  intros Hm Hh env s r s' H. unfold try_catch in H.
  destruct (m env s) as [[a|e|] s1] eqn:E.
  - inversion H; subst. eapply Hm; eauto.
  - eapply T_trans; [eapply Hm | eapply Hh]; eauto.
  - inversion H; subst. eapply Hm; eauto.
Qed.

Lemma steps_on_abort {A} (msg : string) (e : Exn) : steps T (@on_abort A msg e).
Proof. unfold on_abort. destruct (String.eqb _ _); apply steps_throw. Qed.

Lemma steps_json (r : Response) : steps T (json r).
Proof. unfold json. destruct (body_json r); [apply steps_ret | apply steps_throw]. Qed.

Lemma steps_text (r : Response) : steps T (text r).
Proof. apply steps_ret. Qed.

Local Hint Resolve steps_ret steps_throw steps_lift steps_get_state
      steps_on_abort steps_json steps_text : steps.

Ltac step :=
  match goal with
  | |- steps T (bind _ _) => apply steps_bind; [ | intros ? ]
  | |- steps T (try_catch _ _) => apply steps_try_catch; [ | intros ? ]
  | |- steps T (if ?b then _ else _) => destruct b
  | |- steps T (match ?x with _ => _ end) => destruct x
  | |- steps T _ => solve [auto with steps]
  end.

(** The primitive steps T *)
Hypothesis T_fetch : forall r, steps T (fetch r).
Hypothesis T_now : steps T Date_now.
Hypothesis T_random : forall n, steps T (random_index n).
Hypothesis T_local : forall url, steps T (emit (EvLocal url)).
Hypothesis T_handle_delete :
  forall h, steps T (update_handleCache (JsMap.delete h)).
Hypothesis T_cacheResult :
  forall h r, steps T (UnifiedHandleResolver.cacheResult h r).
Hypothesis T_did_set :
  forall d e, JsString.startsWith d "did:plc:" = true ->
              steps T (update_didCache (JsMap.set d e)).

Local Hint Resolve T_fetch T_now T_random T_local T_handle_delete
      T_cacheResult : steps.

Lemma steps_dns_queryProvider self p handle :
  steps T (DnsHandleResolver.queryProvider self p handle).
Proof. unfold DnsHandleResolver.queryProvider. repeat step. Qed.

Lemma steps_dns_query_all self ps handle :
  steps T (DnsHandleResolver.query_all self ps handle).
Proof.
  induction ps as [|p ps IH]; simpl.
  - auto with steps.
  - repeat step; auto using steps_dns_queryProvider.
Qed.

Lemma steps_dns_resolve self handle :
  steps T (DnsHandleResolver.resolve self handle).
Proof.
  unfold DnsHandleResolver.resolve.
  apply steps_bind; [apply steps_dns_query_all | intros results].
  repeat step.
Qed.

Lemma steps_wellknown_resolve self handle :
  steps T (WellKnownHandleResolver.resolve self handle).
Proof. unfold WellKnownHandleResolver.resolve. repeat step. Qed.

Lemma steps_xrpc_queryEndpoint self baseUrl handle :
  steps T (XrpcHandleResolver.queryEndpoint self baseUrl handle).
Proof. unfold XrpcHandleResolver.queryEndpoint. repeat step. Qed.

Lemma steps_xrpc_attempt q :
  steps T q -> steps T (XrpcHandleResolver.attempt q).
Proof. intros H. unfold XrpcHandleResolver.attempt. repeat step. Qed.

Lemma steps_getRandomServerFromAll cfg : steps T (getRandomServerFromAll cfg).
Proof. unfold getRandomServerFromAll. repeat step. Qed.

Lemma steps_getRandomServer cfg region : steps T (getRandomServer cfg region).
Proof. unfold getRandomServer. repeat step. Qed.

Lemma steps_xrpc_draw_untried fuel self tried :
  steps T (XrpcHandleResolver.draw_untried fuel self tried).
Proof.
  induction fuel as [|fuel IH]; simpl.
  - auto with steps.
  - apply steps_bind; [apply steps_getRandomServerFromAll | intros server].
    destruct (_ && _); auto with steps.
Qed.

Lemma steps_xrpc_pool_loop fuel self handle remaining :
  forall tried,
    steps T (XrpcHandleResolver.pool_loop fuel self handle remaining tried).
Proof.
  induction remaining as [|n IH]; intros tried; simpl.
  - apply steps_throw.
  - apply steps_bind; [apply steps_xrpc_draw_untried | intros server].
    destruct server as [sv|]; [|apply steps_throw].
    destruct (_ || _); [apply steps_throw|].
    apply steps_bind;
      [apply steps_xrpc_attempt, steps_xrpc_queryEndpoint | intros r].
    destruct r; auto with steps.
Qed.

Lemma steps_xrpc_resolve fuel self handle :
  steps T (XrpcHandleResolver.resolve fuel self handle).
Proof.
  unfold XrpcHandleResolver.resolve, XrpcHandleResolver.try_pool.
  apply steps_bind;
    [apply steps_xrpc_attempt, steps_xrpc_queryEndpoint | intros r].
  destruct r; [auto with steps|].
  destruct (_ =? _)%nat; [apply steps_throw | apply steps_xrpc_pool_loop].
Qed.

Lemma steps_getFromCache self handle :
  steps T (UnifiedHandleResolver.getFromCache self handle).
Proof. unfold UnifiedHandleResolver.getFromCache. repeat step. Qed.

Lemma steps_strategy method m :
  steps T m -> steps T (UnifiedHandleResolver.strategy method m).
Proof. intros H. unfold UnifiedHandleResolver.strategy. repeat step. Qed.

Local Hint Resolve steps_dns_resolve steps_wellknown_resolve
      steps_xrpc_resolve steps_getFromCache steps_strategy : steps.

Lemma steps_unified_resolve fuel self handle :
  steps T (UnifiedHandleResolver.resolve fuel self handle).
Proof. unfold UnifiedHandleResolver.resolve. repeat step. Qed.

Lemma steps_resolveHandle fuel handle timeout :
  steps T (resolveHandle fuel handle timeout).
Proof.
  unfold resolveHandle. repeat step. apply steps_unified_resolve.
Qed.

Lemma steps_fetchWithTimeout url timeout accept :
  steps T (fetchWithTimeout url timeout accept).
Proof. unfold fetchWithTimeout. repeat step. Qed.

Lemma steps_resolveDid did timeout : steps T (resolveDid did timeout).
Proof.
  unfold resolveDid.
  apply steps_bind; [apply steps_get_state | intros s].
  apply steps_bind; [repeat step | intros hit].
  destruct hit; [apply steps_ret|].
  destruct (JsString.startsWith did "did:plc:") eqn:Hplc; [|repeat step].
  pose proof (fun e => T_did_set did e Hplc) as Hset.
  apply steps_bind; [apply steps_fetchWithTimeout | intros response].
  destruct (negb (ok response)); [apply steps_throw|].
  repeat step.
Qed.

Local Hint Resolve steps_resolveHandle steps_fetchWithTimeout
      steps_resolveDid : steps.

Lemma steps_resolveLocal fuel url options :
  steps T (resolveLocal fuel url options).
Proof. unfold resolveLocal. repeat step. Qed.

Lemma steps_resolveRemote url options :
  (forall u, steps T (emit (EvRemote u))) ->
  steps T (resolveRemote url options).
Proof. intros H. unfold resolveRemote. repeat step. Qed.

Lemma steps_resolve fuel url options :
  (forall u, steps T (emit (EvRemote u))) ->
  steps T (resolve fuel url options).
Proof.
  intros H. unfold resolve.
  repeat step; auto using steps_resolveLocal, steps_resolveRemote.
Qed.

Lemma steps_clearCaches :
  steps T (update_didCache (fun _ => JsMap.empty)) ->
  steps T (update_handleCache (fun _ => JsMap.empty)) ->
  steps T clearCaches.
Proof.
  intros H1 H2. unfold clearCaches, UnifiedHandleResolver.clearCache.
  repeat step.
Qed.

End Steps.

(* ------------------------------------------------------------------ *)
(** ** Maps *)
(* ------------------------------------------------------------------ *)

Section MapFacts.

Variable V : Type.
Implicit Types (m : JsMap.t V) (k : string) (v : V) (l : list (string * V)).

Lemma mem_key_In k l : mem_key k l = true <-> In k (map fst l).
Proof.
  unfold mem_key. rewrite existsb_exists, in_map_iff. split.
  - intros [e [He Hk]]. apply String.eqb_eq in Hk. eauto.
  - intros [e [Hk He]]. exists e. split; [exact He | apply String.eqb_eq, Hk].
Qed.

Lemma keys_set k v m :
  JsMap.keys (JsMap.set k v m) =
  if mem_key k m then JsMap.keys m else (JsMap.keys m ++ [k])%list.
Proof.
  induction m as [|[k' v'] m IH]; simpl; [reflexivity|].
  destruct (String.eqb k' k); simpl; [reflexivity|].
  unfold JsMap.keys in *. rewrite IH. unfold mem_key.
  destruct (existsb _ m); reflexivity.
Qed.

Lemma set_wf k v m : JsMap.wf m -> JsMap.wf (JsMap.set k v m).
Proof.
  unfold JsMap.wf. intros H. rewrite keys_set.
  destruct (mem_key k m) eqn:E; [exact H|].
  apply NoDup_app; [exact H | constructor; [intros [] | constructor] |].
  intros a Ha [<-|[]].
  apply mem_key_In in Ha. congruence.
Qed.

Lemma size_set k v m :
  JsMap.size (JsMap.set k v m) =
  if mem_key k m then JsMap.size m else S (JsMap.size m).
Proof.
  unfold JsMap.size. rewrite <- !(length_map fst).
  fold (JsMap.keys (JsMap.set k v m)). rewrite keys_set.
  destruct (mem_key k m); [reflexivity|].
  rewrite length_app. simpl. unfold JsMap.keys. lia.
Qed.

Lemma get_None k m : ~ In k (JsMap.keys m) -> JsMap.get k m = None.
Proof.
  induction m as [|[k' v'] m IH]; simpl; intros H; [reflexivity|].
  destruct (String.eqb_spec k' k) as [->|]; [tauto|].
  apply IH. tauto.
Qed.

(** In a map, deleting a key is filtering it out. *)
Lemma delete_filter k m :
  JsMap.wf m ->
  JsMap.delete k m = filter (fun e => negb (String.eqb (fst e) k)) m.
Proof.
  unfold JsMap.wf, JsMap.keys.
  induction m as [|[k' v'] m IH]; simpl; intros H; [reflexivity|].
  inversion H as [|? ? Hnotin Hnodup]; subst.
  destruct (String.eqb_spec k' k) as [->|Hne]; simpl.
  - symmetry. apply forallb_filter_id, forallb_forall.
    intros [k2 v2] Hin. simpl.
    destruct (String.eqb_spec k2 k) as [->|]; [|reflexivity].
    exfalso. apply Hnotin. apply in_map_iff. exists (k, v2). auto.
  - f_equal. apply IH, Hnodup.
Qed.

Lemma filter_wf (f : string * V -> bool) m :
  JsMap.wf m -> JsMap.wf (filter f m).
Proof.
  unfold JsMap.wf, JsMap.keys.
  induction m as [|e m IH]; simpl; intros H; [constructor|].
  inversion H as [|? ? Hnotin Hnodup]; subst.
  destruct (f e); simpl; [|auto].
  constructor; [|auto].
  intros Hin. apply Hnotin.
  apply in_map_iff in Hin as [x [Hx Hin]]. apply filter_In in Hin as [Hin _].
  apply in_map_iff. eauto.
Qed.

Lemma delete_wf k m : JsMap.wf m -> JsMap.wf (JsMap.delete k m).
Proof. intros H. rewrite delete_filter by exact H. apply filter_wf, H. Qed.

Lemma filter_length_le (f : string * V -> bool) m :
  (List.length (filter f m) <= List.length m)%nat.
Proof. induction m as [|e m IH]; simpl; [lia|]. destruct (f e); simpl; lia. Qed.

Lemma size_delete k m :
  JsMap.wf m -> (JsMap.size (JsMap.delete k m) <= JsMap.size m)%nat.
Proof.
  intros H. rewrite delete_filter by exact H. apply filter_length_le.
Qed.

Lemma keys_filter_incl (f : string * V -> bool) m :
  incl (JsMap.keys (filter f m)) (JsMap.keys m).
Proof.
  intros k Hin. unfold JsMap.keys in *.
  apply in_map_iff in Hin as [x [Hx Hin]]. apply filter_In in Hin as [Hin _].
  apply in_map_iff. eauto.
Qed.

Lemma keys_delete_incl k m :
  JsMap.wf m -> incl (JsMap.keys (JsMap.delete k m)) (JsMap.keys m).
Proof. intros H. rewrite delete_filter by exact H. apply keys_filter_incl. Qed.

End MapFacts.

(* ------------------------------------------------------------------ *)
(** ** Eviction from the handle cache *)
(* ------------------------------------------------------------------ *)

Section Eviction.

Variable V : Type.
Implicit Types (e : string * CacheEntry V) (l c : list (string * CacheEntry V)).

Lemma in_firstn (n : nat) l e : In e (firstn n l) -> In e l.
Proof.
  revert l; induction n as [|n IH]; intros [|x l]; simpl; try tauto.
  intros [->|H]; auto.
Qed.

Lemma in_skipn (n : nat) l e : In e (skipn n l) -> In e l.
Proof.
  revert l; induction n as [|n IH]; intros [|x l]; simpl; try tauto.
  intros H; auto.
Qed.

Lemma insert_by_timestamp_perm e l :
  Permutation (UnifiedHandleResolver.insert_by_timestamp e l) (e :: l).
Proof.
  induction l as [|x l IH]; simpl; [reflexivity|].
  destruct (_ <=? _)%Z; [reflexivity|].
  rewrite IH. apply perm_swap.
Qed.

Lemma sort_by_timestamp_perm l :
  Permutation (UnifiedHandleResolver.sort_by_timestamp l) l.
Proof.
  induction l as [|e l IH]; simpl; [reflexivity|].
  rewrite insert_by_timestamp_perm. constructor. exact IH.
Qed.

Lemma insert_by_timestamp_sorted e l :
  StronglySorted older l ->
  StronglySorted older (UnifiedHandleResolver.insert_by_timestamp e l).
Proof.
  induction l as [|x l IH]; simpl; intros H.
  - constructor; constructor.
  - apply StronglySorted_inv in H as [Hl Hx].
    destruct (Z.leb_spec (timestamp (snd e)) (timestamp (snd x))) as [Hle|Hgt].
    + constructor; [constructor; assumption|].
      constructor; [exact Hle|].
      eapply Forall_impl; [|exact Hx]. unfold older. intros; lia.
    + constructor; [apply IH, Hl|].
      eapply Permutation_Forall;
        [symmetry; apply insert_by_timestamp_perm|].
      constructor; [unfold older; lia | exact Hx].
Qed.

Lemma sort_by_timestamp_sorted l :
  StronglySorted older (UnifiedHandleResolver.sort_by_timestamp l).
Proof.
  induction l as [|e l IH]; simpl; [constructor|].
  apply insert_by_timestamp_sorted, IH.
Qed.

(** The head of a sorted list is older than its tail, at every cut. *)
Lemma sorted_firstn_skipn n l a b :
  StronglySorted older l ->
  In a (firstn n l) -> In b (skipn n l) -> older a b.
Proof.
  revert l; induction n as [|n IH]; intros l Hs Ha Hb; simpl in *; [tauto|].
  destruct l as [|x l]; simpl in *; [tauto|].
  apply StronglySorted_inv in Hs as [Hl Hx].
  destruct Ha as [->|Ha].
  - rewrite Forall_forall in Hx. apply Hx.
    eapply in_skipn, Hb.
  - eapply IH; eauto.
Qed.

Lemma delete_all_filter victims c :
  JsMap.wf c ->
  UnifiedHandleResolver.delete_all victims c =
  filter (fun e => negb (mem_key (fst e) victims)) c.
Proof.
  unfold UnifiedHandleResolver.delete_all.
  revert c; induction victims as [|v victims IH]; intros c H; simpl.
  - symmetry. apply forallb_filter_id, forallb_forall. reflexivity.
  - rewrite IH by (apply delete_wf, H).
    rewrite delete_filter by exact H.
    clear. induction c as [|e c IHc]; simpl; [reflexivity|].
    rewrite (String.eqb_sym (fst v) (fst e)).
    destruct (String.eqb (fst e) (fst v)); simpl; rewrite IHc;
      [reflexivity|].
    destruct (mem_key (fst e) victims); reflexivity.
Qed.

Lemma delete_all_wf victims c :
  JsMap.wf c -> JsMap.wf (UnifiedHandleResolver.delete_all victims c).
Proof. intros H. rewrite delete_all_filter by exact H. apply filter_wf, H. Qed.

Lemma filter_perm (A : Type) (f : A -> bool) (l1 l2 : list A) :
  Permutation l1 l2 -> Permutation (filter f l1) (filter f l2).
Proof.
  induction 1 as [|x l1 l2 H IH|x y l|l1 l2 l3 H12 IH12 H23 IH23]; simpl.
  - apply perm_nil.
  - destruct (f x); [apply perm_skip|]; exact IH.
  - destruct (f x), (f y); try reflexivity. apply perm_swap.
  - eapply perm_trans; eassumption.
Qed.

Lemma NoDup_app_disjoint (A : Type) (l1 l2 : list A) (a : A) :
  NoDup (l1 ++ l2) -> In a l1 -> ~ In a l2.
Proof.
  induction l1 as [|x l1 IH]; simpl; intros H Hin; [tauto|].
  inversion H as [|? ? Hnotin Hnodup]; subst.
  destruct Hin as [->|Hin]; [|auto].
  intros Hin2. apply Hnotin, in_or_app. auto.
Qed.

Lemma evicted_length c :
  List.length (UnifiedHandleResolver.evicted c) = (JsMap.size c / 5)%nat.
Proof.
  unfold UnifiedHandleResolver.evicted, UnifiedHandleResolver.floor_20_percent,
    JsMap.entries, JsMap.size.
  rewrite length_firstn.
  rewrite (Permutation_length (sort_by_timestamp_perm c)).
  apply Nat.min_l. apply Nat.Div0.div_le_upper_bound. lia.
Qed.

Lemma evicted_incl c : incl (UnifiedHandleResolver.evicted c) c.
Proof.
  intros e He. unfold UnifiedHandleResolver.evicted, JsMap.entries in He.
  apply (Permutation_in _ (sort_by_timestamp_perm c)).
  eapply in_firstn; eauto.
Qed.

(** What eviction leaves: the entries that come after the evicted ones in
    the order of their time stamps. *)
Lemma survivor_in_rest c e :
  JsMap.wf c ->
  In e (UnifiedHandleResolver.delete_all (UnifiedHandleResolver.evicted c) c) ->
  In e (skipn (UnifiedHandleResolver.floor_20_percent
                 (List.length (UnifiedHandleResolver.sort_by_timestamp c)))
              (UnifiedHandleResolver.sort_by_timestamp c)).
Proof.
  intros Hwf He. rewrite delete_all_filter in He by exact Hwf.
  apply filter_In in He as [Hin Hkey].
  apply negb_true_iff in Hkey.
  apply (Permutation_in _ (Permutation_sym (sort_by_timestamp_perm c))) in Hin.
  rewrite <- (firstn_skipn
                (UnifiedHandleResolver.floor_20_percent
                   (List.length (UnifiedHandleResolver.sort_by_timestamp c)))
                (UnifiedHandleResolver.sort_by_timestamp c)) in Hin.
  apply in_app_or in Hin as [Hin|Hin]; [|exact Hin].
  exfalso.
  assert (mem_key (fst e) (UnifiedHandleResolver.evicted c) = true) as Hm.
  { apply mem_key_In, in_map, Hin. }
  congruence.
Qed.

Lemma evicted_older c r k :
  JsMap.wf c ->
  In r (UnifiedHandleResolver.evicted c) ->
  In k (UnifiedHandleResolver.delete_all (UnifiedHandleResolver.evicted c) c) ->
  older r k.
Proof.
  intros Hwf Hr Hk.
  eapply sorted_firstn_skipn;
    [apply sort_by_timestamp_sorted | exact Hr | apply survivor_in_rest; eauto].
Qed.

Lemma delete_all_evicted_size c :
  JsMap.wf c ->
  JsMap.size (UnifiedHandleResolver.delete_all (UnifiedHandleResolver.evicted c) c)
  = (JsMap.size c - JsMap.size c / 5)%nat.
Proof.
  intros Hwf. rewrite delete_all_filter by exact Hwf.
  set (victims := UnifiedHandleResolver.evicted c).
  set (keep := fun e : string * CacheEntry V => negb (mem_key (fst e) victims)).
  set (sorted := UnifiedHandleResolver.sort_by_timestamp c).
  set (n := UnifiedHandleResolver.floor_20_percent (List.length sorted)).
  assert (Permutation (filter keep c) (filter keep sorted)) as Hp.
  { apply filter_perm. symmetry. apply sort_by_timestamp_perm. }
  unfold JsMap.size. rewrite (Permutation_length Hp).
  assert (NoDup (map fst sorted)) as Hnd.
  { eapply Permutation_NoDup; [|exact Hwf].
    apply Permutation_map. symmetry. apply sort_by_timestamp_perm. }
  assert (victims = firstn n sorted) as Hv by reflexivity.
  rewrite <- (firstn_skipn n sorted) at 1.
  rewrite <- (firstn_skipn n sorted), map_app in Hnd.
  rewrite filter_app, length_app.
  assert (filter keep (firstn n sorted) = []) as ->.
  { assert (forall l', incl l' (firstn n sorted) -> filter keep l' = []) as Hnil.
    { induction l' as [|e l' IH]; simpl; intros Hincl; [reflexivity|].
      unfold keep at 1. rewrite Hv.
      assert (mem_key (fst e) (firstn n sorted) = true) as ->
          by (apply mem_key_In, in_map, Hincl; left; reflexivity).
      simpl. apply IH. intros x Hx. apply Hincl. right. exact Hx. }
    apply Hnil, incl_refl. }
  assert (filter keep (skipn n sorted) = skipn n sorted) as ->.
  { apply forallb_filter_id, forallb_forall. intros e He.
    unfold keep. rewrite Hv. apply negb_true_iff.
    destruct (mem_key (fst e) (firstn n sorted)) eqn:E; [|reflexivity].
    exfalso. apply mem_key_In in E.
    eapply NoDup_app_disjoint; [exact Hnd | exact E | apply in_map, He]. }
  simpl. rewrite length_skipn.
  unfold n, UnifiedHandleResolver.floor_20_percent, sorted.
  rewrite (Permutation_length (sort_by_timestamp_perm c)). reflexivity.
Qed.

Lemma limit_size_wf c :
  JsMap.wf c -> JsMap.wf (UnifiedHandleResolver.limit_size c).
Proof.
  intros H. unfold UnifiedHandleResolver.limit_size.
  destruct (_ <? _)%nat; [apply delete_all_wf, H | exact H].
Qed.

(** A cache that was within the limit before the insertion is within it
    again after the clean-up. *)
Lemma limit_size_bound c :
  JsMap.wf c -> (JsMap.size c <= 1001)%nat ->
  (JsMap.size (UnifiedHandleResolver.limit_size c) <= 1000)%nat.
Proof.
  intros Hwf Hn. unfold UnifiedHandleResolver.limit_size.
  destruct (Nat.ltb_spec 1000 (JsMap.size c)) as [Hgt|Hle]; [|exact Hle].
  rewrite delete_all_evicted_size by exact Hwf.
  assert (JsMap.size c = 1001)%nat as -> by lia.
  vm_compute. lia.
Qed.

End Eviction.

(** C5: the insertion that takes the handle cache past 1000 entries, and no
    insertion that leaves it within 1000, removes entries: exactly
    [floor (size * 0.2)] of them, each one stored no later than any entry
    that stays, the entries that stay being untouched. *)
Theorem cacheResult_evicts_oldest_fifth :
  forall (handle : string) (result : HandleResult) (env : Env) (s : State),
    JsMap.wf (handleCache s) ->
    let inserted :=
      JsMap.set handle (mkEntry result (clock env (n_clock s))) (handleCache s) in
    let n := JsMap.size inserted in
    let removed := UnifiedHandleResolver.evicted inserted in
    let after :=
      handleCache (snd (UnifiedHandleResolver.cacheResult handle result env s)) in
    fst (UnifiedHandleResolver.cacheResult handle result env s) = Ok tt /\
    ((n <= 1000)%nat -> after = inserted) /\
    ((1000 < n)%nat ->
     List.length removed = (n / 5)%nat /\
     incl removed inserted /\
     after = filter (fun e => negb (mem_key (fst e) removed)) inserted /\
     JsMap.size after = (n - n / 5)%nat /\
     forall r k, In r removed -> In k after ->
                 (timestamp (snd r) <= timestamp (snd k))%Z).
Proof.
  intros handle result env s Hwf inserted n removed after.
  assert (JsMap.wf inserted) as Hins by (apply set_wf, Hwf).
  assert (after = UnifiedHandleResolver.limit_size inserted) as Hafter
      by reflexivity.
  split; [reflexivity|].
  unfold UnifiedHandleResolver.limit_size in Hafter. fold n in Hafter.
  split.
  - intros Hn.
    destruct (Nat.ltb_spec 1000 n); [lia | exact Hafter].
  - intros Hn.
    destruct (Nat.ltb_spec 1000 n); [|lia].
    fold removed in Hafter. rewrite Hafter.
    split; [apply evicted_length|].
    split; [apply evicted_incl|].
    split; [apply delete_all_filter, Hins|].
    split; [apply delete_all_evicted_size, Hins|].
    intros r k Hr Hk. exact (evicted_older _ _ _ _ Hins Hr Hk).
Qed.

Lemma distinct_NoDup (l : list string) : distinct l = true -> NoDup l.
Proof.
  induction l as [|x l IH]; simpl; intros H; [constructor|].
  apply andb_true_iff in H as [Hx Hl].
  constructor; [|auto].
  intros Hin. apply negb_true_iff in Hx.
  assert (existsb (String.eqb x) l = true) as E.
  { apply existsb_exists. exists x. split; [exact Hin | apply String.eqb_refl]. }
  congruence.
Qed.

Lemma full_state_wf : JsMap.wf (handleCache full_state).
Proof. apply distinct_NoDup. vm_compute. reflexivity. Defined.

(** A thousand-and-first handle evicts the 200 oldest entries of the full
    cache and leaves 801. *)
Lemma cacheResult_evicts_oldest_fifth_witness :
  JsMap.size
    (handleCache
       (snd (UnifiedHandleResolver.cacheResult
               "bob.example" sample_result env_all_fail full_state)))
  = 801%nat.
Proof.
  destruct (cacheResult_evicts_oldest_fifth
              "bob.example" sample_result env_all_fail full_state full_state_wf)
    as [_ [_ H]].
  destruct H as [_ [_ [_ [H _]]]].
  - vm_compute. lia.
  - rewrite H. vm_compute. reflexivity.
Defined.

(** A handle that is already cached is stored again without eviction. *)
Lemma cacheResult_refresh_keeps_all :
  JsMap.size
    (handleCache
       (snd (UnifiedHandleResolver.cacheResult
               "user5.test" sample_result env_all_fail full_state)))
  = 1000%nat.
Proof. vm_compute. reflexivity. Qed.

(* ------------------------------------------------------------------ *)
(** ** Cache invariants *)
(* ------------------------------------------------------------------ *)

Lemma caches_wf_initial : caches_wf initial_state.
Proof.
  repeat split; simpl; try constructor. lia.
Qed.

Lemma keeps_caches_wf_refl s : keeps_caches_wf s s.
Proof. intros H; exact H. Qed.

Lemma keeps_caches_wf_trans s1 s2 s3 :
  keeps_caches_wf s1 s2 -> keeps_caches_wf s2 s3 -> keeps_caches_wf s1 s3.
Proof. unfold keeps_caches_wf. auto. Qed.

(** A step that leaves both caches alone keeps them well formed. *)
Lemma same_caches_wf s s' :
  handleCache s' = handleCache s -> didCache s' = didCache s ->
  keeps_caches_wf s s'.
Proof.
  intros Hh Hd [H1 [H2 [H3 H4]]].
  unfold caches_wf, didCache_plc. rewrite Hh, Hd. auto.
Qed.

Lemma caches_wf_fetch r : steps keeps_caches_wf (fetch r).
Proof.
  intros env s x s' H. unfold fetch in H.
  destruct (net env (n_fetch s) r); inversion H; subst;
    apply same_caches_wf; reflexivity.
Qed.

Lemma caches_wf_now : steps keeps_caches_wf Date_now.
Proof.
  intros env s x s' H. inversion H; subst. apply same_caches_wf; reflexivity.
Qed.

Lemma caches_wf_random n : steps keeps_caches_wf (random_index n).
Proof.
  intros env s x s' H. inversion H; subst. apply same_caches_wf; reflexivity.
Qed.

Lemma caches_wf_emit ev : steps keeps_caches_wf (emit ev).
Proof.
  intros env s x s' H. inversion H; subst. apply same_caches_wf; reflexivity.
Qed.

Lemma caches_wf_handle_delete h :
  steps keeps_caches_wf (update_handleCache (JsMap.delete h)).
Proof.
  intros env s x s' H. inversion H; subst. clear H.
  intros [H1 [H2 [H3 H4]]]. repeat split; simpl; auto.
  - apply delete_wf, H3.
  - pose proof (size_delete _ h _ H3). lia.
Qed.

Lemma caches_wf_cacheResult h r :
  steps keeps_caches_wf (UnifiedHandleResolver.cacheResult h r).
Proof.
  intros env s x s' H. inversion H; subst. clear H.
  intros [H1 [H2 [H3 H4]]]. repeat split; simpl; auto.
  - apply limit_size_wf, set_wf, H3.
  - apply limit_size_bound; [apply set_wf, H3|].
    rewrite size_set. destruct (mem_key h (handleCache s)); lia.
Qed.

Lemma caches_wf_did_set d e :
  JsString.startsWith d "did:plc:" = true ->
  steps keeps_caches_wf (update_didCache (JsMap.set d e)).
Proof.
  intros Hd env s x s' H. inversion H; subst. clear H.
  intros [H1 [H2 [H3 H4]]]. repeat split; simpl; auto.
  - unfold didCache_plc in *. simpl. rewrite keys_set.
    destruct (mem_key d (didCache s)); [exact H1|].
    apply Forall_app. split; [exact H1 | constructor; [exact Hd | constructor]].
  - apply set_wf, H2.
Qed.

(** The caches stay well formed across every call of the facade. *)
Theorem resolve_keeps_caches_wf fuel url options env s r s' :
  caches_wf s -> resolve fuel url options env s = (r, s') -> caches_wf s'.
Proof.
  intros Hwf H. revert Hwf.
  eapply (steps_resolve keeps_caches_wf); eauto using
    keeps_caches_wf_refl, keeps_caches_wf_trans, caches_wf_fetch,
    caches_wf_now, caches_wf_random, caches_wf_emit, caches_wf_handle_delete,
    caches_wf_cacheResult, caches_wf_did_set.
Qed.

Theorem clearCaches_keeps_caches_wf env s r s' :
  clearCaches env s = (r, s') -> caches_wf s'.
Proof.
  intros H. inversion H; subst. repeat split; simpl; try constructor. lia.
Qed.

(** A DID that is no [did:plc:] identifier is not in the DID cache. *)
Lemma didCache_miss d s :
  didCache_plc s -> JsString.startsWith d "did:plc:" = false ->
  JsMap.get d (didCache s) = None.
Proof.
  intros Hinv Hd. apply get_None. intros Hin.
  unfold didCache_plc in Hinv. rewrite Forall_forall in Hinv.
  specialize (Hinv d Hin). congruence.
Qed.

(* ------------------------------------------------------------------ *)
(** ** The DID resolver *)
(* ------------------------------------------------------------------ *)

(** C6: a DID of a method other than [plc] and [web] is refused with the
    unsupported-method error; the state, and with it the trace of network
    calls and both caches, is left as it was.  The cache is looked up
    first, but it holds [did:plc:] keys only. *)
Theorem resolveDid_unsupported_method :
  forall (d : string) (timeout : Z) (env : Env) (s : State),
    didCache_plc s ->
    JsString.startsWith d "did:plc:" = false ->
    JsString.startsWith d "did:web:" = false ->
    resolveDid d timeout env s =
      (Throw (Error ("Unsupported DID method: " ++ d)), s).
Proof.
  intros d timeout env s Hinv Hplc Hweb.
  unfold resolveDid, bind, get_state.
  rewrite (didCache_miss _ _ Hinv Hplc). unfold ret.
  rewrite Hplc, Hweb. reflexivity.
Qed.

Lemma resolveDid_unsupported_method_witness :
  resolveDid "did:key:z6Mk" 5000 env_all_fail initial_state =
    (Throw (Error "Unsupported DID method: did:key:z6Mk"), initial_state).
Proof.
  apply (resolveDid_unsupported_method "did:key:z6Mk" 5000 env_all_fail initial_state).
  - constructor.
  - reflexivity.
  - reflexivity.
Defined.

(** The endpoint of ["did:web:" ++ rest] *)
Lemma resolveDid_web_rest (rest : string) (timeout : Z) (env : Env) (s : State) :
  didCache_plc s ->
  resolveDid ("did:web:" ++ rest) timeout env s =
    (Ok (JStr ("https://" ++ JsString.replaceAll ":" "/" rest)), s).
Proof.
  intros Hinv.
  assert (JsString.startsWith ("did:web:" ++ rest) "did:plc:" = false) as Hplc
      by reflexivity.
  unfold resolveDid, bind, get_state.
  rewrite (didCache_miss _ s Hinv Hplc). unfold ret.
  rewrite Hplc, (startsWith_app "did:web:" rest).
  change 8%nat with (String.length "did:web:").
  rewrite substring_from_app. reflexivity.
Qed.

(** C8: the endpoint of a DID that starts with ["did:web:"] is ["https://"]
    followed by what comes after the prefix, every colon turned into a
    slash; the state is left as it was: no network call, nothing cached.
    The cache is looked up first, but it holds [did:plc:] keys only. *)
Theorem resolveDid_web :
  forall (d : string) (timeout : Z) (env : Env) (s : State),
    didCache_plc s ->
    JsString.startsWith d "did:web:" = true ->
    resolveDid d timeout env s =
      (Ok (JStr ("https://" ++ JsString.replaceAll ":" "/"
                                 (JsString.substring_from 8 d))), s).
Proof.
  intros d timeout env s Hinv Hweb.
  rewrite (startsWith_split _ _ Hweb) at 1.
  apply resolveDid_web_rest, Hinv.
Qed.

Lemma resolveDid_web_witness :
  resolveDid "did:web:example.com:user:alice" 5000 env_all_fail initial_state =
    (Ok (JStr "https://example.com/user/alice"), initial_state).
Proof.
  apply (resolveDid_web "did:web:example.com:user:alice" 5000 env_all_fail
                        initial_state).
  - constructor.
  - reflexivity.
Defined.

(* ------------------------------------------------------------------ *)
(** ** The facade *)
(* ------------------------------------------------------------------ *)

Lemma local_only_refl s : local_only s s.
Proof. exists []. split; [symmetry; apply app_nil_r | reflexivity]. Qed.

Lemma local_only_trans s1 s2 s3 :
  local_only s1 s2 -> local_only s2 s3 -> local_only s1 s3.
Proof.
  intros [e1 [H1 F1]] [e2 [H2 F2]]. exists (e1 ++ e2)%list. split.
  - rewrite H2, H1. symmetry. apply app_assoc.
  - rewrite forallb_app, F1, F2. reflexivity.
Qed.

Lemma same_trace_local_only s s' : trace s' = trace s -> local_only s s'.
Proof. intros H. exists []. split; [rewrite app_nil_r; exact H | reflexivity]. Qed.

Lemma local_only_fetch r : steps local_only (fetch r).
Proof.
  intros env s x s' H. unfold fetch in H.
  exists [EvFetch r].
  destruct (net env (n_fetch s) r); inversion H; subst; split; reflexivity.
Qed.

Lemma local_only_now : steps local_only Date_now.
Proof.
  intros env s x s' H. inversion H; subst. apply same_trace_local_only; reflexivity.
Qed.

Lemma local_only_random n : steps local_only (random_index n).
Proof.
  intros env s x s' H. inversion H; subst. apply same_trace_local_only; reflexivity.
Qed.

Lemma local_only_emit_local url : steps local_only (emit (EvLocal url)).
Proof.
  intros env s x s' H. inversion H; subst.
  exists [EvLocal url]. split; reflexivity.
Qed.

Lemma local_only_update_handleCache f : steps local_only (update_handleCache f).
Proof.
  intros env s x s' H. inversion H; subst. apply same_trace_local_only; reflexivity.
Qed.

Lemma local_only_update_didCache f : steps local_only (update_didCache f).
Proof.
  intros env s x s' H. inversion H; subst. apply same_trace_local_only; reflexivity.
Qed.

Lemma local_only_cacheResult h r :
  steps local_only (UnifiedHandleResolver.cacheResult h r).
Proof.
  intros env s x s' H. inversion H; subst.
  apply same_trace_local_only; reflexivity.
Qed.

(** The local chain never enters [resolveRemote]. *)
Lemma resolveLocal_local_only fuel url options :
  steps local_only (resolveLocal fuel url options).
Proof.
  apply steps_resolveLocal;
    [ exact local_only_refl | exact local_only_trans | exact local_only_fetch
    | exact local_only_now | exact local_only_random
    | exact local_only_emit_local
    | intros h; apply local_only_update_handleCache
    | exact local_only_cacheResult
    | intros d e _; apply local_only_update_didCache ].
Qed.

(** C3: with [mode] exactly ["local"] the facade is the local chain and
    nothing else: same completion and same final state, so a failure of the
    chain is the failure of the call, and the trace grows by no entry into
    the remote resolution. *)
Theorem resolve_local_never_remote :
  forall (fuel : nat) (url : string) (options : Options) (env : Env) (s : State),
    mode options = Some "local" ->
    resolve fuel url options env s = resolveLocal fuel url options env s /\
    (forall e s', resolveLocal fuel url options env s = (Throw e, s') ->
                  resolve fuel url options env s = (Throw e, s')) /\
    local_only s (snd (resolve fuel url options env s)).
Proof.
  intros fuel url options env s Hmode.
  assert (resolve fuel url options env s = resolveLocal fuel url options env s)
    as Heq by (unfold resolve; rewrite Hmode; reflexivity).
  split; [exact Heq|]. split.
  - intros e s' H. rewrite Heq. exact H.
  - rewrite Heq.
    destruct (resolveLocal fuel url options env s) as [r s'] eqn:E.
    exact (resolveLocal_local_only fuel url options env s r s' E).
Qed.

Lemma resolve_local_never_remote_witness :
  local_only initial_state
    (snd (resolve 10 "at://bob.example/app.bsky.feed.post/xyz"
                  (options_of_mode (Some "local")) env_all_fail initial_state)).
Proof.
  exact (proj2 (proj2 (resolve_local_never_remote
                         10 "at://bob.example/app.bsky.feed.post/xyz"
                         (options_of_mode (Some "local")) env_all_fail
                         initial_state eq_refl))).
Defined.

(** C10: a [mode] that is neither ["local"] nor ["remote"] is the automatic
    mode: the local chain runs first, its result is returned if it has one,
    and if it throws, whatever it throws, the call is the remote resolution
    run from the state the local chain left.  Without [mode] the facade is
    the local chain. *)
Theorem resolve_other_mode_is_auto :
  forall (fuel : nat) (url : string) (options : Options) (env : Env) (s : State),
    (forall m : string,
        mode options = Some m -> m <> "local" -> m <> "remote" ->
        (forall v s1, resolveLocal fuel url options env s = (Ok v, s1) ->
                      resolve fuel url options env s = (Ok v, s1)) /\
        (forall e s1, resolveLocal fuel url options env s = (Throw e, s1) ->
                      resolve fuel url options env s = resolveRemote url options env s1) /\
        (forall s1, resolveLocal fuel url options env s = (Spin, s1) ->
                    resolve fuel url options env s = (Spin, s1))) /\
    (mode options = None ->
     resolve fuel url options env s = resolveLocal fuel url options env s).
Proof.
  intros fuel url options env s. split.
  - intros m Hmode Hlocal Hremote.
    assert (resolve fuel url options env s =
            try_catch (resolveLocal fuel url options)
                      (fun _ => resolveRemote url options) env s) as Heq.
    { unfold resolve. rewrite Hmode.
      destruct (String.eqb_spec m "remote"); [contradiction|].
      destruct (String.eqb_spec m "local"); [contradiction|].
      reflexivity. }
    rewrite Heq. unfold try_catch.
    repeat split; intros; match goal with H : _ = _ |- _ => rewrite H end;
      reflexivity.
  - intros Hmode. unfold resolve. rewrite Hmode. reflexivity.
Qed.

Lemma resolve_other_mode_is_auto_witness :
  resolve 10 "at://bob.example" (options_of_mode (Some "atuo")) env_all_fail
          initial_state =
  resolveRemote "at://bob.example" (options_of_mode (Some "atuo")) env_all_fail
    (snd (resolveLocal 10 "at://bob.example" (options_of_mode (Some "atuo"))
                       env_all_fail initial_state)).
Proof.
  destruct (proj1 (resolve_other_mode_is_auto
                     10 "at://bob.example" (options_of_mode (Some "atuo"))
                     env_all_fail initial_state) "atuo" eq_refl)
    as [_ [H _]].
  - discriminate.
  - discriminate.
  - eapply H. vm_compute. reflexivity.
Defined.

(* ------------------------------------------------------------------ *)
(** ** The directory strategy *)
(* ------------------------------------------------------------------ *)

(** Computations that leave the state alone are the steps of [eq]. *)
Ltac stateless :=
  repeat match goal with
    | |- steps eq (bind _ _) =>
        apply steps_bind; [intros; congruence | | intros ?]
    | |- steps eq (try_catch _ _) =>
        apply steps_try_catch; [intros; congruence | | intros ?]
    | |- steps eq (ret _) => apply steps_ret; intros; reflexivity
    | |- steps eq (throw _) => apply steps_throw; intros; reflexivity
    | |- steps eq (lift _) => apply steps_lift; intros; reflexivity
    | |- steps eq (json _) => apply steps_json; intros; reflexivity
    | |- steps eq (text _) => apply steps_text; intros; reflexivity
    | |- steps eq (on_abort _ _) => apply steps_on_abort; intros; reflexivity
    | |- steps eq (if ?b then _ else _) => destruct b
    | |- steps eq (match ?x with _ => _ end) => destruct x
    end.

Lemma fetch_state r env s x s' :
  fetch r env s = (x, s') -> s' = after_fetch r s.
Proof.
  unfold fetch. destruct (net env (n_fetch s) r); inversion 1; reflexivity.
Qed.

(** A guarded fetch followed by stateless code moves the state by exactly
    one request. *)
Lemma guarded_fetch_state {A} r (k : Response -> M A) (h : Exn -> M A) env s x s' :
  (forall resp, steps eq (k resp)) -> (forall e, steps eq (h e)) ->
  try_catch (bind (fetch r) k) h env s = (x, s') ->
  s' = after_fetch r s.
Proof.
  intros Hk Hh H. unfold try_catch, bind in H.
  destruct (fetch r env s) as [[resp|e|] s1] eqn:F;
    apply fetch_state in F; subst s1.
  - destruct (k resp env (after_fetch r s)) as [[a|e|] s2] eqn:K;
      apply Hk in K; subst s2.
    + inversion H; reflexivity.
    + apply Hh in H. congruence.
    + inversion H; reflexivity.
  - apply Hh in H. congruence.
  - inversion H; reflexivity.
Qed.

Lemma queryEndpoint_state self baseUrl handle env s x s' :
  XrpcHandleResolver.queryEndpoint self baseUrl handle env s = (x, s') ->
  s' = after_fetch (xrpc_request self baseUrl handle) s.
Proof.
  unfold XrpcHandleResolver.queryEndpoint. apply guarded_fetch_state.
  - intros resp. stateless.
  - intros e. stateless.
Qed.

(** An attempt completes as its query does, a throw being swallowed. *)
Lemma attempt_inv q env s x s' :
  XrpcHandleResolver.attempt q env s = (x, s') ->
  exists y, q env s = (y, s') /\
            x = match y with
                | Ok r => Ok (Some r)
                | Throw _ => Ok None
                | Spin => Spin
                end.
Proof.
  unfold XrpcHandleResolver.attempt, try_catch, bind, ret. intros H.
  destruct (q env s) as [[r|e|] s1]; inversion H; subst; eexists; eauto.
Qed.

Lemma same_trace_refl s : same_trace s s.
Proof. reflexivity. Qed.

Lemma same_trace_trans s1 s2 s3 :
  same_trace s1 s2 -> same_trace s2 s3 -> same_trace s1 s3.
Proof. unfold same_trace. congruence. Qed.

Lemma same_trace_random n : steps same_trace (random_index n).
Proof. intros env s x s' H. inversion H; subst. reflexivity. Qed.

Lemma draw_untried_trace fuel self tried env s x s' :
  XrpcHandleResolver.draw_untried fuel self tried env s = (x, s') ->
  trace s' = trace s.
Proof.
  apply (steps_xrpc_draw_untried same_trace same_trace_refl same_trace_trans
                                 same_trace_random).
Qed.

Lemma getRandomServerFromAll_In cfg env s sv s' :
  getRandomServerFromAll cfg env s = (Ok (Some sv), s') ->
  In sv (getAllServers cfg).
Proof.
  unfold getRandomServerFromAll.
  destruct (List.length (getAllServers cfg) =? 0)%nat.
  - inversion 1.
  - unfold bind, random_index, ret. intros H. inversion H as [[Hn Hs]].
    eapply nth_error_In, Hn.
Qed.

Lemma draw_untried_In fuel self tried env s sv s' :
  XrpcHandleResolver.draw_untried fuel self tried env s = (Ok (Some sv), s') ->
  In sv (getAllServers (XrpcHandleResolver.pdsEndpoints self)).
Proof.
  revert s; induction fuel as [|fuel IH]; intros s H; simpl in H.
  - inversion H.
  - unfold bind in H.
    destruct (getRandomServerFromAll _ env s) as [[server|e|] s1] eqn:G;
      try (inversion H; fail).
    destruct (_ && _).
    + eapply IH, H.
    + inversion H; subst. eapply getRandomServerFromAll_In, G.
Qed.

Lemma JsSet_has_add x y tried :
  JsSet.has x (JsSet.add y tried) = String.eqb x y || JsSet.has x tried.
Proof.
  unfold JsSet.add. destruct (JsSet.has y tried) eqn:E.
  - destruct (String.eqb_spec x y) as [->|]; [rewrite E|]; reflexivity.
  - unfold JsSet.has. rewrite existsb_app. simpl.
    rewrite orb_false_r. apply orb_comm.
Qed.

(** A computation that has completed: its result and its final state *)
Ltac finished H :=
  cbv beta iota in H;
  unfold XrpcHandleResolver.failed, throw, ret, lift in H;
  cbv beta iota in H;
  injection H as <- <-.

(** The turns of the loop: requests to servers of the pool, pairwise
    distinct and none of them tried before, at most one per turn. *)
Lemma pool_loop_trace fuel self handle env remaining :
  forall tried s x s',
    XrpcHandleResolver.pool_loop fuel self handle remaining tried env s = (x, s') ->
    exists servers,
      trace s' = (trace s ++ pool_requests self handle servers)%list /\
      NoDup servers /\
      (forall sv, In sv servers -> JsSet.has sv tried = false) /\
      incl servers (getAllServers (XrpcHandleResolver.pdsEndpoints self)) /\
      (List.length servers <= remaining)%nat.
Proof.
  assert (forall s, exists servers : list string,
             trace s = (trace s ++ pool_requests self handle servers)%list /\
             NoDup servers /\
             (forall sv tried, In sv servers -> JsSet.has sv tried = false) /\
             incl servers (getAllServers (XrpcHandleResolver.pdsEndpoints self)) /\
             (List.length servers <= 0)%nat) as Hnone.
  { intros s. exists []. repeat split; simpl.
    - symmetry. apply app_nil_r.
    - constructor.
    - intros sv tried [].
    - intros sv [].
    - lia. }
  assert (forall tried n s, exists servers : list string,
             trace s = (trace s ++ pool_requests self handle servers)%list /\
             NoDup servers /\
             (forall sv, In sv servers -> JsSet.has sv tried = false) /\
             incl servers (getAllServers (XrpcHandleResolver.pdsEndpoints self)) /\
             (List.length servers <= n)%nat) as Hstop.
  { intros tried n s. destruct (Hnone s) as [l [H1 [H2 [H3 [H4 H5]]]]].
    exists l. repeat split; auto. lia. }
  induction remaining as [|n IH]; intros tried s x s' H;
    cbn [XrpcHandleResolver.pool_loop] in H.
  - finished H. apply Hstop.
  - unfold bind in H.
    destruct (XrpcHandleResolver.draw_untried fuel self tried env s)
      as [[server|e|] s1] eqn:D.
    2,3: finished H; rewrite (draw_untried_trace _ _ _ _ _ _ _ D);
      apply Hstop.
    pose proof (draw_untried_trace _ _ _ _ _ _ _ D) as Ht.
    destruct server as [sv|];
      [|finished H; rewrite Ht; apply Hstop].
    destruct (negb (JsString.truthy sv) || JsSet.has sv tried) eqn:B;
      [finished H; rewrite Ht; apply Hstop|].
    apply orb_false_iff in B as [_ Hnew].
    pose proof (draw_untried_In _ _ _ _ _ _ _ D) as Hin.
    destruct (XrpcHandleResolver.attempt
                (XrpcHandleResolver.queryEndpoint self ("https://" ++ sv) handle)
                env s1) as [[r|e|] s2] eqn:Q;
      apply attempt_inv in Q as [y [Q Hy]];
      [| destruct y; discriminate |];
      apply queryEndpoint_state in Q;
      assert (trace s2 = (trace s ++ pool_requests self handle [sv])%list) as Ht2
          by (rewrite Q; simpl; rewrite Ht; reflexivity).
    + destruct r as [result|].
      * finished H. exists [sv]. repeat split.
        -- exact Ht2.
        -- constructor; [intros [] | constructor].
        -- intros sv' [<-|[]]. exact Hnew.
        -- intros sv' [<-|[]]. exact Hin.
        -- simpl. lia.
      * destruct (IH _ _ _ _ H) as [servers [H1 [H2 [H3 [H4 H5]]]]].
        exists (sv :: servers). repeat split.
        -- rewrite H1, Ht2. unfold pool_requests. simpl.
           rewrite <- app_assoc. reflexivity.
        -- constructor; [|exact H2].
           intros Hsv. specialize (H3 sv Hsv).
           rewrite JsSet_has_add, String.eqb_refl in H3. discriminate.
        -- intros sv' [<-|Hsv']; [exact Hnew|].
           specialize (H3 sv' Hsv'). rewrite JsSet_has_add in H3.
           apply orb_false_iff in H3 as [_ H3]. exact H3.
        -- intros sv' [<-|Hsv']; [exact Hin | apply H4, Hsv'].
        -- simpl. lia.
    + finished H. exists [sv]. repeat split.
      * exact Ht2.
      * constructor; [intros [] | constructor].
      * intros sv' [<-|[]]. exact Hnew.
      * intros sv' [<-|[]]. exact Hin.
      * simpl. lia.
Qed.

Lemma NoDup_map_append (p : string) (l : list string) :
  NoDup l -> NoDup (map (String.append p) l).
Proof.
  assert (forall a b, p ++ a = p ++ b -> a = b) as Hinj.
  { induction p as [|c p IH]; simpl; intros a b H; [exact H|].
    injection H as H. auto. }
  induction 1 as [|x l Hx Hl IH]; simpl; constructor; [|exact IH].
  intros Hin. apply in_map_iff in Hin as [y [Hy Hin]].
  apply Hinj in Hy. subst y. contradiction.
Qed.

(** The requests of one resolution: the primary endpoint, then servers of
    the pool, pairwise distinct and at most [min 5 N] of them. *)
Lemma xrpc_resolve_trace fuel self handle env s :
  exists servers : list string,
    trace (snd (XrpcHandleResolver.resolve fuel self handle env s)) =
      (trace s
         ++ EvFetch (xrpc_request self (primary (XrpcHandleResolver.pdsEndpoints self)) handle)
         :: pool_requests self handle servers)%list /\
    NoDup servers /\
    incl servers (getAllServers (XrpcHandleResolver.pdsEndpoints self)) /\
    (List.length servers <=
     Nat.min 5 (List.length (getAllServers (XrpcHandleResolver.pdsEndpoints self))))%nat.
Proof.
  set (cfg := XrpcHandleResolver.pdsEndpoints self).
  assert (forall s1,
             s1 = after_fetch (xrpc_request self (primary cfg) handle) s ->
             exists servers : list string,
               trace s1 =
                 (trace s ++ EvFetch (xrpc_request self (primary cfg) handle)
                        :: pool_requests self handle servers)%list /\
               NoDup servers /\ incl servers (getAllServers cfg) /\
               (List.length servers <= Nat.min 5 (List.length (getAllServers cfg)))%nat)
    as Hprimary_only.
  { intros s1 ->. exists [].
    split; [reflexivity|]. split; [constructor|].
    split; [intros sv []|apply Nat.le_0_l]. }
  unfold XrpcHandleResolver.resolve, bind. fold cfg.
  destruct (XrpcHandleResolver.attempt
              (XrpcHandleResolver.queryEndpoint self (primary cfg) handle) env s)
    as [[r|e|] s1] eqn:Q;
    apply attempt_inv in Q as [y [Q Hy]]; apply queryEndpoint_state in Q;
    try (apply Hprimary_only; exact Q).
  destruct r as [result|]; [apply Hprimary_only; exact Q|].
  unfold XrpcHandleResolver.try_pool. fold cfg.
  destruct (List.length (getAllServers cfg) =? 0)%nat;
    [apply Hprimary_only; exact Q|].
  destruct (XrpcHandleResolver.pool_loop
              fuel self handle (Nat.min 5 (List.length (getAllServers cfg)))
              JsSet.empty env s1) as [x s2] eqn:L.
  apply pool_loop_trace in L as [servers [H1 [H2 [H3 [H4 H5]]]]].
  exists servers.
  split; [|split; [exact H2|split; [exact H4|exact H5]]].
  cbn [snd]. rewrite H1, Q. cbn [trace after_fetch].
  rewrite <- app_assoc. reflexivity.
Qed.

(** Distinct servers of a pool that does not hold the primary endpoint are,
    with it, distinct hosts. *)
Lemma hosts_distinct (cfg : PdsEndpoints) (servers : list string) :
  NoDup servers -> incl servers (getAllServers cfg) ->
  ~ In (primary cfg) (map (String.append "https://") (getAllServers cfg)) ->
  NoDup (primary cfg :: map (String.append "https://") servers).
Proof.
  intros Hnd Hincl Hprim. constructor.
  - intros Hin. apply Hprim.
    apply in_map_iff in Hin as [sv [Hsv Hin]].
    apply in_map_iff. exists sv. split; [exact Hsv | apply Hincl, Hin].
  - apply NoDup_map_append, Hnd.
Qed.

(** C7: one resolution by the directory strategy queries the primary
    endpoint once and then servers of the pool, each of them at most once
    and at most [min 5 N] of them for a pool of [N] servers, whatever the
    hosts answer (all failing included) and also when the run is cut short;
    and no host twice when the primary endpoint is not itself a server of
    the pool. *)
Theorem xrpc_resolve_queries_each_host_once :
  forall (fuel : nat) (self : XrpcHandleResolver.t) (handle : string)
         (env : Env) (s : State),
    let cfg := XrpcHandleResolver.pdsEndpoints self in
    exists servers : list string,
      trace (snd (XrpcHandleResolver.resolve fuel self handle env s)) =
        (trace s ++ EvFetch (xrpc_request self (primary cfg) handle)
               :: pool_requests self handle servers)%list /\
      NoDup servers /\
      incl servers (getAllServers cfg) /\
      (List.length servers <= Nat.min 5 (List.length (getAllServers cfg)))%nat /\
      (~ In (primary cfg) (map (String.append "https://") (getAllServers cfg)) ->
       NoDup (primary cfg :: map (String.append "https://") servers)).
Proof.
  intros fuel self handle env s cfg.
  destruct (xrpc_resolve_trace fuel self handle env s)
    as [servers [H1 [H2 [H3 H4]]]].
  exists servers. repeat (split; [assumption|]).
  apply hosts_distinct; assumption.
Qed.

(** The catalogue that is shipped: 81 servers, none of them the primary
    endpoint. *)
Lemma PDS_ENDPOINTS_pool :
  List.length (getAllServers PDS_ENDPOINTS) = 81%nat /\
  ~ In (primary PDS_ENDPOINTS)
       (map (String.append "https://") (getAllServers PDS_ENDPOINTS)).
Proof.
  split; [reflexivity|].
  intros Hin.
  assert (existsb (String.eqb (primary PDS_ENDPOINTS))
                  (map (String.append "https://") (getAllServers PDS_ENDPOINTS))
          = true) as E.
  { apply existsb_exists. eexists. split; [exact Hin | apply String.eqb_refl]. }
  vm_compute in E. discriminate.
Qed.

(** The resolver of the facade queries the primary endpoint and at most
    five servers of the pool, six different hosts at most. *)
Corollary handleResolver_xrpc_queries fuel handle env s :
  let self := UnifiedHandleResolver.xrpcResolver handleResolver in
  exists servers : list string,
    trace (snd (XrpcHandleResolver.resolve fuel self handle env s)) =
      (trace s ++ EvFetch (xrpc_request self "https://public.api.bsky.app" handle)
             :: pool_requests self handle servers)%list /\
    (List.length servers <= 5)%nat /\
    NoDup ("https://public.api.bsky.app" :: map (String.append "https://") servers).
Proof.
  intros self.
  destruct (xrpc_resolve_trace fuel self handle env s)
    as [servers [H1 [H2 [H3 H4]]]].
  exists servers. split; [exact H1|]. split.
  - etransitivity; [exact H4|]. apply Nat.le_min_l.
  - apply (hosts_distinct PDS_ENDPOINTS servers H2 H3), PDS_ENDPOINTS_pool.
Qed.

(** With every host failing and a generator that never repeats itself, the
    bound is reached: the primary endpoint and five servers. *)
Lemma xrpc_resolve_all_fail_example :
  List.length
    (trace (snd (XrpcHandleResolver.resolve
                   10 (UnifiedHandleResolver.xrpcResolver handleResolver)
                   "bob.example" env_all_fail initial_state)))
  = 6%nat.
Proof. vm_compute. reflexivity. Qed.

(** Per host, an invalid handle has an error of its own. *)
Lemma queryEndpoint_invalid_handle self baseUrl handle env s resp :
  net env (n_fetch s) (xrpc_request self baseUrl handle) = Fetched resp ->
  invalid_handle_response resp ->
  XrpcHandleResolver.queryEndpoint self baseUrl handle env s =
  (Throw (Error ("Invalid handle format: " ++ handle)),
   after_fetch (xrpc_request self baseUrl handle) s).
Proof.
  intros Hnet [Hst [v [Hbody Hprop]]].
  unfold XrpcHandleResolver.queryEndpoint, try_catch, bind, fetch.
  fold (xrpc_request self baseUrl handle). rewrite Hnet.
  unfold ok. rewrite Hst. cbn [Z.leb Z.compare negb andb Z.eqb Pos.compare
                                 Pos.compare_cont Pos.eqb].
  unfold json. rewrite Hbody. unfold ret, lift. rewrite Hprop.
  reflexivity.
Qed.

(** The errors of the strategy itself *)
Lemma xrpc_resolve_errors fuel self handle env s e s' :
  XrpcHandleResolver.resolve fuel self handle env s = (Throw e, s') ->
  e = Error "No PDS servers available" \/
  e = Error ("XRPC resolution failed for handle: " ++ handle).
Proof.
  assert (forall remaining tried s e s',
             XrpcHandleResolver.pool_loop fuel self handle remaining tried env s
             = (Throw e, s') ->
             e = Error ("XRPC resolution failed for handle: " ++ handle)) as Hloop.
  { induction remaining as [|n IH]; intros tried s0 e0 s0' H;
      cbn [XrpcHandleResolver.pool_loop] in H.
    - finished H. reflexivity.
    - unfold bind in H.
      destruct (XrpcHandleResolver.draw_untried fuel self tried env s0)
        as [[server|e1|] s1] eqn:D.
      + destruct server as [sv|]; [|finished H; reflexivity].
        destruct (negb (JsString.truthy sv) || JsSet.has sv tried);
          [finished H; reflexivity|].
        destruct (XrpcHandleResolver.attempt _ env s1) as [[r|e2|] s2] eqn:Q.
        * destruct r; [discriminate | eapply IH, H].
        * apply attempt_inv in Q as [y [_ Hy]]. destruct y; discriminate.
        * discriminate.
      + exfalso. revert D. clear. revert s0.
        induction fuel as [|fuel IH]; intros s0 D; simpl in D; [discriminate|].
        unfold bind, getRandomServerFromAll in D.
        destruct (List.length _ =? 0)%nat; cbv beta iota in D.
        * unfold ret in D. destruct (_ && _); [eapply IH, D | discriminate].
        * unfold bind, random_index, ret in D.
          destruct (_ && _); [eapply IH, D | discriminate].
      + discriminate. }
  unfold XrpcHandleResolver.resolve, bind. intros H.
  destruct (XrpcHandleResolver.attempt _ env s) as [[r|e1|] s1] eqn:Q.
  - destruct r; [discriminate|].
    unfold XrpcHandleResolver.try_pool in H.
    destruct (List.length _ =? 0)%nat.
    + finished H. left. reflexivity.
    + right. eapply Hloop, H.
  - apply attempt_inv in Q as [y [_ Hy]]. destruct y; discriminate.
  - discriminate.
Qed.

Lemma invalid_handle_is_invalid : invalid_handle_response invalid_handle.
Proof.
  split; [reflexivity|]. exists invalid_handle_body. split; reflexivity.
Qed.

(** C2 as stated does not hold: the primary endpoint answers 400 with
    [InvalidHandle], and the resolution neither ends with the error of that
    answer nor stops querying hosts. *)
Lemma xrpc_invalid_handle_counterexample :
  ~ stops_on_invalid_handle
      10 (UnifiedHandleResolver.xrpcResolver handleResolver) "bob.example"
      env_invalid_handle initial_state.
Proof.
  intros H.
  specialize (H invalid_handle eq_refl invalid_handle_is_invalid).
  vm_compute in H. discriminate.
Qed.

(** What happens instead: five servers of the pool are queried after the
    primary endpoint, and the error is the one of an exhausted pool. *)
Lemma xrpc_invalid_handle_example :
  let r := XrpcHandleResolver.resolve
             10 (UnifiedHandleResolver.xrpcResolver handleResolver)
             "bob.example" env_invalid_handle initial_state in
  fst r = Throw (Error "XRPC resolution failed for handle: bob.example") /\
  List.length (trace (snd r)) = 6%nat.
Proof. vm_compute. split; reflexivity. Qed.

(** C2, amended: an invalid-handle answer makes the query of that host fail
    with an error of its own, and the strategy treats this failure like any
    other failure of a host: after the primary endpoint it goes on with the
    pool, in the pool with the next turn of the loop, and the only errors
    the strategy throws are its two own. *)
Theorem xrpc_invalid_handle_is_host_failure :
  forall (fuel : nat) (self : XrpcHandleResolver.t) (handle : string)
         (env : Env) (s : State),
    (forall baseUrl resp,
        net env (n_fetch s) (xrpc_request self baseUrl handle) = Fetched resp ->
        invalid_handle_response resp ->
        XrpcHandleResolver.queryEndpoint self baseUrl handle env s =
        (Throw (Error ("Invalid handle format: " ++ handle)),
         after_fetch (xrpc_request self baseUrl handle) s)) /\
    (forall e s1,
        XrpcHandleResolver.queryEndpoint
          self (primary (XrpcHandleResolver.pdsEndpoints self)) handle env s
        = (Throw e, s1) ->
        XrpcHandleResolver.resolve fuel self handle env s =
        XrpcHandleResolver.try_pool fuel self handle env s1) /\
    (forall remaining tried sv s1 e s2,
        XrpcHandleResolver.draw_untried fuel self tried env s = (Ok (Some sv), s1) ->
        JsString.truthy sv = true -> JsSet.has sv tried = false ->
        XrpcHandleResolver.queryEndpoint self ("https://" ++ sv) handle env s1
        = (Throw e, s2) ->
        XrpcHandleResolver.pool_loop fuel self handle (S remaining) tried env s =
        XrpcHandleResolver.pool_loop fuel self handle remaining
                                     (JsSet.add sv tried) env s2) /\
    (forall e s',
        XrpcHandleResolver.resolve fuel self handle env s = (Throw e, s') ->
        e = Error "No PDS servers available" \/
        e = Error ("XRPC resolution failed for handle: " ++ handle)).
Proof.
  intros fuel self handle env s. split; [|split; [|split]].
  - intros baseUrl resp. apply queryEndpoint_invalid_handle.
  - intros e s1 H.
    unfold XrpcHandleResolver.resolve, XrpcHandleResolver.attempt, bind,
      try_catch.
    rewrite H. reflexivity.
  - intros remaining tried sv s1 e s2 Hdraw Htruthy Hnew Hquery.
    cbn [XrpcHandleResolver.pool_loop].
    unfold bind at 1. rewrite Hdraw. cbv beta iota.
    rewrite Htruthy, Hnew. cbn [negb orb].
    unfold XrpcHandleResolver.attempt, bind, try_catch.
    rewrite Hquery. reflexivity.
  - intros e s'. apply xrpc_resolve_errors.
Qed.

Lemma xrpc_invalid_handle_is_host_failure_witness :
  let self := UnifiedHandleResolver.xrpcResolver handleResolver in
  XrpcHandleResolver.resolve 10 self "bob.example" env_invalid_handle initial_state =
  XrpcHandleResolver.try_pool 10 self "bob.example" env_invalid_handle
    (after_fetch (xrpc_request self "https://public.api.bsky.app" "bob.example")
                 initial_state).
Proof.
  intros self.
  destruct (xrpc_invalid_handle_is_host_failure
              10 self "bob.example" env_invalid_handle initial_state)
    as [Hhost [Hprimary _]].
  eapply Hprimary.
  apply (Hhost "https://public.api.bsky.app" invalid_handle eq_refl).
  exact invalid_handle_is_invalid.
Defined.

(* ------------------------------------------------------------------ *)
(** ** The unified handle resolver *)
(* ------------------------------------------------------------------ *)

Lemma prop_completes v k : JsValue.prop v k <> Spin.
Proof. destruct v as [[]|]; discriminate. Qed.

Lemma isValidDid_completes d : isValidDid d <> Spin.
Proof.
  unfold isValidDid. destruct (negb (JsValue.truthy_opt d)); [discriminate|].
  destruct d as [[]|]; discriminate.
Qed.

Lemma and_then_completes {A B} (r : Res A) (k : A -> Res B) :
  r <> Spin -> (forall a, k a <> Spin) -> and_then r k <> Spin.
Proof.
  intros Hr Hk. destruct r; simpl; [apply Hk | discriminate | congruence].
Qed.

(** The parser of DNS answers always completes. *)
Lemma check_answer_completes data answer :
  DnsHandleResolver.check_answer data answer <> Spin.
Proof.
  unfold DnsHandleResolver.check_answer.
  apply and_then_completes; [apply prop_completes | intros ty].
  destruct (negb (JsValue.is_number ty 16)); [discriminate|].
  apply and_then_completes; [apply prop_completes | intros txt].
  destruct txt as [[]|]; try discriminate.
  cbv zeta.
  destruct (JsString.startsWith _ DnsHandleResolver.DID_PREFIX); [|discriminate].
  apply and_then_completes; [apply isValidDid_completes | intros valid].
  destruct valid; [|discriminate].
  apply and_then_completes; [apply prop_completes | discriminate].
Qed.

Lemma scan_answers_completes data answers handle :
  DnsHandleResolver.scan_answers data answers handle <> Spin.
Proof.
  induction answers as [|a l IH]; simpl; [discriminate|].
  apply and_then_completes; [apply check_answer_completes | intros found].
  destruct found; [discriminate | exact IH].
Qed.

Lemma parseDnsResponse_completes data handle :
  DnsHandleResolver.parseDnsResponse data handle <> Spin.
Proof.
  unfold DnsHandleResolver.parseDnsResponse.
  apply and_then_completes; [apply prop_completes | intros st].
  destruct (negb (JsValue.is_number st 0)).
  - destruct (JsValue.is_number st 3); discriminate.
  - apply and_then_completes; [apply prop_completes | intros a].
    destruct (negb (JsValue.truthy_opt a)); [apply scan_answers_completes|].
    destruct a as [[]|]; try discriminate; apply scan_answers_completes.
Qed.

Lemma queryProvider_completes self p handle env s :
  fst (DnsHandleResolver.queryProvider self p handle env s) <> Spin.
Proof.
  unfold DnsHandleResolver.queryProvider, try_catch, bind, fetch.
  destruct (net env (n_fetch s) _) as [resp| |msg]; cbv beta iota.
  - destruct (negb (ok resp)); [unfold throw, on_abort; simpl; discriminate|].
    unfold json. destruct (body_json resp); unfold ret, throw, lift, on_abort.
    + pose proof (parseDnsResponse_completes v handle) as P.
      destruct (DnsHandleResolver.parseDnsResponse v handle);
        [discriminate | | contradiction].
      destruct (String.eqb _ _); discriminate.
    + destruct (String.eqb _ _); discriminate.
  - unfold on_abort. destruct (String.eqb _ _); discriminate.
  - unfold on_abort. destruct (String.eqb _ _); discriminate.
Qed.

(** Every provider is asked and none makes the strategy throw. *)
Lemma query_all_completes self ps handle env :
  forall s, exists l s1,
    DnsHandleResolver.query_all self ps handle env s = (Ok l, s1).
Proof.
  induction ps as [|p ps IH]; intros s; simpl.
  - eexists _, _. reflexivity.
  - unfold bind, try_catch, ret.
    pose proof (queryProvider_completes self p handle env s) as Q.
    destruct (DnsHandleResolver.queryProvider self p handle env s)
      as [[r|e0|] s1]; [| |contradiction];
      destruct (IH s1) as [l [s2 ->]]; eexists _, _; reflexivity.
Qed.

(** The only error of the DNS strategy *)
Lemma dns_resolve_error self handle env s e s' :
  DnsHandleResolver.resolve self handle env s = (Throw e, s') ->
  e = Error ("DNS resolution failed for handle: " ++ handle).
Proof.
  unfold DnsHandleResolver.resolve, bind. intros H.
  destruct (query_all_completes self (DnsHandleResolver.providers self) handle env s)
    as [l [s1 E]].
  rewrite E in H.
  destruct (DnsHandleResolver.first_value l); [discriminate|].
  finished H. reflexivity.
Qed.

Lemma bind_ok {A B} (m : M A) (k : A -> M B) env s a s1 :
  m env s = (Ok a, s1) -> bind m k env s = k a env s1.
Proof. intros H. unfold bind. rewrite H. reflexivity. Qed.

Lemma bind_throw {A B} (m : M A) (k : A -> M B) env s e s1 :
  m env s = (Throw e, s1) -> bind m k env s = (Throw e, s1).
Proof. intros H. unfold bind. rewrite H. reflexivity. Qed.

(** A strategy that throws leaves its method and its reason. *)
Lemma strategy_throw method m env s e s1 :
  m env s = (Throw e, s1) ->
  UnifiedHandleResolver.strategy method m env s =
  (Ok (inr (method, message e)), s1).
Proof.
  intros H. unfold UnifiedHandleResolver.strategy, try_catch.
  rewrite (bind_throw _ _ _ _ _ _ H). reflexivity.
Qed.

(** C4: when the cache has nothing for the handle and every strategy that
    is tried for it fails, the error of the resolver lists one
    method-and-reason pair per strategy tried, in the order of priority:
    [dns], [wellknown], [xrpc] for a handle outside [.bsky.social], and
    [xrpc] alone for one inside. *)
Theorem unified_resolve_aggregates_failures :
  forall (fuel : nat) (self : UnifiedHandleResolver.t) (handle : string)
         (env : Env) (s s0 : State),
    UnifiedHandleResolver.getFromCache self handle env s = (Ok None, s0) ->
    (JsString.endsWith handle ".bsky.social" = false ->
     forall e1 s1 e2 s2 e3 s3,
       DnsHandleResolver.resolve
         (UnifiedHandleResolver.dnsResolver self) handle env s0 = (Throw e1, s1) ->
       WellKnownHandleResolver.resolve
         (UnifiedHandleResolver.wellKnownResolver self) handle env s1 = (Throw e2, s2) ->
       XrpcHandleResolver.resolve
         fuel (UnifiedHandleResolver.xrpcResolver self) handle env s2 = (Throw e3, s3) ->
       UnifiedHandleResolver.resolve fuel self handle env s =
       (Throw (Error ("Failed to resolve handle " ++ quote handle ++ " - "
                        ++ "dns: " ++ message e1
                        ++ ", wellknown: " ++ message e2
                        ++ ", xrpc: " ++ message e3)), s3)) /\
    (JsString.endsWith handle ".bsky.social" = true ->
     forall e3 s3,
       XrpcHandleResolver.resolve
         fuel (UnifiedHandleResolver.xrpcResolver self) handle env s0 = (Throw e3, s3) ->
       UnifiedHandleResolver.resolve fuel self handle env s =
       (Throw (Error ("Failed to resolve handle " ++ quote handle ++ " - "
                        ++ "xrpc: " ++ message e3)), s3)).
Proof.
  intros fuel self handle env s s0 Hcache.
  assert (forall a b c : string, (a ++ b) ++ c = a ++ b ++ c) as Hassoc.
  { induction a as [|x a IH]; simpl; intros b c; [reflexivity|].
    rewrite IH. reflexivity. }
  split.
  - intros Hbsky e1 s1 e2 s2 e3 s3 Hdns Hwk Hxrpc.
    unfold UnifiedHandleResolver.resolve.
    rewrite (bind_ok _ _ _ _ _ _ Hcache). cbv beta iota.
    rewrite Hbsky. cbn [negb].
    erewrite bind_ok;
      [|erewrite bind_ok; [|apply strategy_throw, Hdns]; reflexivity].
    cbv beta iota.
    erewrite bind_ok;
      [|erewrite bind_ok; [|apply strategy_throw, Hwk]; reflexivity].
    cbv beta iota.
    erewrite bind_ok;
      [|erewrite bind_ok; [|apply strategy_throw, Hxrpc]; reflexivity].
    cbv beta iota.
    unfold throw. f_equal. f_equal. f_equal.
    unfold quote, UnifiedHandleResolver.errorDetails, JsString.join.
    cbn [map app fst snd String.concat].
    rewrite !Hassoc. reflexivity.
  - intros Hbsky e3 s3 Hxrpc.
    unfold UnifiedHandleResolver.resolve.
    rewrite (bind_ok _ _ _ _ _ _ Hcache). cbv beta iota.
    rewrite Hbsky. cbn [negb].
    erewrite bind_ok; [|reflexivity]. cbv beta iota.
    erewrite bind_ok; [|reflexivity]. cbv beta iota.
    erewrite bind_ok;
      [|erewrite bind_ok; [|apply strategy_throw, Hxrpc]; reflexivity].
    cbv beta iota.
    unfold throw. f_equal. f_equal. f_equal.
    unfold quote, UnifiedHandleResolver.errorDetails, JsString.join.
    cbn [map app fst snd String.concat].
    rewrite !Hassoc. reflexivity.
Qed.

Lemma unified_resolve_aggregates_failures_witness :
  fst (UnifiedHandleResolver.resolve 10 handleResolver "bob.example"
                                     env_all_fail initial_state) =
  Throw (Error ("Failed to resolve handle " ++ quote "bob.example" ++ " - "
                  ++ "dns: DNS resolution failed for handle: bob.example"
                  ++ ", wellknown: HTTP 500: Failed to fetch well-known"
                  ++ ", xrpc: XRPC resolution failed for handle: bob.example")).
Proof.
  erewrite (proj1 (unified_resolve_aggregates_failures
                     10 handleResolver "bob.example" env_all_fail
                     initial_state initial_state eq_refl) eq_refl);
    cycle 1.
  - lazy. reflexivity.
  - lazy. reflexivity.
  - lazy. reflexivity.
  - reflexivity.
Defined.

(** A handle under [.bsky.social]: the directory is the only strategy
    tried, and the only one in the error. *)
Lemma unified_resolve_bsky_example :
  fst (UnifiedHandleResolver.resolve 10 handleResolver "bob.bsky.social"
                                     env_all_fail initial_state) =
  Throw (Error ("Failed to resolve handle " ++ quote "bob.bsky.social" ++ " - "
                  ++ "xrpc: XRPC resolution failed for handle: bob.bsky.social")).
Proof. vm_compute. reflexivity. Qed.

(* ------------------------------------------------------------------ *)
(** ** The engine at work *)
(* ------------------------------------------------------------------ *)

Example validateUrl_record :
  validateUrl "at://alice.test/app.bsky.feed.post/xyz" =
  Ok (mkParsed "alice.test" (Some "app.bsky.feed.post") (Some "xyz")).
Proof. reflexivity. Qed.

Example validateUrl_repository :
  validateUrl "at://alice.test" = Ok (mkParsed "alice.test" None None).
Proof. reflexivity. Qed.

Example validateUrl_no_prefix :
  validateUrl "https://alice.test" = Throw (Error "URL must start with at://").
Proof. reflexivity. Qed.

Example wellknown_first_line :
  WellKnownHandleResolver.parseResponse
    ("did:plc:abc123" ++ String "010" EmptyString) "alice.test"
  = Ok "did:plc:abc123".
Proof. reflexivity. Qed.

Example parseDnsResponse_did :
  DnsHandleResolver.parseDnsResponse alice_dns "alice.test" =
  Ok (mkHandleResult "did:plc:abc123" "dns" None (Some (JStr "unknown"))).
Proof. reflexivity. Qed.

(** A local resolution from the handle to the record: two DNS queries, the
    directory, the record; both caches filled on the way. *)
Example resolve_alice :
  let r := resolve 10 "at://alice.test/app.bsky.feed.post/xyz"
                   (options_of_mode (Some "local")) env_alice initial_state in
  fst r = Ok alice_record /\
  map (fun ev => match ev with
                 | EvFetch q => req_url q
                 | EvLocal u | EvRemote u => u
                 end) (trace (snd r)) =
  [ "at://alice.test/app.bsky.feed.post/xyz";
    "https://dns.google/resolve?name=_atproto.alice.test&type=TXT";
    "https://cloudflare-dns.com/dns-query?name=_atproto.alice.test&type=TXT";
    "https://plc.directory/did:plc:abc123";
    "https://pds.alice.test/xrpc/com.atproto.repo.getRecord?repo=did:plc:abc123&collection=app.bsky.feed.post&rkey=xyz" ] /\
  JsMap.keys (handleCache (snd r)) = ["alice.test"] /\
  JsMap.keys (didCache (snd r)) = ["did:plc:abc123"].
Proof. vm_compute. repeat split. Qed.

(** The DID cache is looked up before the method of the DID: an entry that
    is still fresh is returned as it is. *)
Lemma resolveDid_cached d timeout env s entry :
  JsMap.get d (didCache s) = Some entry ->
  (clock env (n_clock s) - timestamp entry < CACHE_TTL)%Z ->
  fst (resolveDid d timeout env s) = Ok (value entry) /\
  trace (snd (resolveDid d timeout env s)) = trace s.
Proof.
  intros Hget Hfresh.
  unfold resolveDid, bind, get_state. rewrite Hget.
  unfold Date_now, ret. cbv beta iota.
  destruct (Z.ltb_spec (clock env (n_clock s) - timestamp entry) CACHE_TTL);
    [split; reflexivity | lia].
Qed.

(* ================================================================== *)
(** * Further properties of the engine *)
(* ================================================================== *)

(* ------------------------------------------------------------------ *)
(** ** Lookups in the caches *)
(* ------------------------------------------------------------------ *)

Section MapLookup.

Variable V : Type.
Implicit Types (m : JsMap.t V) (k : string) (v : V).

Lemma get_set_same k v m : JsMap.get k (JsMap.set k v m) = Some v.
Proof.
  induction m as [|[k' v'] m IH]; simpl.
  - rewrite String.eqb_refl. reflexivity.
  - destruct (String.eqb k' k) eqn:E; simpl; rewrite E; [reflexivity | exact IH].
Qed.

Lemma get_set_other k k' v m :
  k' <> k -> JsMap.get k' (JsMap.set k v m) = JsMap.get k' m.
Proof.
  intros Hne. induction m as [|[k2 v2] m IH]; simpl.
  - destruct (String.eqb_spec k k'); [congruence | reflexivity].
  - destruct (String.eqb_spec k2 k) as [->|]; simpl.
    + destruct (String.eqb_spec k k'); [congruence | reflexivity].
    + rewrite IH. reflexivity.
Qed.

Lemma get_delete_same k m :
  JsMap.wf m -> JsMap.get k (JsMap.delete k m) = None.
Proof.
  unfold JsMap.wf, JsMap.keys.
  induction m as [|[k' v'] m IH]; simpl; intros H; [reflexivity|].
  inversion H as [|? ? Hnotin Hnodup]; subst.
  destruct (String.eqb_spec k' k) as [->|Hne]; simpl.
  - apply get_None. exact Hnotin.
  - destruct (String.eqb_spec k' k); [contradiction | apply IH, Hnodup].
Qed.

Lemma get_delete_other k k' m :
  k' <> k -> JsMap.get k' (JsMap.delete k m) = JsMap.get k' m.
Proof.
  intros Hne. induction m as [|[k2 v2] m IH]; simpl; [reflexivity|].
  destruct (String.eqb_spec k2 k) as [->|]; simpl.
  - destruct (String.eqb_spec k k'); [congruence | reflexivity].
  - rewrite IH. reflexivity.
Qed.

Lemma get_In k v m : JsMap.get k m = Some v -> In (k, v) m.
Proof.
  induction m as [|[k' v'] m IH]; simpl; [discriminate|].
  destruct (String.eqb_spec k' k) as [->|].
  - intros H; injection H as ->. left; reflexivity.
  - intros H. right. apply IH, H.
Qed.

Lemma In_get k v m : JsMap.wf m -> In (k, v) m -> JsMap.get k m = Some v.
Proof.
  unfold JsMap.wf, JsMap.keys.
  induction m as [|[k' v'] m IH]; simpl; intros Hwf Hin; [contradiction|].
  inversion Hwf as [|? ? Hnotin Hnodup]; subst.
  destruct Hin as [Heq|Hin].
  - injection Heq as -> ->. rewrite String.eqb_refl. reflexivity.
  - destruct (String.eqb_spec k' k) as [->|]; [|apply IH; assumption].
    exfalso. apply Hnotin. apply in_map_iff. exists (k, v). auto.
Qed.

(** A key that is new goes to the end of the map. *)
Lemma set_new k v m :
  mem_key k m = false -> JsMap.set k v m = (m ++ [(k, v)])%list.
Proof.
  induction m as [|[k' v'] m IH]; simpl; [reflexivity|].
  intros H. apply orb_false_iff in H as [H1 H2].
  rewrite H1. rewrite (IH H2). reflexivity.
Qed.

End MapLookup.

(* ------------------------------------------------------------------ *)
(** ** The handle cache at work *)
(* ------------------------------------------------------------------ *)

(** X1: a handle whose cache entry is at most [cacheTTL] old is answered
    from the cache: the clock is read once and nothing else happens, no
    request is sent and the entry keeps its time stamp. *)
Theorem unified_resolve_cache_hit :
  forall (fuel : nat) (self : UnifiedHandleResolver.t) (handle : string)
         (env : Env) (s : State) (entry : CacheEntry HandleResult),
    JsMap.get handle (handleCache s) = Some entry ->
    (clock env (n_clock s) - timestamp entry <= UnifiedHandleResolver.cacheTTL self)%Z ->
    UnifiedHandleResolver.resolve fuel self handle env s =
    (Ok (value entry), after_clock s).
Proof.
  intros fuel self handle env s entry Hget Hfresh.
  unfold UnifiedHandleResolver.resolve, UnifiedHandleResolver.getFromCache.
  unfold bind, get_state. rewrite Hget. unfold Date_now at 1. cbv beta iota.
  destruct (Z.ltb_spec (UnifiedHandleResolver.cacheTTL self)
                       (clock env (n_clock s) - timestamp entry)); [lia|].
  reflexivity.
Qed.

Lemma unified_resolve_cache_hit_witness :
  UnifiedHandleResolver.resolve 10 handleResolver "alice.test" env_all_fail
                                alice_cached =
  (Ok sample_result, after_clock alice_cached).
Proof.
  apply (unified_resolve_cache_hit 10 handleResolver "alice.test" env_all_fail
                                   alice_cached (mkEntry sample_result 0%Z)).
  - reflexivity.
  - vm_compute. discriminate.
Defined.

Lemma getFromCache_expired_state self handle env s entry :
  JsMap.get handle (handleCache s) = Some entry ->
  (UnifiedHandleResolver.cacheTTL self < clock env (n_clock s) - timestamp entry)%Z ->
  UnifiedHandleResolver.getFromCache self handle env s =
  (Ok None,
   mkState (trace s) (n_fetch s) (n_random s) (S (n_clock s))
           (JsMap.delete handle (handleCache s)) (didCache s)).
Proof.
  intros Hget Hold.
  unfold UnifiedHandleResolver.getFromCache.
  unfold bind, get_state. rewrite Hget. unfold Date_now. cbv beta iota.
  rewrite (proj2 (Z.ltb_lt _ _) Hold). reflexivity.
Qed.

(** X2: an entry older than [cacheTTL] is removed when it is looked up and
    the lookup misses; the other handles keep their entries. *)
Theorem getFromCache_expired :
  forall (self : UnifiedHandleResolver.t) (handle : string)
         (env : Env) (s : State) (entry : CacheEntry HandleResult),
    JsMap.wf (handleCache s) ->
    JsMap.get handle (handleCache s) = Some entry ->
    (UnifiedHandleResolver.cacheTTL self < clock env (n_clock s) - timestamp entry)%Z ->
    let r := UnifiedHandleResolver.getFromCache self handle env s in
    fst r = Ok None /\
    JsMap.get handle (handleCache (snd r)) = None /\
    (forall other, other <> handle ->
                   JsMap.get other (handleCache (snd r)) =
                   JsMap.get other (handleCache s)) /\
    trace (snd r) = trace s.
Proof.
  intros self handle env s entry Hwf Hget Hold r. subst r.
  rewrite (getFromCache_expired_state _ _ _ _ _ Hget Hold). cbn [fst snd handleCache trace].
  repeat split.
  - apply get_delete_same, Hwf.
  - intros other Hne. apply get_delete_other, Hne.
Qed.

Lemma getFromCache_expired_witness :
  JsMap.get "alice.test"
    (handleCache
       (snd (UnifiedHandleResolver.getFromCache
               handleResolver "alice.test"
               (mkEnv (fun _ _ => Fetched server_error) (fun i => i)
                      (fun _ => 300001%Z))
               alice_cached))) = None.
Proof.
  refine (proj1 (proj2 (getFromCache_expired
                          handleResolver "alice.test" _ alice_cached
                          (mkEntry sample_result 0%Z) _ eq_refl _))).
  - apply distinct_NoDup. reflexivity.
  - vm_compute. reflexivity.
Defined.

Section Survival.

Variable V : Type.
Implicit Types (e x : string * CacheEntry V) (l c : list (string * CacheEntry V)).

Lemma insert_before_latest e x l :
  older e x ->
  UnifiedHandleResolver.insert_by_timestamp e (l ++ [x]) =
  (UnifiedHandleResolver.insert_by_timestamp e l ++ [x])%list.
Proof.
  intros Hle. induction l as [|y l IH]; simpl.
  - unfold older in Hle. rewrite (proj2 (Z.leb_le _ _) Hle). reflexivity.
  - destruct (_ <=? _)%Z; [reflexivity|]. rewrite IH. reflexivity.
Qed.

(** The latest entry, if it is the last one, stays last when the entries
    are sorted. *)
Lemma sort_latest_last x l :
  (forall e, In e l -> older e x) ->
  UnifiedHandleResolver.sort_by_timestamp (l ++ [x]) =
  (UnifiedHandleResolver.sort_by_timestamp l ++ [x])%list.
Proof.
  induction l as [|y l IH]; simpl; intros H; [reflexivity|].
  rewrite IH by (intros e He; apply H; right; exact He).
  apply insert_before_latest. apply H. left. reflexivity.
Qed.

Lemma limit_size_keeps_latest k (v : CacheEntry V) c :
  JsMap.wf c -> mem_key k c = false ->
  (forall e, In e c -> older e (k, v)) ->
  In (k, v) (UnifiedHandleResolver.limit_size (c ++ [(k, v)])%list).
Proof.
  intros Hwf Hnew Hlatest.
  unfold UnifiedHandleResolver.limit_size.
  destruct (1000 <? _)%nat; [|apply in_or_app; right; left; reflexivity].
  assert (JsMap.wf (c ++ [(k, v)])%list) as Hwf'.
  { rewrite <- (set_new _ k v c Hnew). apply set_wf, Hwf. }
  rewrite delete_all_filter by exact Hwf'.
  apply filter_In. split; [apply in_or_app; right; left; reflexivity|].
  apply negb_true_iff. cbn [fst].
  destruct (mem_key k (UnifiedHandleResolver.evicted (c ++ [(k, v)])%list)) eqn:E;
    [|reflexivity].
  exfalso. apply mem_key_In in E.
  unfold UnifiedHandleResolver.evicted, JsMap.entries in E.
  rewrite (sort_latest_last _ _ Hlatest) in E.
  rewrite firstn_app in E.
  rewrite length_app in E. cbn [List.length] in E.
  rewrite (Permutation_length (sort_by_timestamp_perm V c)) in E.
  unfold UnifiedHandleResolver.floor_20_percent in E.
  assert ((List.length c + 1) / 5 - List.length c = 0)%nat as Hz.
  { apply Nat.sub_0_le.
    destruct (List.length c) as [|n]; [reflexivity|].
    apply Nat.Div0.div_le_upper_bound. lia. }
  rewrite Hz in E. cbn [firstn] in E. rewrite app_nil_r in E.
  apply in_map_iff in E as [e [Hk He]].
  apply in_firstn in He.
  apply (Permutation_in _ (sort_by_timestamp_perm V c)) in He.
  assert (mem_key k c = true) as Hm.
  { apply mem_key_In. apply in_map_iff. exists e. auto. }
  congruence.
Qed.

End Survival.

(** X3: what is stored can be looked up.  In a cache within its limit whose
    entries are not from the future, the handle just stored is found with
    its result and the time of storing, also when storing it has triggered
    the eviction. *)
Theorem cacheResult_then_lookup :
  forall (handle : string) (result : HandleResult) (env : Env) (s : State),
    JsMap.wf (handleCache s) ->
    (JsMap.size (handleCache s) <= 1000)%nat ->
    (forall e, In e (handleCache s) ->
               (timestamp (snd e) <= clock env (n_clock s))%Z) ->
    JsMap.get handle
      (handleCache (snd (UnifiedHandleResolver.cacheResult handle result env s)))
    = Some (mkEntry result (clock env (n_clock s))).
Proof.
  intros handle result env s Hwf Hsize Hpast.
  set (entry := mkEntry result (clock env (n_clock s))).
  change (handleCache (snd (UnifiedHandleResolver.cacheResult handle result env s)))
    with (UnifiedHandleResolver.limit_size (JsMap.set handle entry (handleCache s))).
  destruct (mem_key handle (handleCache s)) eqn:Hmem.
  - unfold UnifiedHandleResolver.limit_size.
    rewrite size_set, Hmem.
    destruct (Nat.ltb_spec 1000 (JsMap.size (handleCache s))); [lia|].
    apply get_set_same.
  - rewrite (set_new _ _ _ _ Hmem).
    apply In_get.
    + rewrite <- (set_new _ _ entry _ Hmem). apply limit_size_wf, set_wf, Hwf.
    + apply limit_size_keeps_latest; [exact Hwf | exact Hmem |].
      intros e He. unfold older. cbn [snd timestamp]. apply Hpast, He.
Qed.

Lemma cacheResult_then_lookup_witness :
  JsMap.get "bob.example"
    (handleCache
       (snd (UnifiedHandleResolver.cacheResult
               "bob.example" sample_result
               (mkEnv (fun _ _ => Fetched server_error) (fun i => i)
                      (fun _ => 5000%Z))
               full_state)))
  = Some (mkEntry sample_result 5000%Z).
Proof.
  apply (cacheResult_then_lookup
           "bob.example" sample_result
           (mkEnv (fun _ _ => Fetched server_error) (fun i => i)
                  (fun _ => 5000%Z))
           full_state).
  - exact full_state_wf.
  - apply Nat.leb_le. vm_compute. reflexivity.
  - intros e He.
    assert (forallb (fun e : string * CacheEntry HandleResult =>
                       (timestamp (snd e) <=? 5000)%Z)
                    (handleCache full_state) = true) as Hall
        by (vm_compute; reflexivity).
    rewrite forallb_forall in Hall. apply Z.leb_le. apply Hall, He.
Defined.

(* ------------------------------------------------------------------ *)
(** ** What the strategies return *)
(* ------------------------------------------------------------------ *)

Lemma returns_ret {A} (P : A -> Prop) (a : A) : P a -> returns P (ret a).
Proof. intros H env s a' s' E. injection E as <- _. exact H. Qed.

Lemma returns_throw {A} (P : A -> Prop) (e : Exn) : returns P (throw e).
Proof. intros env s a s' E. discriminate E. Qed.

Lemma returns_lift {A} (P : A -> Prop) (r : Res A) :
  (forall a, r = Ok a -> P a) -> returns P (lift r).
Proof. intros H env s a s' E. injection E as E _. apply H, E. Qed.

Lemma returns_on_abort {A} (P : A -> Prop) msg e : returns P (on_abort msg e).
Proof.
  unfold on_abort. destruct (String.eqb _ _); apply returns_throw.
Qed.

Lemma returns_bind_with {A B} (Q : A -> Prop) (P : B -> Prop)
      (m : M A) (f : A -> M B) :
  returns Q m -> (forall a, Q a -> returns P (f a)) -> returns P (bind m f).
Proof.
  intros Hm Hf env s b s' E. unfold bind in E.
  destruct (m env s) as [[a|e|] s1] eqn:Em; try discriminate E.
  eapply Hf; [eapply Hm, Em | exact E].
Qed.

Lemma returns_bind {A B} (P : B -> Prop) (m : M A) (f : A -> M B) :
  (forall a, returns P (f a)) -> returns P (bind m f).
Proof.
  intros Hf. apply (returns_bind_with (fun _ => True)); [|auto].
  intros env s a s' _. exact I.
Qed.

Lemma returns_try_catch {A} (P : A -> Prop) (m : M A) (h : Exn -> M A) :
  returns P m -> (forall e, returns P (h e)) -> returns P (try_catch m h).
Proof.
  intros Hm Hh env s a s' E. unfold try_catch in E.
  destruct (m env s) as [[a'|e|] s1] eqn:Em.
  - injection E as <- _. eapply Hm, Em.
  - eapply Hh, E.
  - discriminate E.
Qed.

Lemma and_then_Ok {A B} (r : Res A) (k : A -> Res B) (b : B) :
  and_then r k = Ok b -> exists a, r = Ok a /\ k a = Ok b.
Proof. destruct r; simpl; intros H; try discriminate H. eauto. Qed.

(** [isValidDid] accepts nothing but strings with one of the two prefixes. *)
Lemma isValidDid_supported v :
  isValidDid v = Ok true -> exists d, v = Some (JStr d) /\ supported_did d = true.
Proof.
  unfold isValidDid. destruct (negb (JsValue.truthy_opt v)); [discriminate|].
  destruct v as [[]|]; try discriminate.
  intros H. injection H as H. eauto.
Qed.

Lemma check_answer_supported data answer r :
  DnsHandleResolver.check_answer data answer = Ok (Some r) ->
  supported_did (did r) = true.
Proof.
  unfold DnsHandleResolver.check_answer. intros H.
  apply and_then_Ok in H as [ty [_ H]].
  destruct (negb (JsValue.is_number ty 16)); [discriminate|].
  apply and_then_Ok in H as [txt [_ H]].
  destruct txt as [[]|]; try discriminate. cbv zeta in H.
  destruct (JsString.startsWith _ DnsHandleResolver.DID_PREFIX); [|discriminate].
  apply and_then_Ok in H as [valid [Hvalid H]].
  destruct valid; [|discriminate].
  apply and_then_Ok in H as [p [_ H]].
  injection H as <-. cbn [did].
  apply isValidDid_supported in Hvalid as [d [Hd Hs]].
  injection Hd as <-. exact Hs.
Qed.

Lemma scan_answers_supported data answers handle r :
  DnsHandleResolver.scan_answers data answers handle = Ok r ->
  supported_did (did r) = true.
Proof.
  induction answers as [|a l IH]; simpl; [discriminate|].
  intros H. apply and_then_Ok in H as [found [Hc H]].
  destruct found as [r'|]; [|apply IH, H].
  injection H as <-. eapply check_answer_supported, Hc.
Qed.

Lemma parseDnsResponse_supported data handle r :
  DnsHandleResolver.parseDnsResponse data handle = Ok r ->
  supported_did (did r) = true.
Proof.
  unfold DnsHandleResolver.parseDnsResponse. intros H.
  apply and_then_Ok in H as [st [_ H]].
  destruct (negb (JsValue.is_number st 0));
    [destruct (JsValue.is_number st 3); discriminate|].
  apply and_then_Ok in H as [a [_ H]].
  destruct (negb (JsValue.truthy_opt a));
    [eapply scan_answers_supported, H|].
  destruct a as [[]|]; try discriminate; eapply scan_answers_supported, H.
Qed.

Lemma wellknown_parseResponse_supported text handle d :
  WellKnownHandleResolver.parseResponse text handle = Ok d ->
  supported_did d = true.
Proof.
  unfold WellKnownHandleResolver.parseResponse. cbv zeta.
  destruct (negb (JsString.truthy _)); [discriminate|].
  intros H. apply and_then_Ok in H as [valid [Hvalid H]].
  destruct valid; [|discriminate]. injection H as <-.
  apply isValidDid_supported in Hvalid as [d [Hd Hs]].
  injection Hd as <-. exact Hs.
Qed.

Lemma xrpc_parseResponse_supported data handle d :
  XrpcHandleResolver.parseResponse data handle = Ok d ->
  supported_did d = true.
Proof.
  unfold XrpcHandleResolver.parseResponse.
  destruct data; try discriminate; intros H;
    apply and_then_Ok in H as [v [_ H]];
    (destruct (negb (JsValue.truthy_opt v)); [discriminate|]);
    apply and_then_Ok in H as [valid [Hvalid H]];
    (destruct valid; [|discriminate]);
    apply isValidDid_supported in Hvalid as [d' [-> Hs]];
    injection H as <-; exact Hs.
Qed.

Ltac returns_step :=
  match goal with
  | |- returns _ (bind _ _) => apply returns_bind; intros ?
  | |- returns _ (try_catch _ _) => apply returns_try_catch; [|intros ?]
  | |- returns _ (throw _) => apply returns_throw
  | |- returns _ (on_abort _ _) => apply returns_on_abort
  | |- returns _ (XrpcHandleResolver.failed _) => apply returns_throw
  | |- returns _ (if ?b then _ else _) => destruct b
  | |- returns _ (match ?x with _ => _ end) => destruct x
  end.

Lemma dns_queryProvider_returns self p handle :
  returns supported_result (DnsHandleResolver.queryProvider self p handle).
Proof.
  unfold DnsHandleResolver.queryProvider. repeat returns_step.
  apply returns_lift. intros r. apply parseDnsResponse_supported.
Qed.

Lemma dns_query_all_returns self ps handle :
  returns (fun l => forall r, In (Some r) l -> supported_result r)
          (DnsHandleResolver.query_all self ps handle).
Proof.
  induction ps as [|p ps IH]; simpl.
  - apply returns_ret. intros r [].
  - apply (returns_bind_with
             (fun o => forall r, o = Some r -> supported_result r)).
    + apply returns_try_catch.
      * apply (returns_bind_with supported_result);
          [apply dns_queryProvider_returns|].
        intros r Hr. apply returns_ret. intros r' E. injection E as <-. exact Hr.
      * intros e. apply returns_ret. discriminate.
    + intros o Ho. apply (returns_bind_with _ _ _ _ IH).
      intros l Hl. apply returns_ret.
      intros r [E|Hin]; [apply Ho, E | apply Hl, Hin].
Qed.

Lemma dns_resolve_returns self handle :
  returns supported_result (DnsHandleResolver.resolve self handle).
Proof.
  unfold DnsHandleResolver.resolve.
  apply (returns_bind_with _ _ _ _ (dns_query_all_returns self _ handle)).
  intros l Hl. unfold DnsHandleResolver.first_value.
  destruct (find _ l) as [[r|]|] eqn:F; try apply returns_throw.
  apply returns_ret. apply Hl. eapply find_some, F.
Qed.

Lemma wellknown_resolve_returns self handle :
  returns supported_result (WellKnownHandleResolver.resolve self handle).
Proof.
  unfold WellKnownHandleResolver.resolve. cbv zeta.
  apply returns_try_catch; [|intros e; apply returns_on_abort].
  apply returns_bind. intros response.
  destruct (_ && _)%bool; [apply returns_throw|].
  destruct (negb (ok response));
    [destruct (status response =? 404)%Z; apply returns_throw|].
  apply returns_bind. intros txt.
  apply (returns_bind_with (fun d => supported_did d = true)).
  - apply returns_lift. intros d. apply wellknown_parseResponse_supported.
  - intros d Hd. apply returns_ret. exact Hd.
Qed.

Lemma xrpc_queryEndpoint_returns self baseUrl handle :
  returns supported_result (XrpcHandleResolver.queryEndpoint self baseUrl handle).
Proof.
  unfold XrpcHandleResolver.queryEndpoint.
  apply returns_try_catch; [|intros e; apply returns_on_abort].
  apply returns_bind. intros response.
  destruct (negb (ok response)).
  - destruct (status response =? 400)%Z; repeat returns_step.
  - apply returns_bind. intros data.
    apply (returns_bind_with (fun d => supported_did d = true)).
    + apply returns_lift. intros d. apply xrpc_parseResponse_supported.
    + intros d Hd. apply returns_ret. exact Hd.
Qed.

Lemma xrpc_attempt_returns q :
  returns supported_result q ->
  returns (fun o => forall r, o = Some r -> supported_result r)
          (XrpcHandleResolver.attempt q).
Proof.
  intros Hq. unfold XrpcHandleResolver.attempt.
  apply returns_try_catch.
  - apply (returns_bind_with _ _ _ _ Hq). intros r Hr.
    apply returns_ret. intros r' E. injection E as <-. exact Hr.
  - intros e. apply returns_ret. discriminate.
Qed.

Lemma xrpc_pool_loop_returns fuel self handle remaining :
  forall tried,
    returns supported_result
            (XrpcHandleResolver.pool_loop fuel self handle remaining tried).
Proof.
  induction remaining as [|n IH]; intros tried;
    cbn [XrpcHandleResolver.pool_loop].
  - apply returns_throw.
  - apply returns_bind. intros server.
    destruct server as [sv|]; [|apply returns_throw].
    destruct (_ || _); [apply returns_throw|].
    cbv zeta.
    apply (returns_bind_with
             _ _ _ _ (xrpc_attempt_returns
                        _ (xrpc_queryEndpoint_returns self _ handle))).
    intros o Ho. destruct o as [r|]; [|apply IH].
    apply returns_ret. apply Ho. reflexivity.
Qed.

Lemma xrpc_resolve_returns fuel self handle :
  returns supported_result (XrpcHandleResolver.resolve fuel self handle).
Proof.
  unfold XrpcHandleResolver.resolve.
  apply (returns_bind_with
           _ _ _ _ (xrpc_attempt_returns
                      _ (xrpc_queryEndpoint_returns self _ handle))).
  intros o Ho. destruct o as [r|].
  - apply returns_ret. apply Ho. reflexivity.
  - unfold XrpcHandleResolver.try_pool. cbv zeta.
    destruct (_ =? _)%nat; [apply returns_throw|].
    apply xrpc_pool_loop_returns.
Qed.

(* ------------------------------------------------------------------ *)
(** ** The handle cache holds supported DIDs only *)
(* ------------------------------------------------------------------ *)

Lemma keeps_valid_ret {A} (P : A -> Prop) (a : A) : P a -> keeps_valid P (ret a).
Proof.
  intros H env s r s' Hs E. injection E as <- <-.
  split; [exact Hs|]. intros a' E. injection E as <-. exact H.
Qed.

Lemma keeps_valid_throw {A} (P : A -> Prop) (e : Exn) : keeps_valid P (throw e).
Proof.
  intros env s r s' Hs E. injection E as <- <-.
  split; [exact Hs|]. discriminate.
Qed.

Lemma keeps_valid_bind {A B} (Q : A -> Prop) (P : B -> Prop)
      (m : M A) (f : A -> M B) :
  keeps_valid Q m -> (forall a, Q a -> keeps_valid P (f a)) ->
  keeps_valid P (bind m f).
Proof.
  intros Hm Hf env s r s' Hs E. unfold bind in E.
  destruct (m env s) as [[a|e|] s1] eqn:Em.
  - destruct (Hm _ _ _ _ Hs Em) as [H1 Ha].
    eapply Hf; [apply Ha; reflexivity | exact H1 | exact E].
  - injection E as <- <-. destruct (Hm _ _ _ _ Hs Em) as [H1 _].
    split; [exact H1 | discriminate].
  - injection E as <- <-. destruct (Hm _ _ _ _ Hs Em) as [H1 _].
    split; [exact H1 | discriminate].
Qed.

Lemma keeps_valid_try_catch {A} (P : A -> Prop) (m : M A) (h : Exn -> M A) :
  keeps_valid P m -> (forall e, keeps_valid P (h e)) ->
  keeps_valid P (try_catch m h).
Proof.
  intros Hm Hh env s r s' Hs E. unfold try_catch in E.
  destruct (m env s) as [[a|e|] s1] eqn:Em.
  - injection E as <- <-. eapply Hm; eauto.
  - destruct (Hm _ _ _ _ Hs Em) as [H1 _]. eapply Hh; eauto.
  - injection E as <- <-. eapply Hm; eauto.
Qed.

Lemma keeps_valid_same {A} (P : A -> Prop) (m : M A) :
  steps same_handleCache m -> returns P m -> keeps_valid P m.
Proof.
  intros Hst Hr env s r s' Hs E. split.
  - unfold handleCache_valid. rewrite (Hst _ _ _ _ E). exact Hs.
  - intros a ->. eapply Hr, E.
Qed.

Lemma returns_any {A} (m : M A) : returns (fun _ => True) m.
Proof. intros env s a s' _. exact I. Qed.

Lemma same_handleCache_refl s : same_handleCache s s.
Proof. reflexivity. Qed.

Lemma same_handleCache_trans s1 s2 s3 :
  same_handleCache s1 s2 -> same_handleCache s2 s3 -> same_handleCache s1 s3.
Proof. unfold same_handleCache. congruence. Qed.

Lemma same_handleCache_fetch r : steps same_handleCache (fetch r).
Proof. intros env s x s' H. apply fetch_state in H. subst s'. reflexivity. Qed.

Lemma same_handleCache_now : steps same_handleCache Date_now.
Proof. intros env s x s' H. injection H as _ <-. reflexivity. Qed.

Lemma same_handleCache_random n : steps same_handleCache (random_index n).
Proof. intros env s x s' H. injection H as _ <-. reflexivity. Qed.

Lemma same_handleCache_emit ev : steps same_handleCache (emit ev).
Proof. intros env s x s' H. injection H as _ <-. reflexivity. Qed.

Lemma same_handleCache_did f : steps same_handleCache (update_didCache f).
Proof. intros env s x s' H. injection H as _ <-. reflexivity. Qed.

Lemma same_handleCache_dns self handle :
  steps same_handleCache (DnsHandleResolver.resolve self handle).
Proof.
  apply steps_dns_resolve;
    [exact same_handleCache_refl | exact same_handleCache_trans
     | exact same_handleCache_fetch].
Qed.

Lemma same_handleCache_wellknown self handle :
  steps same_handleCache (WellKnownHandleResolver.resolve self handle).
Proof.
  apply steps_wellknown_resolve;
    [exact same_handleCache_refl | exact same_handleCache_trans
     | exact same_handleCache_fetch].
Qed.

Lemma same_handleCache_xrpc fuel self handle :
  steps same_handleCache (XrpcHandleResolver.resolve fuel self handle).
Proof.
  apply steps_xrpc_resolve;
    [exact same_handleCache_refl | exact same_handleCache_trans
     | exact same_handleCache_fetch | exact same_handleCache_random].
Qed.

Lemma supported_delete k (c : JsMap.t (CacheEntry HandleResult)) :
  Forall (fun e => supported_did (did (value (snd e))) = true) c ->
  Forall (fun e => supported_did (did (value (snd e))) = true) (JsMap.delete k c).
Proof.
  induction c as [|[k' v'] c IH]; simpl; intros H; [exact H|].
  inversion H; subst. destruct (String.eqb k' k); [assumption|].
  constructor; [assumption | apply IH; assumption].
Qed.

Lemma supported_set k v (c : JsMap.t (CacheEntry HandleResult)) :
  supported_did (did (value v)) = true ->
  Forall (fun e => supported_did (did (value (snd e))) = true) c ->
  Forall (fun e => supported_did (did (value (snd e))) = true) (JsMap.set k v c).
Proof.
  intros Hv. induction c as [|[k' v'] c IH]; simpl; intros H.
  - constructor; [exact Hv | constructor].
  - inversion H; subst. destruct (String.eqb k' k).
    + constructor; assumption.
    + constructor; [assumption | apply IH; assumption].
Qed.

Lemma supported_delete_all victims :
  forall c : JsMap.t (CacheEntry HandleResult),
    Forall (fun e => supported_did (did (value (snd e))) = true) c ->
    Forall (fun e => supported_did (did (value (snd e))) = true)
           (UnifiedHandleResolver.delete_all victims c).
Proof.
  unfold UnifiedHandleResolver.delete_all.
  induction victims as [|v l IH]; simpl; intros c H; [exact H|].
  apply IH, supported_delete, H.
Qed.

Lemma supported_limit_size (c : JsMap.t (CacheEntry HandleResult)) :
  Forall (fun e => supported_did (did (value (snd e))) = true) c ->
  Forall (fun e => supported_did (did (value (snd e))) = true)
         (UnifiedHandleResolver.limit_size c).
Proof.
  intros H. unfold UnifiedHandleResolver.limit_size.
  destruct (_ <? _)%nat; [apply supported_delete_all, H | exact H].
Qed.

Lemma keeps_valid_getFromCache self handle :
  keeps_valid (fun o => forall c, o = Some c -> supported_result c)
              (UnifiedHandleResolver.getFromCache self handle).
Proof.
  intros env s r s' Hs E.
  unfold UnifiedHandleResolver.getFromCache, bind, get_state, Date_now,
    update_handleCache, ret in E.
  cbv beta iota in E.
  destruct (JsMap.get handle (handleCache s)) as [entry|] eqn:G.
  - cbv beta iota in E. destruct (_ <? _)%Z; injection E as <- <-.
    + split; [|intros a E c ->; discriminate E].
      apply supported_delete, Hs.
    + split; [exact Hs|]. intros a E c ->. injection E as <-.
      apply get_In in G.
      unfold handleCache_valid in Hs. rewrite Forall_forall in Hs.
      apply (Hs _ G).
  - injection E as <- <-. split; [exact Hs|]. intros a E c ->. discriminate E.
Qed.

Lemma keeps_valid_cacheResult handle result :
  supported_result result ->
  keeps_valid (fun _ => True) (UnifiedHandleResolver.cacheResult handle result).
Proof.
  intros Hr env s r s' Hs E. injection E as <- <-. split; [|intros; exact I].
  apply supported_limit_size, supported_set; [exact Hr | exact Hs].
Qed.

Lemma keeps_valid_strategy method m :
  steps same_handleCache m -> returns supported_result m ->
  keeps_valid (fun x => forall r, x = inl r -> supported_result r)
              (UnifiedHandleResolver.strategy method m).
Proof.
  intros Hst Hr. unfold UnifiedHandleResolver.strategy.
  apply keeps_valid_try_catch.
  - apply (keeps_valid_bind supported_result);
      [apply keeps_valid_same; assumption|].
    intros r H. apply keeps_valid_ret. intros r' E. injection E as <-. exact H.
  - intros e. apply keeps_valid_ret. discriminate.
Qed.

Lemma keeps_valid_collect method m errors :
  steps same_handleCache m -> returns supported_result m ->
  keeps_valid found_supported
    (r <- UnifiedHandleResolver.strategy method m ;;
     match r with
     | inl res => ret (Some res, errors)
     | inr e => ret (None, (errors ++ [e])%list)
     end).
Proof.
  intros Hst Hr.
  eapply keeps_valid_bind; [apply keeps_valid_strategy; assumption|].
  intros x Hx. destruct x as [res|e]; apply keeps_valid_ret.
  - intros r E. injection E as <-. apply Hx. reflexivity.
  - intros r E. discriminate E.
Qed.

Lemma keeps_valid_unified_resolve fuel self handle :
  keeps_valid supported_result
              (UnifiedHandleResolver.resolve fuel self handle).
Proof.
  unfold UnifiedHandleResolver.resolve.
  eapply keeps_valid_bind; [apply keeps_valid_getFromCache|].
  intros cached Hc. destruct cached as [c|].
  { apply keeps_valid_ret. apply Hc. reflexivity. }
  cbv zeta.
  apply (keeps_valid_bind found_supported).
  { destruct (negb _).
    - apply (keeps_valid_collect "dns" _ []);
        [apply same_handleCache_dns | apply dns_resolve_returns].
    - apply keeps_valid_ret. intros r E. discriminate E. }
  intros st1 H1.
  apply (keeps_valid_bind found_supported).
  { destruct st1 as [[r1|] errors]; [apply keeps_valid_ret, H1|].
    destruct (negb _); [|apply keeps_valid_ret, H1].
    apply keeps_valid_collect;
      [apply same_handleCache_wellknown | apply wellknown_resolve_returns]. }
  intros st2 H2.
  apply (keeps_valid_bind found_supported).
  { destruct st2 as [[r2|] errors]; [apply keeps_valid_ret, H2|].
    apply keeps_valid_collect;
      [apply same_handleCache_xrpc | apply xrpc_resolve_returns]. }
  intros st3 H3.
  destruct st3 as [[result|] errors]; [|apply keeps_valid_throw].
  assert (Hres : supported_result result) by (apply H3; reflexivity).
  eapply keeps_valid_bind; [apply keeps_valid_cacheResult, Hres|].
  intros _ _. apply keeps_valid_ret, Hres.
Qed.

(** X4: a handle resolution started from a handle cache whose entries all
    name a [did:plc:] or [did:web:] DID leaves such a cache, however it
    ends, and a result it returns names such a DID, whichever strategy or
    cache entry it comes from. *)
Theorem unified_resolve_supported_did fuel self handle env s x s' :
  handleCache_valid s ->
  UnifiedHandleResolver.resolve fuel self handle env s = (x, s') ->
  handleCache_valid s' /\
  (forall r, x = Ok r -> supported_did (did r) = true).
Proof. apply keeps_valid_unified_resolve. Qed.

Lemma unified_resolve_supported_did_witness :
  handleCache_valid initial_state /\
  handleCache_valid
    (snd (UnifiedHandleResolver.resolve 10 handleResolver "alice.test"
                                        env_alice initial_state)) /\
  (forall r,
      fst (UnifiedHandleResolver.resolve 10 handleResolver "alice.test"
                                         env_alice initial_state) = Ok r ->
      supported_did (did r) = true).
Proof.
  assert (H0 : handleCache_valid initial_state) by constructor.
  split; [exact H0|].
  apply (unified_resolve_supported_did
           10 handleResolver "alice.test" env_alice initial_state
           (fst (UnifiedHandleResolver.resolve 10 handleResolver "alice.test"
                                               env_alice initial_state))
           (snd (UnifiedHandleResolver.resolve 10 handleResolver "alice.test"
                                               env_alice initial_state)) H0).
  apply surjective_pairing.
Defined.

(* ------------------------------------------------------------------ *)
(** ** What the resolvers throw *)
(* ------------------------------------------------------------------ *)

Lemma throws_ret {A} (P : Exn -> Prop) (a : A) : throws P (ret a).
Proof. intros env s e s' E. discriminate E. Qed.

Lemma throws_throw {A} (P : Exn -> Prop) (e : Exn) :
  P e -> throws P (@throw A e).
Proof. intros H env s e' s' E. injection E as <- _. exact H. Qed.

Lemma throws_bind {A B} (P : Exn -> Prop) (m : M A) (f : A -> M B) :
  throws P m -> (forall a, throws P (f a)) -> throws P (bind m f).
Proof.
  intros Hm Hf env s e s' E. unfold bind in E.
  destruct (m env s) as [[a|e0|] s1] eqn:Em.
  - eapply Hf, E.
  - injection E as <- _. eapply Hm, Em.
  - discriminate E.
Qed.

Lemma throws_try_catch {A} (P : Exn -> Prop) (m : M A) (h : Exn -> M A) :
  (forall e, throws P (h e)) -> throws P (try_catch m h).
Proof.
  intros Hh env s e s' E. unfold try_catch in E.
  destruct (m env s) as [[a|e0|] s1] eqn:Em; try discriminate E.
  eapply Hh, E.
Qed.

Lemma throws_getFromCache (P : Exn -> Prop) self handle :
  throws P (UnifiedHandleResolver.getFromCache self handle).
Proof.
  intros env s e s' E.
  unfold UnifiedHandleResolver.getFromCache, bind, get_state, Date_now,
    update_handleCache, ret in E.
  cbv beta iota in E.
  destruct (JsMap.get handle (handleCache s)); [|discriminate E].
  cbv beta iota in E. destruct (_ <? _)%Z; discriminate E.
Qed.

Lemma throws_cacheResult (P : Exn -> Prop) handle result :
  throws P (UnifiedHandleResolver.cacheResult handle result).
Proof. intros env s e s' E. discriminate E. Qed.

Lemma throws_collect (P : Exn -> Prop) method m errors :
  throws P
    (r <- UnifiedHandleResolver.strategy method m ;;
     match r with
     | inl res => ret (Some res, errors)
     | inr e => ret (None, (errors ++ [e])%list)
     end).
Proof.
  apply throws_bind.
  - unfold UnifiedHandleResolver.strategy. apply throws_try_catch.
    intros e. apply throws_ret.
  - intros [res|e]; apply throws_ret.
Qed.

Lemma unified_resolve_throws fuel self handle :
  throws (unresolved handle) (UnifiedHandleResolver.resolve fuel self handle).
Proof.
  unfold UnifiedHandleResolver.resolve.
  apply throws_bind; [apply throws_getFromCache|].
  intros [c|]; [apply throws_ret|]. cbv zeta.
  apply throws_bind.
  { destruct (negb _); [apply throws_collect | apply throws_ret]. }
  intros [[r1|] errors1].
  - apply throws_bind; [apply throws_ret|]. intros [[r2|] errors2].
    + apply throws_bind; [apply throws_ret|]. intros [[r3|] errors3].
      * apply throws_bind; [apply throws_cacheResult|].
        intros _. apply throws_ret.
      * apply throws_throw. eexists. reflexivity.
    + apply throws_bind; [apply throws_collect|]. intros [[r3|] errors3].
      * apply throws_bind; [apply throws_cacheResult|].
        intros _. apply throws_ret.
      * apply throws_throw. eexists. reflexivity.
  - apply throws_bind.
    { destruct (negb _); [apply throws_collect | apply throws_ret]. }
    intros [[r2|] errors2].
    + apply throws_bind; [apply throws_ret|]. intros [[r3|] errors3].
      * apply throws_bind; [apply throws_cacheResult|].
        intros _. apply throws_ret.
      * apply throws_throw. eexists. reflexivity.
    + apply throws_bind; [apply throws_collect|]. intros [[r3|] errors3].
      * apply throws_bind; [apply throws_cacheResult|].
        intros _. apply throws_ret.
      * apply throws_throw. eexists. reflexivity.
Qed.

Lemma includes_prefix (s p : string) :
  String.prefix p s = true -> JsString.includes s p = true.
Proof. destruct s; simpl; intros ->; reflexivity. Qed.

Lemma resolveHandle_throws fuel handle timeout :
  throws (fun e => e = Error ("Handle " ++ JsString.dquote ++ handle
                                ++ JsString.dquote
                                ++ " not found - user may not exist"))
         (resolveHandle fuel handle timeout).
Proof.
  intros env s e s'.
  unfold resolveHandle, try_catch. intros E.
  destruct (bind _ _ env s) as [[a|e0|] s1] eqn:Em; try discriminate E.
  assert (H : unresolved handle e0).
  { revert Em. apply throws_bind.
    - apply unified_resolve_throws.
    - intros r. apply throws_ret. }
  destruct H as [details ->].
  unfold Error in E. cbn [message] in E.
  rewrite includes_prefix in E by reflexivity.
  injection E as <- _. reflexivity.
Qed.

(** X5: whatever the strategies answered, the only exception [resolveHandle]
    ends with is [Handle "h" not found - user may not exist]: the per-strategy
    reasons the unified resolver aggregates never reach its caller. *)
Theorem resolveHandle_throws_not_found fuel handle timeout env s e s' :
  resolveHandle fuel handle timeout env s = (Throw e, s') ->
  e = Error ("Handle " ++ JsString.dquote ++ handle ++ JsString.dquote
                       ++ " not found - user may not exist").
Proof. apply resolveHandle_throws. Qed.

Lemma resolveHandle_throws_not_found_witness :
  fst (resolveHandle 10 "bob.example" 30000 env_all_fail initial_state) =
  Throw (Error ("Handle " ++ JsString.dquote ++ "bob.example" ++ JsString.dquote
                          ++ " not found - user may not exist")).
Proof.
  destruct (resolveHandle 10 "bob.example" 30000 env_all_fail initial_state)
    as [[a|e|] s'] eqn:E;
    [vm_compute in E; discriminate E | | vm_compute in E; discriminate E].
  cbn [fst]. f_equal.
  exact (resolveHandle_throws_not_found _ _ _ _ _ _ _ E).
Defined.

(* ------------------------------------------------------------------ *)
(** ** The DNS strategy *)
(* ------------------------------------------------------------------ *)

Lemma after_fetches_spec rs :
  forall s,
    trace (after_fetches rs s) = (trace s ++ map EvFetch rs)%list /\
    n_fetch (after_fetches rs s) = (n_fetch s + List.length rs)%nat /\
    n_random (after_fetches rs s) = n_random s /\
    n_clock (after_fetches rs s) = n_clock s /\
    handleCache (after_fetches rs s) = handleCache s /\
    didCache (after_fetches rs s) = didCache s.
Proof.
  unfold after_fetches.
  induction rs as [|r rs IH]; intros s; simpl.
  - rewrite app_nil_r, Nat.add_0_r. repeat split.
  - destruct (IH (after_fetch r s)) as [H1 [H2 [H3 [H4 [H5 H6]]]]].
    rewrite H1, H2, H3, H4, H5, H6. simpl.
    rewrite <- app_assoc. simpl. repeat split. lia.
Qed.

Lemma dns_queryProvider_state self p handle env s x s' :
  DnsHandleResolver.queryProvider self p handle env s = (x, s') ->
  s' = after_fetch (dns_request self handle p) s.
Proof.
  unfold DnsHandleResolver.queryProvider. apply guarded_fetch_state.
  - intros resp. stateless.
  - intros e. stateless.
Qed.

Lemma dns_guarded_query self p handle env s :
  exists r,
    try_catch (x <- DnsHandleResolver.queryProvider self p handle ;; ret (Some x))
              (fun _ => ret None) env s =
    (Ok r, after_fetch (dns_request self handle p) s).
Proof.
  unfold try_catch, bind, ret.
  pose proof (queryProvider_completes self p handle env s) as C.
  destruct (DnsHandleResolver.queryProvider self p handle env s)
    as [[r|e|] s1] eqn:Q; apply dns_queryProvider_state in Q; subst s1.
  - eexists. reflexivity.
  - eexists. reflexivity.
  - exfalso. apply C. reflexivity.
Qed.

(** Every provider is asked, in the order of the list, and none makes the
    strategy throw. *)
Lemma dns_query_all_state self handle env ps :
  forall s, exists l,
    DnsHandleResolver.query_all self ps handle env s =
    (Ok l, after_fetches (map (dns_request self handle) ps) s).
Proof.
  induction ps as [|p ps IH]; intros s;
    cbn [DnsHandleResolver.query_all].
  - eexists. reflexivity.
  - destruct (dns_guarded_query self p handle env s) as [r Q].
    unfold bind at 1. rewrite Q.
    destruct (IH (after_fetch (dns_request self handle p) s)) as [l R].
    unfold bind. rewrite R. eexists. reflexivity.
Qed.


(* ------------------------------------------------------------------ *)
(** ** The order of the strategies *)
(* ------------------------------------------------------------------ *)

Lemma strategy_ok method m env s r s1 :
  m env s = (Ok r, s1) ->
  UnifiedHandleResolver.strategy method m env s = (Ok (inl r), s1).
Proof.
  intros H. unfold UnifiedHandleResolver.strategy, try_catch.
  rewrite (bind_ok _ _ _ _ _ _ H). reflexivity.
Qed.

Lemma collect_ok method m (errors : list (string * string)) env s r s1 :
  m env s = (Ok r, s1) ->
  (x <- UnifiedHandleResolver.strategy method m ;;
   match x with
   | inl res => ret (Some res, errors)
   | inr e => ret (None, (errors ++ [e])%list)
   end) env s = (Ok (Some r, errors), s1).
Proof.
  intros H. rewrite (bind_ok _ _ _ _ _ _ (strategy_ok method m env s r s1 H)).
  reflexivity.
Qed.

Lemma collect_throw method m (errors : list (string * string)) env s e s1 :
  m env s = (Throw e, s1) ->
  (x <- UnifiedHandleResolver.strategy method m ;;
   match x with
   | inl res => ret (Some res, errors)
   | inr e => ret (None, (errors ++ [e])%list)
   end) env s = (Ok (None, (errors ++ [(method, message e)])%list), s1).
Proof.
  intros H. rewrite (bind_ok _ _ _ _ _ _ (strategy_throw method m env s e s1 H)).
  reflexivity.
Qed.

Lemma collect_spin method m (errors : list (string * string)) env s s1 :
  m env s = (Spin, s1) ->
  (x <- UnifiedHandleResolver.strategy method m ;;
   match x with
   | inl res => ret (Some res, errors)
   | inr e => ret (None, (errors ++ [e])%list)
   end) env s = (Spin, s1).
Proof.
  intros H. unfold bind at 1.
  unfold UnifiedHandleResolver.strategy, try_catch, bind. rewrite H.
  reflexivity.
Qed.

Lemma bind_spin {A B} (m : M A) (k : A -> M B) env s s1 :
  m env s = (Spin, s1) -> bind m k env s = (Spin, s1).
Proof. intros H. unfold bind. rewrite H. reflexivity. Qed.

Lemma getFromCache_absent self handle env s :
  JsMap.get handle (handleCache s) = None ->
  UnifiedHandleResolver.getFromCache self handle env s = (Ok None, s).
Proof.
  intros H. unfold UnifiedHandleResolver.getFromCache, bind, get_state.
  rewrite H. reflexivity.
Qed.

Lemma dns_resolve_state self handle env s :
  snd (DnsHandleResolver.resolve self handle env s) =
  after_fetches (map (dns_request self handle) (DnsHandleResolver.providers self)) s.
Proof.
  unfold DnsHandleResolver.resolve, bind.
  destruct (dns_query_all_state self handle env
                                (DnsHandleResolver.providers self) s) as [l ->].
  destruct (DnsHandleResolver.first_value l); reflexivity.
Qed.

(** X7: a handle outside [.bsky.social] that is not in the cache and that
    the DNS strategy resolves is answered by DNS alone: the requests are the
    DNS ones, neither the well-known file nor any directory is asked, and
    the result is stored in the cache under the handle. *)
Theorem unified_resolve_dns_first fuel self handle env s r :
  JsMap.get handle (handleCache s) = None ->
  JsString.endsWith handle ".bsky.social" = false ->
  fst (DnsHandleResolver.resolve (UnifiedHandleResolver.dnsResolver self)
                                 handle env s) = Ok r ->
  let out := UnifiedHandleResolver.resolve fuel self handle env s in
  fst out = Ok r /\
  trace (snd out) =
    (trace s ++ dns_requests (UnifiedHandleResolver.dnsResolver self) handle)%list /\
  exists now,
    handleCache (snd out) =
      UnifiedHandleResolver.limit_size
        (JsMap.set handle (mkEntry r now) (handleCache s)).
Proof.
  intros Hget Hbsky Hdns out. subst out.
  set (dns := UnifiedHandleResolver.dnsResolver self) in *.
  pose proof (dns_resolve_state dns handle env s) as Hst.
  destruct (DnsHandleResolver.resolve dns handle env s) as [x s1] eqn:D.
  cbn [fst snd] in Hdns, Hst. subst x.
  destruct (after_fetches_spec
              (map (dns_request dns handle) (DnsHandleResolver.providers dns)) s)
    as [H1 [_ [_ [H4 [H5 _]]]]].
  rewrite <- Hst in H1, H4, H5. rewrite map_map in H1.
  unfold UnifiedHandleResolver.resolve.
  rewrite (bind_ok _ _ _ _ _ _ (getFromCache_absent self handle env s Hget)).
  cbv zeta. rewrite Hbsky. cbn [negb]. fold dns.
  rewrite (bind_ok _ _ _ _ _ _ (collect_ok "dns" _ [] env s r s1 D)).
  erewrite bind_ok; [|reflexivity].
  erewrite bind_ok; [|reflexivity].
  unfold bind, UnifiedHandleResolver.cacheResult, bind, Date_now,
    update_handleCache, ret.
  cbn [fst snd trace handleCache n_clock].
  rewrite H1, H5. repeat split. eexists. reflexivity.
Qed.

Lemma unified_resolve_dns_first_witness :
  fst (UnifiedHandleResolver.resolve 10 handleResolver "alice.test"
                                     env_alice initial_state) =
  Ok (mkHandleResult "did:plc:abc123" "dns" None (Some (JStr "unknown"))).
Proof.
  refine (proj1 (unified_resolve_dns_first
                   10 handleResolver "alice.test" env_alice initial_state
                   _ eq_refl eq_refl _)).
  vm_compute. reflexivity.
Defined.

Lemma same_trace_getFromCache self handle env s :
  trace (snd (UnifiedHandleResolver.getFromCache self handle env s)) = trace s.
Proof.
  unfold UnifiedHandleResolver.getFromCache, bind, get_state, Date_now,
    update_handleCache, ret.
  cbv beta iota.
  destruct (JsMap.get handle (handleCache s)); [|reflexivity].
  cbv beta iota. destruct (_ <? _)%Z; reflexivity.
Qed.

Lemma getFromCache_completes self handle env s :
  exists o, fst (UnifiedHandleResolver.getFromCache self handle env s) = Ok o.
Proof.
  unfold UnifiedHandleResolver.getFromCache, bind, get_state, Date_now,
    update_handleCache, ret.
  cbv beta iota.
  destruct (JsMap.get handle (handleCache s)); [|eexists; reflexivity].
  cbv beta iota. destruct (_ <? _)%Z; eexists; reflexivity.
Qed.

(** X8: for a handle under [.bsky.social], cached or not, the unified
    resolver sends requests to the directory only: the primary endpoint
    and at most five servers of the pool.  No DNS provider and no
    well-known file is asked. *)
Theorem unified_resolve_bsky_directory_only fuel self handle env s :
  JsString.endsWith handle ".bsky.social" = true ->
  let xrpc := UnifiedHandleResolver.xrpcResolver self in
  exists hosts : list string,
    trace (snd (UnifiedHandleResolver.resolve fuel self handle env s)) =
      (trace s ++ map (fun h => EvFetch (xrpc_request xrpc h handle)) hosts)%list /\
    (List.length hosts <= 6)%nat.
Proof.
  intros Hbsky xrpc.
  unfold UnifiedHandleResolver.resolve.
  pose proof (same_trace_getFromCache self handle env s) as Ht.
  destruct (getFromCache_completes self handle env s) as [o Ho].
  destruct (UnifiedHandleResolver.getFromCache self handle env s)
    as [x s0] eqn:G.
  cbn [fst snd] in Ht, Ho. subst x.
  rewrite (bind_ok _ _ _ _ _ _ G).
  destruct o as [c|].
  { exists []. cbn [ret snd map]. rewrite app_nil_r. split; [exact Ht | simpl; lia]. }
  cbv zeta. rewrite Hbsky. cbn [negb].
  erewrite bind_ok; [|reflexivity].
  erewrite bind_ok; [|reflexivity].
  fold xrpc.
  destruct (xrpc_resolve_trace fuel xrpc handle env s0)
    as [servers [H1 [_ [_ H4]]]].
  exists (primary (XrpcHandleResolver.pdsEndpoints xrpc)
                  :: map (String.append "https://") servers).
  split.
  - assert (Hmap :
             map (fun h => EvFetch (xrpc_request xrpc h handle))
                 (primary (XrpcHandleResolver.pdsEndpoints xrpc)
                          :: map (String.append "https://") servers) =
             EvFetch (xrpc_request xrpc (primary (XrpcHandleResolver.pdsEndpoints xrpc)) handle)
                     :: pool_requests xrpc handle servers).
    { cbn [map]. f_equal. unfold pool_requests. rewrite map_map. reflexivity. }
    rewrite Hmap, <- Ht, <- H1. clear Hmap H1.
    destruct (XrpcHandleResolver.resolve fuel xrpc handle env s0)
      as [[r|e|] s1] eqn:X; cbn [snd].
    + rewrite (bind_ok _ _ _ _ _ _ (collect_ok "xrpc" _ [] env s0 r s1 X)).
      reflexivity.
    + rewrite (bind_ok _ _ _ _ _ _ (collect_throw "xrpc" _ [] env s0 e s1 X)).
      reflexivity.
    + rewrite (bind_spin _ _ _ _ _ (collect_spin "xrpc" _ [] env s0 s1 X)).
      reflexivity.
  - cbn [List.length]. rewrite length_map. lia.
Qed.

Lemma unified_resolve_bsky_directory_only_witness :
  exists hosts : list string,
    trace (snd (UnifiedHandleResolver.resolve 10 handleResolver "bob.bsky.social"
                                              env_all_fail initial_state)) =
      (trace initial_state
         ++ map (fun h => EvFetch (xrpc_request
                                     (UnifiedHandleResolver.xrpcResolver handleResolver)
                                     h "bob.bsky.social")) hosts)%list /\
    (List.length hosts <= 6)%nat.
Proof.
  apply (unified_resolve_bsky_directory_only
           10 handleResolver "bob.bsky.social" env_all_fail initial_state).
  reflexivity.
Defined.

(* ------------------------------------------------------------------ *)
(** ** The directory strategy: the primary endpoint and the pool *)
(* ------------------------------------------------------------------ *)

(** X9: when the primary endpoint answers with a body that holds a valid
    DID, the directory strategy returns that DID with the primary endpoint
    as its source after this one request: no server of the pool is asked
    and no random number is drawn. *)
Theorem xrpc_resolve_primary_answer fuel self handle env s resp data d :
  let base := primary (XrpcHandleResolver.pdsEndpoints self) in
  net env (n_fetch s) (xrpc_request self base handle) = Fetched resp ->
  ok resp = true ->
  body_json resp = IsJson data ->
  XrpcHandleResolver.parseResponse data handle = Ok d ->
  XrpcHandleResolver.resolve fuel self handle env s =
  (Ok (mkHandleResult d "xrpc" (Some base) None),
   after_fetch (xrpc_request self base handle) s).
Proof.
  intros base Hnet Hok Hbody Hparse.
  unfold XrpcHandleResolver.resolve, XrpcHandleResolver.attempt,
    XrpcHandleResolver.queryEndpoint.
  fold base. unfold bind at 1. unfold try_catch at 1. unfold bind at 1.
  unfold try_catch at 1. unfold bind at 1. unfold fetch.
  unfold xrpc_request in Hnet. rewrite Hnet. cbv beta iota.
  rewrite Hok. cbn [negb]. unfold bind at 1. unfold json. rewrite Hbody.
  unfold ret at 1. cbv beta iota. unfold bind at 1. unfold lift at 1.
  rewrite Hparse. reflexivity.
Qed.

Lemma xrpc_resolve_primary_answer_witness :
  XrpcHandleResolver.resolve
    10 (UnifiedHandleResolver.xrpcResolver handleResolver) "carol.test"
    env_directory initial_state =
  (Ok (mkHandleResult "did:plc:abc123" "xrpc"
                      (Some "https://public.api.bsky.app") None),
   after_fetch (xrpc_request (UnifiedHandleResolver.xrpcResolver handleResolver)
                             "https://public.api.bsky.app" "carol.test")
               initial_state).
Proof.
  apply (xrpc_resolve_primary_answer
           10 (UnifiedHandleResolver.xrpcResolver handleResolver) "carol.test"
           env_directory initial_state
           (json_response 200 (JObj [("did", JStr "did:plc:abc123")]))
           (JObj [("did", JStr "did:plc:abc123")]) "did:plc:abc123");
    reflexivity.
Defined.
















(* ------------------------------------------------------------------ *)
(** ** Remote resolution *)
(* ------------------------------------------------------------------ *)

Lemma fetchWithTimeout_state url timeout accept env s x s' :
  fetchWithTimeout url timeout accept env s = (x, s') ->
  s' = after_fetch (mkRequest url accept false timeout) s.
Proof.
  unfold fetchWithTimeout, try_catch. intros H.
  destruct (fetch _ env s) as [[resp|e|] s1] eqn:F;
    apply fetch_state in F; subst s1.
  - injection H as _ <-. reflexivity.
  - unfold on_abort in H. destruct (String.eqb _ _);
      injection H as _ <-; reflexivity.
  - injection H as _ <-. reflexivity.
Qed.

Lemma resolveRemote_state url options env s :
  snd (resolveRemote url options env s) =
  after_fetch (remote_request url options) (after_emit (EvRemote url) s).
Proof.
  unfold resolveRemote. cbv zeta. unfold bind at 1. unfold emit at 1.
  fold (after_emit (EvRemote url) s). unfold bind.
  destruct (fetchWithTimeout _ _ _ env (after_emit (EvRemote url) s))
    as [[resp|e|] s1] eqn:F; apply fetchWithTimeout_state in F; subst s1;
    try reflexivity.
  destruct (negb (ok resp)); [reflexivity|].
  unfold json. destruct (body_json resp); reflexivity.
Qed.

Lemma append_assoc (a b c : string) : (a ++ b) ++ c = a ++ b ++ c.
Proof. induction a as [|x a IH]; simpl; [reflexivity | rewrite IH; reflexivity]. Qed.

Lemma prefix_dollar (a : ascii) (b : string) :
  String.prefix "$" (String a b) = Ascii.eqb a "$".
Proof.
  cbn [String.prefix]. destruct (ascii_dec "$" a) as [<-|Hne].
  - destruct b; reflexivity.
  - symmetry. apply Ascii.eqb_neq. congruence.
Qed.

Lemma includes_dollar_app (b c : string) :
  JsString.includes b "$" = false -> JsString.includes c "$" = false ->
  JsString.includes (b ++ c) "$" = false.
Proof.
  intros Hb Hc. induction b as [|a b IH]; [exact Hc|].
  cbn [JsString.includes] in Hb.
  change (String a b ++ c) with (String a (b ++ c)).
  cbn [JsString.includes].
  rewrite prefix_dollar in Hb |- *.
  apply Bool.orb_false_iff in Hb as [Hp Hi].
  rewrite Hp, (IH Hi). reflexivity.
Qed.

Lemma substitution_plain (b matched rest : string) :
  JsString.includes b "$" = false ->
  substitution b matched rest = b.
Proof.
  induction b as [|a b IH]; [reflexivity|].
  intros H. cbn [JsString.includes] in H. rewrite prefix_dollar in H.
  apply Bool.orb_false_iff in H as [Hp Hi].
  specialize (IH Hi).
  destruct a as [[] [] [] [] [] [] [] []];
    try discriminate Hp; cbn [substitution]; rewrite IH; reflexivity.
Qed.

(** X11: a remote resolution sends exactly one request, whatever the
    answer: to the URL with the base put before it ([https://atpi.at://...]
    with the default base, for every base without a [$]), asking for JSON;
    both caches stay as they are. *)
Theorem resolveRemote_one_request url options env s :
  let out := resolveRemote url options env s in
  trace (snd out) =
    (trace s ++ [EvRemote url; EvFetch (remote_request url options)])%list /\
  n_fetch (snd out) = S (n_fetch s) /\
  handleCache (snd out) = handleCache s /\
  didCache (snd out) = didCache s /\
  (forall base rest,
      JsString.includes base "$" = false ->
      transformUrl ("at://" ++ rest) base = base ++ "at://" ++ rest).
Proof.
  intros out. subst out. rewrite resolveRemote_state.
  cbn [after_fetch after_emit trace n_fetch handleCache didCache].
  rewrite <- app_assoc. repeat split.
  intros base rest Hb. unfold transformUrl.
  rewrite (startsWith_app "at://" rest).
  change 5%nat with (String.length "at://").
  rewrite substring_from_app.
  rewrite substitution_plain.
  - apply append_assoc.
  - apply includes_dollar_app; [exact Hb | reflexivity].
Qed.

Lemma resolveLocal_rejects fuel url options env s :
  JsString.startsWith url "at://" = false ->
  resolveLocal fuel url options env s =
  (Throw (Error "URL must start with at://"), after_emit (EvLocal url) s).
Proof.
  intros H. unfold resolveLocal. unfold bind at 1. unfold emit at 1.
  cbv zeta. rewrite (validateUrl_rejects url H). reflexivity.
Qed.

(** X12: only the local chain checks the URL.  In the remote mode, and in
    the automatic mode after the local chain has refused it, a URL that
    does not start with [at://] is requested as it is. *)
Theorem resolve_remote_not_validated fuel url options m env s :
  mode options = Some m ->
  m <> "local" ->
  JsString.startsWith url "at://" = false ->
  trace (snd (resolve fuel url options env s)) =
    (trace s
       ++ (if String.eqb m "remote" then [] else [EvLocal url])
       ++ [EvRemote url;
           EvFetch (mkRequest url (Some "application/json") false
                              (timeout_of options))])%list.
Proof.
  intros Hmode Hlocal Hurl.
  assert (Hreq : remote_request url options =
                 mkRequest url (Some "application/json") false (timeout_of options)).
  { unfold remote_request, transformUrl. rewrite Hurl. reflexivity. }
  unfold resolve. rewrite Hmode.
  destruct (String.eqb m "remote").
  - rewrite resolveRemote_state, Hreq. cbn [after_fetch after_emit trace].
    rewrite <- app_assoc. reflexivity.
  - apply String.eqb_neq in Hlocal. rewrite Hlocal.
    unfold try_catch. rewrite (resolveLocal_rejects fuel url options env s Hurl).
    rewrite resolveRemote_state, Hreq. cbn [after_fetch after_emit trace].
    rewrite <- !app_assoc. reflexivity.
Qed.

Lemma resolve_remote_not_validated_witness :
  trace (snd (resolve 10 "https://example.test/x"
                      (options_of_mode (Some "auto")) env_all_fail initial_state)) =
  [EvLocal "https://example.test/x";
   EvRemote "https://example.test/x";
   EvFetch (mkRequest "https://example.test/x" (Some "application/json") false
                      DEFAULT_TIMEOUT)].
Proof.
  apply (resolve_remote_not_validated
           10 "https://example.test/x" (options_of_mode (Some "auto")) "auto"
           env_all_fail initial_state).
  - reflexivity.
  - discriminate.
  - reflexivity.
Defined.

(* ------------------------------------------------------------------ *)
(** ** The segments of an AT URL *)
(* ------------------------------------------------------------------ *)

Lemma truthy_nonempty (s : string) : s <> EmptyString -> JsString.truthy s = true.
Proof. destruct s; [congruence | reflexivity]. Qed.

(** X13: an AT URL built from an identifier, a collection and a record key
    parses back to these three, and what follows a fourth slash is dropped
    without an error. *)
Theorem validateUrl_three_segments (id coll key tail : string) :
  no_slash id -> no_slash coll -> no_slash key ->
  coll <> EmptyString -> key <> EmptyString ->
  validateUrl ("at://" ++ id ++ "/" ++ coll ++ "/" ++ key) =
    Ok (mkParsed id (Some coll) (Some key)) /\
  validateUrl ("at://" ++ id ++ "/" ++ coll ++ "/" ++ key ++ "/" ++ tail) =
    Ok (mkParsed id (Some coll) (Some key)).
Proof.
  unfold no_slash. intros Hid Hcoll Hkey Hc Hk.
  split.
  - rewrite validateUrl_parts by apply startsWith_app. cbv zeta.
    change 5%nat with (String.length "at://"). rewrite substring_from_app.
    change (id ++ "/" ++ coll ++ "/" ++ key)
      with (id ++ String "/" (coll ++ String "/" key)).
    rewrite (split_app_sep _ _ _ Hid), (split_app_sep _ _ _ Hcoll),
      (split_no_sep _ _ Hkey).
    unfold part0, part_or_null. cbn [nth nth_error].
    rewrite (truthy_nonempty _ Hc), (truthy_nonempty _ Hk). reflexivity.
  - rewrite validateUrl_parts by apply startsWith_app. cbv zeta.
    change 5%nat with (String.length "at://"). rewrite substring_from_app.
    change (id ++ "/" ++ coll ++ "/" ++ key ++ "/" ++ tail)
      with (id ++ String "/" (coll ++ String "/" (key ++ String "/" tail))).
    rewrite (split_app_sep _ _ _ Hid), (split_app_sep _ _ _ Hcoll),
      (split_app_sep _ _ _ Hkey).
    unfold part0, part_or_null. cbn [nth nth_error].
    rewrite (truthy_nonempty _ Hc), (truthy_nonempty _ Hk). reflexivity.
Qed.

Lemma validateUrl_three_segments_witness :
  validateUrl "at://alice.test/app.bsky.feed.post/xyz" =
    Ok (mkParsed "alice.test" (Some "app.bsky.feed.post") (Some "xyz")) /\
  validateUrl "at://alice.test/app.bsky.feed.post/xyz/more/segments" =
    Ok (mkParsed "alice.test" (Some "app.bsky.feed.post") (Some "xyz")).
Proof.
  apply (validateUrl_three_segments
           "alice.test" "app.bsky.feed.post" "xyz" "more/segments");
    first [reflexivity | discriminate].
Defined.

(* ------------------------------------------------------------------ *)
(** ** The DID cache *)
(* ------------------------------------------------------------------ *)

Lemma resolveDid_unfold d timeout env s :
  resolveDid d timeout env s =
  match JsMap.get d (didCache s) with
  | Some cached =>
      if (clock env (n_clock s) - timestamp cached <? CACHE_TTL)%Z
      then (Ok (value cached), after_clock s)
      else resolveDid_miss d timeout env (after_clock s)
  | None => resolveDid_miss d timeout env s
  end.
Proof.
  unfold resolveDid. unfold bind at 1. unfold get_state at 1. cbv beta iota.
  unfold bind at 1.
  destruct (JsMap.get d (didCache s)) as [cached|].
  - unfold bind at 1. unfold Date_now at 1. cbv beta iota.
    destruct (_ <? _)%Z; reflexivity.
  - reflexivity.
Qed.

(** The miss path stores the endpoint it returns, and stores nothing when
    it does not return. *)
Lemma resolveDid_miss_update d timeout env s x s' :
  resolveDid_miss d timeout env s = (x, s') ->
  (exists ep,
      x = Ok ep /\ JsString.startsWith d "did:plc:" = true /\
      didCache s' = JsMap.set d (mkEntry ep (clock env (n_clock s))) (didCache s) /\
      n_clock s' = S (n_clock s)) \/
  ((JsString.startsWith d "did:plc:" = true -> forall ep, x <> Ok ep) /\
   didCache s' = didCache s).
Proof.
  unfold resolveDid_miss.
  destruct (JsString.startsWith d "did:plc:") eqn:Hplc.
  - unfold bind at 1.
    destruct (fetchWithTimeout _ _ _ env s) as [[resp|e|] s1] eqn:F;
      apply fetchWithTimeout_state in F; subst s1.
    + destruct (negb (ok resp)).
      { intros H. injection H as <- <-. right. split; [discriminate | reflexivity]. }
      unfold bind at 1. unfold json.
      destruct (body_json resp) as [data|msg]; unfold ret at 1, throw at 1;
        cbv beta iota.
      * unfold bind at 1. unfold lift at 1.
        destruct (find_service data) as [service|e|];
          try (intros H; injection H as <- <-; right;
               split; [discriminate | reflexivity]).
        unfold bind at 1. unfold lift at 1.
        destruct (service_endpoint service) as [ep|e|];
          try (intros H; injection H as <- <-; right;
               split; [discriminate | reflexivity]).
        destruct ep as [serviceEndpoint|];
          [|intros H; injection H as <- <-; right;
            split; [discriminate | reflexivity]].
        destruct (JsValue.truthy serviceEndpoint);
          [|intros H; injection H as <- <-; right;
            split; [discriminate | reflexivity]].
        intros H. injection H as <- <-. left.
        eexists. repeat split.
      * intros H. injection H as <- <-. right.
        split; [discriminate | reflexivity].
    + intros H. injection H as <- <-. right.
      split; [discriminate | reflexivity].
    + intros H. injection H as <- <-. right.
      split; [discriminate | reflexivity].
  - destruct (JsString.startsWith d "did:web:"); intros H;
      injection H as <- <-; right; split; try reflexivity; discriminate.
Qed.

(** X14: a successful [resolveDid] of a [did:plc:] identifier leaves the
    identifier in the DID cache with the endpoint it returned; a call that
    throws, and every call for another method, leaves the DID cache as it
    was. *)
Theorem resolveDid_cache_update d timeout env s x s' :
  resolveDid d timeout env s = (x, s') ->
  (forall ep, x = Ok ep -> JsString.startsWith d "did:plc:" = true ->
              exists entry, JsMap.get d (didCache s') = Some entry /\
                            value entry = ep) /\
  ((forall ep, x <> Ok ep) -> didCache s' = didCache s) /\
  (JsString.startsWith d "did:plc:" = false -> didCache s' = didCache s).
Proof.
  rewrite resolveDid_unfold. intros H.
  assert (Hmiss : forall s0,
             didCache s0 = didCache s ->
             resolveDid_miss d timeout env s0 = (x, s') ->
             (forall ep, x = Ok ep -> JsString.startsWith d "did:plc:" = true ->
                         exists entry, JsMap.get d (didCache s') = Some entry /\
                                       value entry = ep) /\
             ((forall ep, x <> Ok ep) -> didCache s' = didCache s) /\
             (JsString.startsWith d "did:plc:" = false ->
              didCache s' = didCache s)).
  { intros s0 Hs0 M. apply resolveDid_miss_update in M.
    destruct M as [[ep [-> [Hplc [Hd _]]]] | [Hno Hd]].
    - split; [|split].
      + intros ep' E _. injection E as <-. rewrite Hd.
        eexists. split; [apply get_set_same | reflexivity].
      + intros Hx. exfalso. apply (Hx ep). reflexivity.
      + congruence.
    - rewrite Hd, Hs0. split; [|split; intros; reflexivity].
      intros ep E Hplc. exfalso. apply (Hno Hplc ep E). }
  destruct (JsMap.get d (didCache s)) as [cached|] eqn:G.
  - destruct (_ <? _)%Z.
    + injection H as <- <-. cbn [after_clock didCache].
      split; [|split; intros; reflexivity].
      intros ep E _. injection E as <-. eexists. split; [exact G | reflexivity].
    + exact (Hmiss (after_clock s) eq_refl H).
  - exact (Hmiss s eq_refl H).
Qed.

Lemma resolveDid_cache_update_witness :
  exists entry,
    JsMap.get "did:plc:abc123"
              (didCache (snd (resolveDid "did:plc:abc123" 5000 env_alice
                                         initial_state))) = Some entry /\
    value entry = JStr "https://pds.alice.test".
Proof.
  refine (proj1 (resolveDid_cache_update
                   "did:plc:abc123" 5000 env_alice initial_state
                   (fst (resolveDid "did:plc:abc123" 5000 env_alice initial_state))
                   (snd (resolveDid "did:plc:abc123" 5000 env_alice initial_state))
                   _)
                (JStr "https://pds.alice.test") _ _).
  - apply surjective_pairing.
  - vm_compute. reflexivity.
  - reflexivity.
Defined.

(** X15: the endpoint of a [did:plc:] identifier that was not in the cache
    is stored with the time at which it was obtained, and a second
    [resolveDid] for it less than [CACHE_TTL] later returns the same endpoint
    from the cache: the clock is read once and no request is sent. *)
Theorem resolveDid_second_call d timeout timeout' env s ep s' :
  JsString.startsWith d "did:plc:" = true ->
  JsMap.get d (didCache s) = None ->
  resolveDid d timeout env s = (Ok ep, s') ->
  (clock env (n_clock s') - clock env (n_clock s) < CACHE_TTL)%Z ->
  resolveDid d timeout' env s' = (Ok ep, after_clock s').
Proof.
  intros Hplc Hnone H Hfresh.
  rewrite resolveDid_unfold, Hnone in H.
  apply resolveDid_miss_update in H.
  destruct H as [[ep' [E [_ [Hd Hn]]]] | [Hno Hd]].
  - injection E as <-.
    rewrite resolveDid_unfold, Hd, get_set_same. cbn [timestamp value].
    destruct (Z.ltb_spec (clock env (n_clock s') - clock env (n_clock s)) CACHE_TTL);
      [reflexivity | lia].
  - exfalso. apply (Hno Hplc ep). reflexivity.
Qed.

Lemma resolveDid_second_call_witness :
  resolveDid "did:plc:abc123" 30000 env_alice
             (snd (resolveDid "did:plc:abc123" 5000 env_alice initial_state)) =
  (Ok (JStr "https://pds.alice.test"),
   after_clock (snd (resolveDid "did:plc:abc123" 5000 env_alice initial_state))).
Proof.
  apply (resolveDid_second_call
           "did:plc:abc123" 5000 30000 env_alice initial_state
           (JStr "https://pds.alice.test")).
  - reflexivity.
  - reflexivity.
  - vm_compute. reflexivity.
  - vm_compute. reflexivity.
Defined.

(* ------------------------------------------------------------------ *)
(** ** The number of requests *)
(* ------------------------------------------------------------------ *)

Lemma fam_quiet {A} (m : M A) : steps same_n_fetch m -> fetches_at_most 0 m.
Proof. intros H env s r s' E. rewrite (H _ _ _ _ E). lia. Qed.

Lemma fam_le {A} k k' (m : M A) :
  (k <= k')%nat -> fetches_at_most k m -> fetches_at_most k' m.
Proof. intros L H env s r s' E. specialize (H _ _ _ _ E). lia. Qed.

Lemma fam_ret {A} (a : A) : fetches_at_most 0 (ret a).
Proof. intros env s r s' E. injection E as _ <-. lia. Qed.

Lemma fam_throw {A} (e : Exn) : fetches_at_most 0 (@throw A e).
Proof. intros env s r s' E. injection E as _ <-. lia. Qed.

Lemma fam_lift {A} (x : Res A) : fetches_at_most 0 (lift x).
Proof. intros env s r s' E. injection E as _ <-. lia. Qed.

Lemma fam_fetch r : fetches_at_most 1 (fetch r).
Proof.
  intros env s x s' E. apply fetch_state in E. subst s'.
  cbn [after_fetch n_fetch]. lia.
Qed.

Lemma fam_bind {A B} k1 k2 (m : M A) (f : A -> M B) :
  fetches_at_most k1 m -> (forall a, fetches_at_most k2 (f a)) ->
  fetches_at_most (k1 + k2) (bind m f).
Proof.
  intros Hm Hf env s r s' E. unfold bind in E.
  destruct (m env s) as [[a|e|] s1] eqn:Em; specialize (Hm _ _ _ _ Em).
  - specialize (Hf a _ _ _ _ E). lia.
  - injection E as _ <-. lia.
  - injection E as _ <-. lia.
Qed.

Lemma fam_try_catch {A} k1 k2 (m : M A) (h : Exn -> M A) :
  fetches_at_most k1 m -> (forall e, fetches_at_most k2 (h e)) ->
  fetches_at_most (k1 + k2) (try_catch m h).
Proof.
  intros Hm Hh env s r s' E. unfold try_catch in E.
  destruct (m env s) as [[a|e|] s1] eqn:Em; specialize (Hm _ _ _ _ Em).
  - injection E as _ <-. lia.
  - specialize (Hh e _ _ _ _ E). lia.
  - injection E as _ <-. lia.
Qed.

Lemma fam_state {A} k (m : M A) (f : State -> State) :
  (forall env s r s', m env s = (r, s') -> s' = f s) ->
  (forall s, n_fetch (f s) <= n_fetch s + k)%nat ->
  fetches_at_most k m.
Proof. intros H L env s r s' E. rewrite (H _ _ _ _ E). apply L. Qed.

Lemma same_n_fetch_refl s : same_n_fetch s s.
Proof. reflexivity. Qed.

Lemma same_n_fetch_trans s1 s2 s3 :
  same_n_fetch s1 s2 -> same_n_fetch s2 s3 -> same_n_fetch s1 s3.
Proof. unfold same_n_fetch. congruence. Qed.

Lemma same_n_fetch_now : steps same_n_fetch Date_now.
Proof. intros env s x s' H. injection H as _ <-. reflexivity. Qed.

Lemma same_n_fetch_random n : steps same_n_fetch (random_index n).
Proof. intros env s x s' H. injection H as _ <-. reflexivity. Qed.

Lemma same_n_fetch_emit ev : steps same_n_fetch (emit ev).
Proof. intros env s x s' H. injection H as _ <-. reflexivity. Qed.

Lemma same_n_fetch_handleCache f : steps same_n_fetch (update_handleCache f).
Proof. intros env s x s' H. injection H as _ <-. reflexivity. Qed.

Lemma same_n_fetch_didCache f : steps same_n_fetch (update_didCache f).
Proof. intros env s x s' H. injection H as _ <-. reflexivity. Qed.

Lemma same_n_fetch_cacheResult h r :
  steps same_n_fetch (UnifiedHandleResolver.cacheResult h r).
Proof. intros env s x s' H. injection H as _ <-. reflexivity. Qed.

Ltac quiet :=
  repeat match goal with
    | |- steps same_n_fetch (bind _ _) =>
        apply steps_bind; [exact same_n_fetch_trans | | intros ?]
    | |- steps same_n_fetch (try_catch _ _) =>
        apply steps_try_catch; [exact same_n_fetch_trans | | intros ?]
    | |- steps same_n_fetch (ret _) => apply steps_ret; exact same_n_fetch_refl
    | |- steps same_n_fetch (throw _) => apply steps_throw; exact same_n_fetch_refl
    | |- steps same_n_fetch (lift _) => apply steps_lift; exact same_n_fetch_refl
    | |- steps same_n_fetch (json _) => apply steps_json; exact same_n_fetch_refl
    | |- steps same_n_fetch (text _) => apply steps_text; exact same_n_fetch_refl
    | |- steps same_n_fetch (on_abort _ _) =>
        apply steps_on_abort; exact same_n_fetch_refl
    | |- steps same_n_fetch Date_now => exact same_n_fetch_now
    | |- steps same_n_fetch (update_didCache _) => apply same_n_fetch_didCache
    | |- steps same_n_fetch (update_handleCache _) => apply same_n_fetch_handleCache
    | |- steps same_n_fetch (emit _) => apply same_n_fetch_emit
    | |- steps same_n_fetch (if ?b then _ else _) => destruct b
    | |- steps same_n_fetch (match ?x with _ => _ end) => destruct x
    end.

Lemma fam_dns_resolve self handle :
  fetches_at_most (List.length (DnsHandleResolver.providers self))
                  (DnsHandleResolver.resolve self handle).
Proof.
  intros env s r s' E.
  pose proof (dns_resolve_state self handle env s) as H.
  rewrite E in H. cbn [snd] in H. subst s'.
  destruct (after_fetches_spec
              (map (dns_request self handle) (DnsHandleResolver.providers self)) s)
    as [_ [H2 _]].
  rewrite H2, length_map. lia.
Qed.

Lemma fam_wellknown_resolve self handle :
  fetches_at_most 1 (WellKnownHandleResolver.resolve self handle).
Proof.
  unfold WellKnownHandleResolver.resolve. cbv zeta.
  change 1%nat with (1 + 0)%nat.
  apply fam_try_catch; [|intros e; apply fam_quiet; quiet].
  change 1%nat with (1 + 0)%nat. apply fam_bind; [apply fam_fetch|].
  intros response. apply fam_quiet. quiet.
Qed.

Lemma fam_queryEndpoint self baseUrl handle :
  fetches_at_most 1 (XrpcHandleResolver.queryEndpoint self baseUrl handle).
Proof.
  apply (fam_state 1 _ (after_fetch (xrpc_request self baseUrl handle))).
  - intros env s r s'. apply queryEndpoint_state.
  - intros s. cbn [after_fetch n_fetch]. lia.
Qed.

Lemma fam_attempt k q :
  fetches_at_most k q -> fetches_at_most k (XrpcHandleResolver.attempt q).
Proof.
  intros H. unfold XrpcHandleResolver.attempt.
  rewrite <- (Nat.add_0_r k). apply fam_try_catch.
  - rewrite <- (Nat.add_0_r k). apply fam_bind; [exact H|].
    intros r. apply fam_ret.
  - intros e. apply fam_ret.
Qed.

Lemma fam_draw_untried fuel self tried :
  fetches_at_most 0 (XrpcHandleResolver.draw_untried fuel self tried).
Proof.
  apply fam_quiet. apply steps_xrpc_draw_untried.
  - exact same_n_fetch_refl.
  - exact same_n_fetch_trans.
  - exact same_n_fetch_random.
Qed.

Lemma fam_pool_loop fuel self handle remaining :
  forall tried,
    fetches_at_most remaining
      (XrpcHandleResolver.pool_loop fuel self handle remaining tried).
Proof.
  induction remaining as [|n IH]; intros tried;
    cbn [XrpcHandleResolver.pool_loop].
  - apply fam_throw.
  - change (S n) with (0 + S n)%nat.
    apply fam_bind; [apply fam_draw_untried|].
    intros [sv|]; [|apply (fam_le 0); [lia | apply fam_throw]].
    destruct (_ || _); [apply (fam_le 0); [lia | apply fam_throw]|].
    cbv zeta. change (S n) with (1 + n)%nat.
    apply fam_bind; [apply fam_attempt, fam_queryEndpoint|].
    intros [r|]; [apply (fam_le 0); [lia | apply fam_ret] | apply IH].
Qed.

Lemma fam_xrpc_resolve fuel self handle :
  fetches_at_most 6 (XrpcHandleResolver.resolve fuel self handle).
Proof.
  unfold XrpcHandleResolver.resolve.
  change 6%nat with (1 + 5)%nat.
  apply fam_bind; [apply fam_attempt, fam_queryEndpoint|].
  intros [r|]; [apply (fam_le 0); [lia | apply fam_ret]|].
  unfold XrpcHandleResolver.try_pool. cbv zeta.
  destruct (_ =? _)%nat; [apply (fam_le 0); [lia | apply fam_throw]|].
  eapply fam_le; [|apply fam_pool_loop]. apply Nat.le_min_l.
Qed.

Lemma fam_collect k method m (errors : list (string * string)) :
  fetches_at_most k m ->
  fetches_at_most k
    (x <- UnifiedHandleResolver.strategy method m ;;
     match x with
     | inl res => ret (Some res, errors)
     | inr e => ret (None, (errors ++ [e])%list)
     end).
Proof.
  intros H. rewrite <- (Nat.add_0_r k). apply fam_bind.
  - unfold UnifiedHandleResolver.strategy.
    rewrite <- (Nat.add_0_r k). apply fam_try_catch.
    + rewrite <- (Nat.add_0_r k). apply fam_bind; [exact H|].
      intros r. apply fam_ret.
    + intros e. apply fam_ret.
  - intros [res|e]; apply fam_ret.
Qed.

Lemma fam_getFromCache self handle :
  fetches_at_most 0 (UnifiedHandleResolver.getFromCache self handle).
Proof.
  apply fam_quiet. apply steps_getFromCache.
  - exact same_n_fetch_refl.
  - exact same_n_fetch_trans.
  - exact same_n_fetch_now.
  - intros h. apply same_n_fetch_handleCache.
Qed.

Lemma fam_unified_resolve fuel self handle :
  fetches_at_most
    (List.length (DnsHandleResolver.providers
                    (UnifiedHandleResolver.dnsResolver self)) + 7)
    (UnifiedHandleResolver.resolve fuel self handle).
Proof.
  set (n := List.length (DnsHandleResolver.providers
                           (UnifiedHandleResolver.dnsResolver self))).
  unfold UnifiedHandleResolver.resolve.
  change (n + 7)%nat with (0 + (n + 7))%nat.
  apply fam_bind; [apply fam_getFromCache|].
  intros [c|]; [apply (fam_le 0); [lia | apply fam_ret]|].
  cbv zeta.
  replace (n + 7)%nat with (n + (1 + (6 + 0)))%nat by lia.
  apply fam_bind.
  { destruct (negb _);
      [apply fam_collect, fam_dns_resolve
      | apply (fam_le 0); [lia | apply fam_ret]]. }
  intros st1. apply fam_bind.
  { destruct st1 as [[r1|] errors]; [apply (fam_le 0); [lia | apply fam_ret]|].
    destruct (negb _);
      [apply fam_collect, fam_wellknown_resolve
      | apply (fam_le 0); [lia | apply fam_ret]]. }
  intros st2. apply fam_bind.
  { destruct st2 as [[r2|] errors]; [apply (fam_le 0); [lia | apply fam_ret]|].
    apply fam_collect, fam_xrpc_resolve. }
  intros [[result|] errors]; [|apply fam_throw].
  change 0%nat with (0 + 0)%nat.
  apply fam_bind; [apply fam_quiet, same_n_fetch_cacheResult|].
  intros _. apply fam_ret.
Qed.

Lemma fam_resolveHandle fuel handle timeout :
  fetches_at_most 9 (resolveHandle fuel handle timeout).
Proof.
  unfold resolveHandle. change 9%nat with (9 + 0)%nat.
  apply fam_try_catch.
  - change 9%nat with (9 + 0)%nat. apply fam_bind.
    + apply (fam_unified_resolve fuel handleResolver handle).
    + intros r. apply fam_ret.
  - intros e. destruct (JsString.includes _ _); apply fam_throw.
Qed.

Lemma fam_fetchWithTimeout url timeout accept :
  fetches_at_most 1 (fetchWithTimeout url timeout accept).
Proof.
  apply (fam_state 1 _ (after_fetch (mkRequest url accept false timeout))).
  - intros env s r s'. apply fetchWithTimeout_state.
  - intros s. cbn [after_fetch n_fetch]. lia.
Qed.

Lemma fam_resolveDid_miss d timeout :
  fetches_at_most 1 (resolveDid_miss d timeout).
Proof.
  unfold resolveDid_miss.
  destruct (JsString.startsWith d "did:plc:").
  - change 1%nat with (1 + 0)%nat.
    apply fam_bind; [apply fam_fetchWithTimeout|].
    intros response. apply fam_quiet. quiet.
  - apply (fam_le 0); [lia|].
    destruct (JsString.startsWith d "did:web:"); [apply fam_ret | apply fam_throw].
Qed.

Lemma fam_resolveDid d timeout : fetches_at_most 1 (resolveDid d timeout).
Proof.
  intros env s r s' E. rewrite resolveDid_unfold in E.
  destruct (JsMap.get d (didCache s)) as [cached|].
  - destruct (_ <? _)%Z.
    + injection E as _ <-. cbn [after_clock n_fetch]. lia.
    + apply fam_resolveDid_miss in E. cbn [after_clock n_fetch] in E. exact E.
  - apply fam_resolveDid_miss in E. exact E.
Qed.

Lemma fam_resolveLocal fuel url options :
  fetches_at_most 11 (resolveLocal fuel url options).
Proof.
  unfold resolveLocal.
  change 11%nat with (0 + (0 + (9 + (1 + (1 + 0)))))%nat.
  apply fam_bind; [apply fam_quiet, same_n_fetch_emit|].
  intros _. cbv zeta.
  apply fam_bind; [apply fam_lift|].
  intros parsed. apply fam_bind.
  { destruct (id_type _);
      [apply (fam_le 0); [lia | apply fam_ret] | apply fam_resolveHandle]. }
  intros did. apply fam_bind; [apply fam_resolveDid|].
  intros serviceEndpoint. apply fam_bind; [apply fam_fetchWithTimeout|].
  intros response. destruct (negb _); [apply fam_throw|].
  apply fam_quiet. quiet.
Qed.

Lemma fam_resolveRemote url options :
  fetches_at_most 1 (resolveRemote url options).
Proof.
  intros env s r s' E.
  pose proof (resolveRemote_state url options env s) as H.
  rewrite E in H. cbn [snd] in H. subst s'.
  cbn [after_fetch after_emit n_fetch]. lia.
Qed.

(** X16: whatever the network answers, one call of [resolve] sends at most
    twelve requests: at most eleven by the local chain (two DNS providers,
    the well-known file, the primary directory and five servers of the
    pool, the DID document, the record) and one by the remote service. *)
Theorem resolve_sends_at_most_twelve_requests fuel url options env s :
  (n_fetch (snd (resolveLocal fuel url options env s)) <= n_fetch s + 11)%nat /\
  (n_fetch (snd (resolve fuel url options env s)) <= n_fetch s + 12)%nat.
Proof.
  split.
  - eapply fam_resolveLocal. apply surjective_pairing.
  - assert (H : fetches_at_most 12 (resolve fuel url options)).
    { unfold resolve.
      destruct (String.eqb _ "remote");
        [apply (fam_le 1); [lia | apply fam_resolveRemote]|].
      destruct (String.eqb _ "local");
        [apply (fam_le 11); [lia | apply fam_resolveLocal]|].
      change 12%nat with (11 + 1)%nat.
      apply fam_try_catch; [apply fam_resolveLocal|].
      intros e. apply fam_resolveRemote. }
    eapply H. apply surjective_pairing.
Qed.

(* ------------------------------------------------------------------ *)
(** ** The service worker *)
(* ------------------------------------------------------------------ *)

Lemma handleUrlResolution_local_only fuel url m :
  mode_or_local m = "local" ->
  steps local_only (handleUrlResolution fuel url m).
Proof.
  intros Hmode. unfold handleUrlResolution. rewrite Hmode.
  apply steps_bind; [exact local_only_trans | exact local_only_now | intros startTime].
  apply steps_try_catch; [exact local_only_trans | | intros e].
  - apply steps_bind; [exact local_only_trans | | intros data].
    + unfold resolve. cbn [mode String.eqb Ascii.eqb Bool.eqb].
      apply resolveLocal_local_only.
    + apply steps_bind; [exact local_only_trans | exact local_only_now | intros now].
      apply steps_bind; [exact local_only_trans | exact local_only_now | intros ts].
      apply steps_ret. exact local_only_refl.
  - apply steps_bind; [exact local_only_trans | exact local_only_now | intros now].
    apply steps_throw. exact local_only_refl.
Qed.

(** X17: a [RESOLVE_URL] message without a mode, or with an empty one, is
    resolved by the local chain alone: the worker never enters the remote
    resolution for it, whether the chain succeeds or fails. *)
Theorem worker_default_mode_is_local fuel request env s :
  msg_mode request = None \/ msg_mode request = Some EmptyString ->
  local_only s (snd (onMessage fuel request env s)).
Proof.
  intros Hmode.
  assert (Hlocal : mode_or_local (msg_mode request) = "local")
    by (destruct Hmode as [-> | ->]; reflexivity).
  destruct (onMessage fuel request env s) as [x s'] eqn:E. cbn [snd].
  revert E. unfold onMessage.
  destruct (String.eqb _ _).
  - apply steps_try_catch; [exact local_only_trans | | intros e].
    + apply steps_bind; [exact local_only_trans | | intros r].
      * apply handleUrlResolution_local_only, Hlocal.
      * apply steps_ret. exact local_only_refl.
    + apply steps_ret. exact local_only_refl.
  - apply steps_ret. exact local_only_refl.
Qed.

Lemma worker_default_mode_is_local_witness :
  local_only initial_state
    (snd (onMessage 10 (mkMessage "RESOLVE_URL" "at://bob.example" None)
                    env_all_fail initial_state)).
Proof.
  apply (worker_default_mode_is_local
           10 (mkMessage "RESOLVE_URL" "at://bob.example" None)
           env_all_fail initial_state).
  left. reflexivity.
Defined.

(** X18: the listener never throws.  A message of another type is left
    without an answer and without any effect; for a [RESOLVE_URL] message
    an exception of the resolution becomes the reply [{error: message}]
    with the message of that exception. *)
Theorem worker_replies_with_the_error fuel request env s :
  (forall e, fst (onMessage fuel request env s) <> Throw e) /\
  (msg_type request <> "RESOLVE_URL" ->
   onMessage fuel request env s = (Ok None, s)) /\
  (msg_type request = "RESOLVE_URL" ->
   forall e s1,
     resolve fuel (msg_url request)
             (mkOptions (Some (mode_or_local (msg_mode request)))
                        (Some 10000%Z) None)
             env (after_clock s) = (Throw e, s1) ->
     onMessage fuel request env s =
     (Ok (Some (Failure (message e))), after_clock s1)).
Proof.
  unfold onMessage. split; [|split].
  - intros e. destruct (String.eqb _ _); [|discriminate].
    unfold try_catch.
    destruct (bind _ _ env s) as [[a|e0|] s1]; discriminate.
  - intros H. apply String.eqb_neq in H. rewrite H. reflexivity.
  - intros H e s1 R. rewrite H. cbn [String.eqb Ascii.eqb Bool.eqb].
    unfold try_catch at 1. unfold bind at 1.
    unfold handleUrlResolution. unfold bind at 1. unfold Date_now at 1.
    cbv beta iota. fold (after_clock s).
    unfold try_catch at 1. unfold bind at 1. rewrite R. reflexivity.
Qed.

Lemma worker_replies_with_the_error_witness :
  fst (onMessage 10 (mkMessage "RESOLVE_URL" "at://bob.example" (Some "local"))
                 env_all_fail initial_state) =
  Ok (Some (Failure ("Handle " ++ JsString.dquote ++ "bob.example"
                               ++ JsString.dquote
                               ++ " not found - user may not exist"))).
Proof.
  destruct (resolve 10 "at://bob.example"
                    (mkOptions (Some "local") (Some 10000%Z) None)
                    env_all_fail (after_clock initial_state))
    as [[a|e|] s1] eqn:R;
    [vm_compute in R; discriminate R | | vm_compute in R; discriminate R].
  rewrite (proj2 (proj2 (worker_replies_with_the_error
                           10 (mkMessage "RESOLVE_URL" "at://bob.example"
                                         (Some "local"))
                           env_all_fail initial_state))
                 eq_refl e s1 R).
  cbn [fst]. vm_compute in R. injection R as <- _. reflexivity.
Defined.

(* ------------------------------------------------------------------ *)
(** ** The invariant of the engine *)
(* ------------------------------------------------------------------ *)

Lemma keeps_valid_quiet {A} (m : M A) :
  steps same_handleCache m -> keeps_valid (fun _ => True) m.
Proof. intros H. apply keeps_valid_same; [exact H | apply returns_any]. Qed.

Lemma keeps_valid_weaken {A} (P Q : A -> Prop) (m : M A) :
  (forall a, P a -> Q a) -> keeps_valid P m -> keeps_valid Q m.
Proof.
  intros HPQ H env s r s' Hs E. destruct (H _ _ _ _ Hs E) as [H1 H2].
  split; [exact H1|]. intros a Ha. apply HPQ, H2, Ha.
Qed.

Lemma same_handleCache_resolveDid d timeout :
  steps same_handleCache (resolveDid d timeout).
Proof.
  apply steps_resolveDid;
    [ exact same_handleCache_refl | exact same_handleCache_trans
    | exact same_handleCache_fetch | exact same_handleCache_now
    | intros d' e _; apply same_handleCache_did ].
Qed.

Lemma same_handleCache_fetchWithTimeout url timeout accept :
  steps same_handleCache (fetchWithTimeout url timeout accept).
Proof.
  apply steps_fetchWithTimeout;
    [ exact same_handleCache_refl | exact same_handleCache_trans
    | exact same_handleCache_fetch ].
Qed.

Lemma same_handleCache_resolveRemote url options :
  steps same_handleCache (resolveRemote url options).
Proof.
  apply steps_resolveRemote;
    [ exact same_handleCache_refl | exact same_handleCache_trans
    | exact same_handleCache_fetch
    | intros u; apply same_handleCache_emit ].
Qed.

Lemma keeps_valid_resolveHandle fuel handle timeout :
  keeps_valid (fun d => supported_did d = true)
              (resolveHandle fuel handle timeout).
Proof.
  unfold resolveHandle. apply keeps_valid_try_catch.
  - eapply keeps_valid_bind; [apply keeps_valid_unified_resolve|].
    intros r Hr. apply keeps_valid_ret. exact Hr.
  - intros e. destruct (JsString.includes _ _); apply keeps_valid_throw.
Qed.

Lemma keeps_valid_resolveLocal fuel url options :
  keeps_valid (fun _ => True) (resolveLocal fuel url options).
Proof.
  unfold resolveLocal.
  eapply keeps_valid_bind;
    [apply keeps_valid_quiet, same_handleCache_emit | intros _ _].
  cbv zeta.
  eapply keeps_valid_bind;
    [apply keeps_valid_quiet, steps_lift; exact same_handleCache_refl
    | intros parsed _].
  apply (keeps_valid_bind (fun _ => True)).
  { destruct (id_type _).
    - apply keeps_valid_ret. exact I.
    - eapply keeps_valid_weaken; [|apply keeps_valid_resolveHandle].
      intros; exact I. }
  intros did _.
  eapply keeps_valid_bind;
    [apply keeps_valid_quiet, same_handleCache_resolveDid | intros ep _].
  eapply keeps_valid_bind;
    [apply keeps_valid_quiet, same_handleCache_fetchWithTimeout
    | intros response _].
  destruct (negb _); [apply keeps_valid_throw|].
  apply keeps_valid_quiet, steps_json. exact same_handleCache_refl.
Qed.

Lemma keeps_valid_resolve fuel url options :
  keeps_valid (fun _ => True) (resolve fuel url options).
Proof.
  unfold resolve.
  destruct (String.eqb _ "remote");
    [apply keeps_valid_quiet, same_handleCache_resolveRemote|].
  destruct (String.eqb _ "local"); [apply keeps_valid_resolveLocal|].
  apply keeps_valid_try_catch; [apply keeps_valid_resolveLocal|].
  intros e. apply keeps_valid_quiet, same_handleCache_resolveRemote.
Qed.

Lemma resolve_keeps_invariant fuel url options env s r s' :
  engine_invariant s -> resolve fuel url options env s = (r, s') ->
  engine_invariant s'.
Proof.
  intros [Hwf Hv] E. split.
  - exact (resolve_keeps_caches_wf fuel url options env s r s' Hwf E).
  - exact (proj1 (keeps_valid_resolve fuel url options env s r s' Hv E)).
Qed.

Lemma invariant_after_clock s : engine_invariant s -> engine_invariant (after_clock s).
Proof. intros H. exact H. Qed.

(** X19: the caches of the engine keep their shape from message to message,
    whatever the network answers: the handle cache has distinct handles, at
    most 1000 entries and only [did:plc:] and [did:web:] DIDs, the DID cache
    has distinct keys, all of them [did:plc:] identifiers.  The caches the
    worker starts with have this shape. *)
Theorem worker_keeps_engine_invariant fuel request env s :
  engine_invariant initial_state /\
  (engine_invariant s ->
   engine_invariant (snd (onMessage fuel request env s))).
Proof.
  split.
  { split; [exact caches_wf_initial | constructor]. }
  intros Hinv. unfold onMessage.
  destruct (String.eqb _ _); [|exact Hinv].
  unfold try_catch at 1. unfold bind at 1.
  unfold handleUrlResolution. unfold bind at 1. unfold Date_now at 1.
  cbv beta iota. fold (after_clock s).
  unfold try_catch at 1. unfold bind at 1.
  destruct (resolve fuel (msg_url request) _ env (after_clock s))
    as [[data|e|] s1] eqn:R;
    apply (resolve_keeps_invariant _ _ _ _ _ _ _ (invariant_after_clock s Hinv))
      in R; exact R.
Qed.

(* ------------------------------------------------------------------ *)
(** ** A handle never leads to an unsupported DID *)
(* ------------------------------------------------------------------ *)

Lemma throws_weaken {A} (P Q : Exn -> Prop) (m : M A) :
  (forall e, P e -> Q e) -> throws P m -> throws Q m.
Proof. intros HPQ H env s e s' E. apply HPQ. eapply H, E. Qed.

















(* ------------------------------------------------------------------ *)
(** ** The catalogue of servers *)
(* ------------------------------------------------------------------ *)

Lemma random_element (servers : list string) env s :
  servers <> [] ->
  exists sv,
    (i <- random_index (List.length servers) ;; ret (nth_error servers i)) env s =
    (Ok (Some sv), after_random s) /\
    In sv servers.
Proof.
  intros Hne. unfold bind, random_index, ret.
  assert (Hlen : (random env (n_random s) mod List.length servers
                  < List.length servers)%nat).
  { apply Nat.mod_upper_bound. destruct servers; [congruence | discriminate]. }
  destruct (nth_error servers (random env (n_random s) mod List.length servers))
    as [sv|] eqn:N.
  - exists sv. split; [reflexivity | eapply nth_error_In, N].
  - apply nth_error_None in N. lia.
Qed.

(** X21: [getRandomServerFromAll] answers with one of [getAllServers], the
    servers of all regions, and never with [null] when there is one; with
    no server at all it answers [null] without drawing a number. *)
Theorem random_server_is_listed cfg env s :
  match getAllServers cfg with
  | [] => getRandomServerFromAll cfg env s = (Ok None, s)
  | sv0 :: rest =>
      exists sv,
        getRandomServerFromAll cfg env s = (Ok (Some sv), after_random s) /\
        In sv (sv0 :: rest)
  end.
Proof.
  unfold getRandomServerFromAll. cbv zeta.
  destruct (getAllServers cfg) as [|sv0 rest]; [reflexivity|].
  apply random_element. discriminate.
Qed.

(* ------------------------------------------------------------------ *)
(** ** The TXT record of a handle *)
(* ------------------------------------------------------------------ *)

Lemma drop_last_app (s : string) (c : ascii) :
  JsString.drop_last (s ++ String c EmptyString) = s.
Proof.
  induction s as [|a s IH]; [reflexivity|].
  change (String a s ++ String c EmptyString)
    with (String a (s ++ String c EmptyString)).
  cbn [JsString.drop_last]. rewrite IH.
  destruct s; reflexivity.
Qed.

Lemma length_append (a b : string) :
  String.length (a ++ b) = (String.length a + String.length b)%nat.
Proof. induction a as [|x a IH]; simpl; [reflexivity | rewrite IH; reflexivity]. Qed.

Lemma endsWith_app (s p : string) : JsString.endsWith (s ++ p) p = true.
Proof.
  unfold JsString.endsWith. rewrite length_append.
  replace (String.length s + String.length p - String.length p)%nat
    with (String.length s) by lia.
  rewrite substring_from_app, String.eqb_refl.
  rewrite Bool.andb_true_r. apply Nat.leb_le. lia.
Qed.

Lemma quoted_stripped (x : string) :
  JsString.startsWith (quote x) JsString.dquote = true /\
  JsString.endsWith (quote x) JsString.dquote = true /\
  JsString.slice_1_m1 (quote x) = x.
Proof.
  unfold quote. split; [apply startsWith_app|]. split.
  - rewrite <- append_assoc. apply endsWith_app.
  - unfold JsString.dquote. cbn [String.append JsString.slice_1_m1].
    apply drop_last_app.
Qed.

(** X22: a DNS answer whose first record is the TXT record [did=<DID>], in
    quotes or not, resolves to that DID when its method is supported: the
    quotes and the prefix are removed, the records that follow are not
    looked at, and the provider is [unknown] when the answer names none. *)
Theorem parseDnsResponse_txt_record d handle rest txt :
  supported_did d = true ->
  txt = "did=" ++ d \/ txt = quote ("did=" ++ d) ->
  DnsHandleResolver.parseDnsResponse
    (JObj [("Status", JNum 0);
           ("Answer", JArr (JObj [("type", JNum 16); ("data", JStr txt)] :: rest))])
    handle =
  Ok (mkHandleResult d "dns" None (Some (JStr "unknown"))).
Proof.
  intros Hd Htxt.
  assert (Hstrip :
            (if JsString.startsWith txt JsString.dquote
                && JsString.endsWith txt JsString.dquote
             then JsString.slice_1_m1 txt else txt) = "did=" ++ d).
  { destruct Htxt as [-> | ->].
    - reflexivity.
    - destruct (quoted_stripped ("did=" ++ d)) as [H1 [H2 H3]].
      rewrite H1, H2, H3. reflexivity. }
  unfold DnsHandleResolver.parseDnsResponse.
  cbn [JsValue.prop JsValue.lookup String.eqb Ascii.eqb Bool.eqb and_then
       JsValue.is_number Z.eqb Pos.eqb negb JsValue.truthy_opt JsValue.truthy].
  cbn [DnsHandleResolver.scan_answers].
  unfold DnsHandleResolver.check_answer.
  cbn [JsValue.prop JsValue.lookup String.eqb Ascii.eqb Bool.eqb and_then
       JsValue.is_number Z.eqb Pos.eqb negb JsValue.truthy_opt JsValue.truthy].
  cbv zeta. rewrite Hstrip.
  unfold DnsHandleResolver.DID_PREFIX.
  rewrite (startsWith_app "did=" d).
  rewrite (substring_from_app "did=" d).
  unfold isValidDid.
  assert (Ht : JsValue.truthy_opt (Some (JStr d)) = true).
  { cbn [JsValue.truthy_opt JsValue.truthy]. apply truthy_nonempty.
    intros ->. discriminate Hd. }
  rewrite Ht. cbn [negb and_then].
  unfold supported_did in Hd. rewrite Hd. reflexivity.
Qed.

Lemma parseDnsResponse_txt_record_witness :
  DnsHandleResolver.parseDnsResponse
    (JObj [("Status", JNum 0);
           ("Answer", JArr [JObj [("type", JNum 16);
                                  ("data", JStr (quote "did=did:web:alice.test"))];
                            JObj [("type", JNum 16);
                                  ("data", JStr "did=did:plc:abc123")]])])
    "alice.test" =
  Ok (mkHandleResult "did:web:alice.test" "dns" None (Some (JStr "unknown"))).
Proof.
  apply (parseDnsResponse_txt_record "did:web:alice.test" "alice.test").
  - reflexivity.
  - right. reflexivity.
Defined.

(* ------------------------------------------------------------------ *)
(** ** URLs that name a DID *)
(* ------------------------------------------------------------------ *)

Lemma no_handle_work_refl s : no_handle_work s s.
Proof. split; reflexivity. Qed.

Lemma no_handle_work_trans s1 s2 s3 :
  no_handle_work s1 s2 -> no_handle_work s2 s3 -> no_handle_work s1 s3.
Proof. unfold no_handle_work. intros [H1 H2] [H3 H4]. split; congruence. Qed.

Lemma no_handle_work_fetch r : steps no_handle_work (fetch r).
Proof.
  intros env s x s' H. apply fetch_state in H. subst s'. split; reflexivity.
Qed.

Lemma no_handle_work_now : steps no_handle_work Date_now.
Proof. intros env s x s' H. injection H as _ <-. split; reflexivity. Qed.

Lemma no_handle_work_did f : steps no_handle_work (update_didCache f).
Proof. intros env s x s' H. injection H as _ <-. split; reflexivity. Qed.

Lemma resolveLocal_did fuel url options parsed env s :
  validateUrl url = Ok parsed ->
  JsString.startsWith (identifier parsed) "did:" = true ->
  resolveLocal fuel url options env s =
  fetch_of_did (identifier parsed) parsed (timeout_of options) env
               (after_emit (EvLocal url) s).
Proof.
  intros Hparsed Hdid.
  unfold resolveLocal. unfold bind at 1. unfold emit at 1. cbv beta iota zeta.
  fold (after_emit (EvLocal url) s).
  rewrite Hparsed. unfold bind at 1. unfold lift at 1. cbv beta iota.
  unfold parseIdentifier. rewrite Hdid. cbn [id_type id_value].
  reflexivity.
Qed.

Lemma no_handle_work_fetch_of_did did parsed timeout :
  steps no_handle_work (fetch_of_did did parsed timeout).
Proof.
  unfold fetch_of_did.
  apply steps_bind; [exact no_handle_work_trans | | intros ep].
  - apply steps_resolveDid;
      [ exact no_handle_work_refl | exact no_handle_work_trans
      | exact no_handle_work_fetch | exact no_handle_work_now
      | intros d e _; apply no_handle_work_did ].
  - apply steps_bind; [exact no_handle_work_trans | | intros response].
    + apply steps_fetchWithTimeout;
        [ exact no_handle_work_refl | exact no_handle_work_trans
        | exact no_handle_work_fetch ].
    + destruct (negb _);
        [apply steps_throw | apply steps_json]; exact no_handle_work_refl.
Qed.

Lemma fam_fetch_of_did did parsed timeout :
  fetches_at_most 2 (fetch_of_did did parsed timeout).
Proof.
  unfold fetch_of_did. change 2%nat with (1 + (1 + 0))%nat.
  apply fam_bind; [apply fam_resolveDid | intros ep].
  apply fam_bind; [apply fam_fetchWithTimeout | intros response].
  apply fam_quiet. quiet.
Qed.

(** X23: for a URL whose identifier is a DID the local chain resolves no
    handle: the handle cache is neither read nor written, no server of the
    pool is drawn, and at most two requests leave (the DID document and the
    record). *)
Theorem resolveLocal_did_url fuel url options parsed env s :
  validateUrl url = Ok parsed ->
  JsString.startsWith (identifier parsed) "did:" = true ->
  let out := resolveLocal fuel url options env s in
  handleCache (snd out) = handleCache s /\
  n_random (snd out) = n_random s /\
  (n_fetch (snd out) <= n_fetch s + 2)%nat.
Proof.
  intros Hparsed Hdid out. subst out.
  rewrite (resolveLocal_did fuel url options parsed env s Hparsed Hdid).
  destruct (fetch_of_did (identifier parsed) parsed (timeout_of options) env
                         (after_emit (EvLocal url) s)) as [x s'] eqn:E.
  cbn [snd].
  destruct (no_handle_work_fetch_of_did _ _ _ _ _ _ _ E) as [H1 H2].
  pose proof (fam_fetch_of_did _ _ _ _ _ _ _ E) as H3.
  cbn [after_emit handleCache n_random n_fetch] in H1, H2, H3.
  repeat split; assumption.
Qed.

Lemma resolveLocal_did_url_witness :
  let out := resolveLocal 10 "at://did:plc:abc123/app.bsky.feed.post/xyz"
                          (options_of_mode (Some "local")) env_alice
                          initial_state in
  handleCache (snd out) = handleCache initial_state /\
  n_random (snd out) = n_random initial_state /\
  (n_fetch (snd out) <= n_fetch initial_state + 2)%nat.
Proof.
  apply (resolveLocal_did_url
           10 "at://did:plc:abc123/app.bsky.feed.post/xyz"
           (options_of_mode (Some "local"))
           (mkParsed "did:plc:abc123" (Some "app.bsky.feed.post") (Some "xyz"))
           env_alice initial_state);
    reflexivity.
Defined.

(* ------------------------------------------------------------------ *)
(** ** The well-known strategy *)
(* ------------------------------------------------------------------ *)





